(** * Crawl scheduling and ingestion pipeline: a shallow embedding

    The development follows the TypeScript sources of the repository:
    - [robots-txt-parser.ts]  (module [Robots])
    - [rate-limiter.ts]       (module [RateLimiter]; the class is in
                              [route.ts] of the snapshot)
    - [scraper.ts]            (module [Scraper])
    - [embeddings.ts]         (module [Embeddings])
    - [job-manager.ts]        (module [Jobs])
    - [semantic-search.ts]    (module [Search])
    - [document-processor.ts] (module [Processor])
    - [pipeline-orchestrator.ts] (module [Pipeline]; in the snapshot the
                              file follows the [Dockerfile])

    Conventions.  A JavaScript string is a sequence of UTF-16 code units;
    the model covers the code units U+0000..U+00FF, written as [ascii], so a
    string is a [string] (when used as a key or an opaque value) or a
    [list ascii] (when the code walks over its characters).  Integral
    JavaScript numbers (lengths, indices, millisecond timestamps, counters)
    are [Z]; numbers that carry fractions (similarity scores, random delays)
    are [Q], with exact arithmetic.  Promises are sequenced: an [await]
    is the next step of a state-passing function, and what the outside world
    answers (the clock, the random generator, the network, the store) is an
    explicit argument.

    The first part embeds the code, module by module, with the sample data
    the examples run on; the second part states and proves the properties. *)

From Stdlib Require Import ZArith QArith Qminmax Lia Lqa Bool Ascii String.
From Stdlib Require Import List Sorted Permutation DecimalString.
From stdpp Require Import base option list gmap strings.

Import ListNotations.
Local Open Scope Z_scope.

(** ** JavaScript string primitives used by the sources *)

Module JS.

Definition str := list ascii.

Definition code (c : ascii) : Z := Z.of_N (N_of_ascii c).

Definition of_string (s : string) : str := list_ascii_of_string s.
Definition to_string (l : str) : string := string_of_list_ascii l.

Definition len (s : str) : Z := Z.of_nat (length s).

(** WhiteSpace and LineTerminator code units below U+0100: TAB, LF, VT, FF,
    CR, SP and NBSP. *)
Definition is_space (c : ascii) : bool :=
  let n := code c in
  ((9 <=? n) && (n <=? 13)) || (n =? 32) || (n =? 160).

(** LineTerminator code units below U+0100 (the ones [.] refuses). *)
Definition is_line_terminator (c : ascii) : bool :=
  let n := code c in (n =? 10) || (n =? 13).

Fixpoint trimStart (s : str) : str :=
  match s with
  | c :: s' => if is_space c then trimStart s' else s
  | [] => []
  end.

Definition trimEnd (s : str) : str := rev (trimStart (rev s)).

(** [String.prototype.trim] *)
Definition trim (s : str) : str := trimEnd (trimStart s).

(** [String.prototype.toLowerCase] on one code unit below U+0100: A-Z and
    the capital letters U+00C0..U+00DE (but U+00D7, the multiplication
    sign) move up by 32. *)
Definition lower_char (c : ascii) : ascii :=
  let n := code c in
  if ((65 <=? n) && (n <=? 90))
     || ((192 <=? n) && (n <=? 222) && negb (n =? 215))
  then ascii_of_N (Z.to_N (n + 32)) else c.

Definition toLowerCase (s : str) : str := map lower_char s.

(** [s.split(sep)] for a one-character separator: never the empty list. *)
Fixpoint split (sep : ascii) (s : str) : list str :=
  match s with
  | [] => [[]]
  | c :: s' =>
      if Ascii.eqb c sep then [] :: split sep s'
      else match split sep s' with
           | w :: ws => (c :: w) :: ws
           | [] => [[c]]
           end
  end.

(** [parts.join(sep)] for a one-character separator *)
Fixpoint join (sep : ascii) (parts : list str) : str :=
  match parts with
  | [] => []
  | [w] => w
  | w :: ws => w ++ sep :: join sep ws
  end.

Definition startsWith (s : str) (c : ascii) : bool :=
  match s with
  | x :: _ => Ascii.eqb x c
  | [] => false
  end.

(** [s.slice(from, to)] with both arguments given: a negative index counts
    from the end, both are clamped to the string. *)
Definition slice_index (n i : Z) : Z :=
  if i <? 0 then Z.max (n + i) 0 else Z.min i n.

Definition slice {A} (s : list A) (from to : Z) : list A :=
  let n := Z.of_nat (length s) in
  let a := slice_index n from in
  let b := slice_index n to in
  firstn (Z.to_nat (b - a)) (skipn (Z.to_nat a) s).

(** [s.lastIndexOf(c)] for a one-character needle: [-1] when absent. *)
Fixpoint lastIndexOf_from (i : Z) (c : ascii) (s : str) : Z :=
  match s with
  | [] => -1
  | x :: s' =>
      let r := lastIndexOf_from (i + 1) c s' in
      if 0 <=? r then r else if Ascii.eqb x c then i else -1
  end.

Definition lastIndexOf (s : str) (c : ascii) : Z := lastIndexOf_from 0 c s.

(** Truthiness of a string: only the empty string is falsy. *)
Definition truthy (s : string) : bool := negb (String.eqb s "").

End JS.

(** ** Regular expressions: the fragment [matchesPattern] can build

    [new RegExp(src)] without flags, for sources made of literal characters,
    identity escapes of syntax characters, [.], [^], [$] and the postfix
    [*].  Any other syntax character makes [compile] answer [None]: such a
    source is outside the fragment (or a SyntaxError). *)

Module Regex.

Inductive token := TBol | TEol | TDot | TLit (c : ascii) | TStar.

Inductive atom := Bol | Eol | Dot | Lit (c : ascii) | Star (a : atom).

(** SyntaxCharacter of the RegExp grammar *)
Definition syntax_char (c : ascii) : bool :=
  existsb (Ascii.eqb c) (JS.of_string "^$\.*+?()[]{}|").

Fixpoint tokens (src : JS.str) : option (list token) :=
  match src with
  | [] => Some []
  | c :: rest =>
      if Ascii.eqb c "\" then
        match rest with
        | e :: rest' =>
            if syntax_char e then cons (TLit e) <$> tokens rest' else None
        | [] => None
        end
      else if Ascii.eqb c "^" then cons TBol <$> tokens rest
      else if Ascii.eqb c "$" then cons TEol <$> tokens rest
      else if Ascii.eqb c "." then cons TDot <$> tokens rest
      else if Ascii.eqb c "*" then cons TStar <$> tokens rest
      else if syntax_char c then None
      else cons (TLit c) <$> tokens rest
  end.

Definition atom_of (t : token) : option atom :=
  match t with
  | TBol => Some Bol
  | TEol => Some Eol
  | TDot => Some Dot
  | TLit c => Some (Lit c)
  | TStar => None
  end.

(** Only a character or [.] can be repeated. *)
Definition quantifiable (t : token) : bool :=
  match t with
  | TDot | TLit _ => true
  | _ => false
  end.

Fixpoint atoms (ts : list token) : option (list atom) :=
  match ts with
  | [] => Some []
  | t :: rest =>
      a ← atom_of t;
      match rest with
      | TStar :: rest' =>
          if quantifiable t then cons (Star a) <$> atoms rest' else None
      | _ => cons a <$> atoms rest
      end
  end.

Definition compile (src : JS.str) : option (list atom) :=
  tokens src ≫= atoms.

(** One input character against a one-character atom *)
Definition single (a : atom) (x : ascii) : bool :=
  match a with
  | Lit c => Ascii.eqb x c
  | Dot => negb (JS.is_line_terminator x)
  | _ => false
  end.

(** Does the atom sequence match at the current position?  [bos] tells
    whether the position is the start of the input. *)
Fixpoint match_here (r : list atom) : bool -> JS.str -> bool :=
  match r with
  | [] => fun _ _ => true
  | a :: r' =>
      let k := match_here r' in
      match a with
      | Bol => fun bos s => bos && k bos s
      | Eol => fun bos s => match s with [] => k bos s | _ => false end
      | Star b =>
          fix star (bos : bool) (s : JS.str) : bool :=
            match s with
            | x :: s' => (single b x && star false s') || k bos s
            | [] => k bos s
            end
      | _ => fun _ s =>
          match s with
          | x :: s' => single a x && k false s'
          | [] => false
          end
      end
  end.

(** [regex.test(s)]: a match may start at any index. *)
Fixpoint test_from (bos : bool) (r : list atom) (s : JS.str) : bool :=
  match_here r bos s ||
  match s with
  | _ :: s' => test_from false r s'
  | [] => false
  end.

Definition test (r : list atom) (s : JS.str) : bool := test_from true r s.

(** *** What [matchesPattern] makes of one pattern character

    The tokens, and the atom, that the three replacements and [new RegExp]
    turn a character of a crawl-policy pattern into. *)

Definition tokensOf (c : ascii) : list token :=
  if Ascii.eqb c "*" then [TDot; TStar] else [TLit c].

Definition atomOf (c : ascii) : atom :=
  if Ascii.eqb c "*" then Star Dot else Lit c.

End Regex.

(** ** URLs

    [new URL(url)] is the platform's parser; the sources read three fields
    of its result.  A parser answers [None] where the constructor throws. *)

Module URL.

Record t := { protocol : string; hostname : string; pathname : string }.

Definition parser := string -> option t.

(** A parser for absolute URLs of the plain shape [scheme://host/path]
    (no port, query or fragment), enough to run the functions below on
    concrete inputs. *)
Fixpoint break_at (c : ascii) (s : JS.str) : JS.str * JS.str :=
  match s with
  | [] => ([], [])
  | x :: s' =>
      if Ascii.eqb x c then ([], s)
      else let '(a, b) := break_at c s' in (x :: a, b)
  end.

Definition simple : parser := fun url =>
  match break_at ":" (JS.of_string url) with
  | (scheme, ":" :: "/" :: "/" :: rest)%char =>
      let '(host, path) := break_at "/" rest in
      match scheme, host with
      | _ :: _, _ :: _ =>
          Some {| protocol := JS.to_string (scheme ++ [":"%char]);
                  hostname := JS.to_string host;
                  pathname := JS.to_string
                                (match path with [] => ["/"%char] | _ => path end) |}
      | _, _ => None
      end
  | _ => None
  end.

End URL.

(** ** robots-txt-parser.ts *)

Module Robots.

(** [crawlDelay] holds the text handed to [Number.parseFloat]: no property
    below reads the number. *)
Record RobotsTxtRule := {
  userAgent : string;
  disallow : list string;
  allow : list string;
  crawlDelay : option string;
  sitemap : option (list string)
}.

Definition emptyRule (ua : string) : RobotsTxtRule :=
  {| userAgent := ua; disallow := []; allow := [];
     crawlDelay := None; sitemap := None |}.

(** The object state of a [RobotsTxtParser] *)
Record RobotsTxtParser := {
  rules : gmap string RobotsTxtRule;
  defaultRule : RobotsTxtRule
}.

(** The local variables of [parse] that live across lines *)
Record ParseState := {
  ps_rules : gmap string RobotsTxtRule;
  currentUserAgent : option string;
  currentRule : option RobotsTxtRule
}.

(** [if (currentUserAgent && currentRule) this.rules.set(...)] *)
Definition saveRule (st : ParseState) : gmap string RobotsTxtRule :=
  match currentUserAgent st, currentRule st with
  | Some ua, Some r => if JS.truthy ua then <[ua := r]> (ps_rules st) else ps_rules st
  | _, _ => ps_rules st
  end.

Definition directive (normalizedKey value : string) (r : RobotsTxtRule)
  : RobotsTxtRule :=
  if String.eqb normalizedKey "disallow" then
    {| userAgent := userAgent r; disallow := disallow r ++ [value];
       allow := allow r; crawlDelay := crawlDelay r; sitemap := sitemap r |}
  else if String.eqb normalizedKey "allow" then
    {| userAgent := userAgent r; disallow := disallow r;
       allow := allow r ++ [value]; crawlDelay := crawlDelay r;
       sitemap := sitemap r |}
  else if String.eqb normalizedKey "crawl-delay" then
    {| userAgent := userAgent r; disallow := disallow r; allow := allow r;
       crawlDelay := Some value; sitemap := sitemap r |}
  else if String.eqb normalizedKey "sitemap" then
    {| userAgent := userAgent r; disallow := disallow r; allow := allow r;
       crawlDelay := crawlDelay r;
       sitemap := Some (default [] (sitemap r) ++ [value]) |}
  else r.

(** The body of the [for (const line of lines)] loop *)
Definition parseLine (st : ParseState) (line : JS.str) : ParseState :=
  if JS.startsWith line "#" || (JS.len line =? 0) then st
  else
    let parts := JS.split ":" line in
    let key := hd [] parts in
    let value := JS.trim (JS.join ":" (tl parts)) in
    if (JS.len key =? 0) || (JS.len value =? 0) then st
    else
      let normalizedKey := JS.to_string (JS.toLowerCase key) in
      if String.eqb normalizedKey "user-agent" then
        {| ps_rules := saveRule st;
           currentUserAgent := Some (JS.to_string (JS.toLowerCase value));
           currentRule := Some (emptyRule (JS.to_string value)) |}
      else
        match currentRule st with
        | Some r =>
            {| ps_rules := ps_rules st;
               currentUserAgent := currentUserAgent st;
               currentRule := Some (directive normalizedKey (JS.to_string value) r) |}
        | None => st
        end.

(** [new RobotsTxtParser(content)] *)
Definition parse (content : string) : RobotsTxtParser :=
  let lines := map JS.trim (JS.split "010" (JS.of_string content)) in
  let st := fold_left parseLine lines
              {| ps_rules := ∅; currentUserAgent := None; currentRule := None |} in
  let rs := saveRule st in
  {| rules := rs;
     defaultRule := default (emptyRule "*") (rs !! "*"%string) |}.

(** The character class of the first [replace] *)
Definition special (c : ascii) : bool :=
  existsb (Ascii.eqb c) (JS.of_string ".+?^${}()|[]\").

(** [.replace(/[.+?^${}()|[\]\\]/g, "\\$&")] *)
Definition escapeSpecial (s : JS.str) : JS.str :=
  flat_map (fun c => if special c then ["\"%char; c] else [c]) s.

(** [.replace(/\*/g, ".*")] *)
Definition replaceStar (s : JS.str) : JS.str :=
  flat_map (fun c => if Ascii.eqb c "*" then ["."%char; "*"%char] else [c]) s.

(** [.replace(/\$/g, "$")] *)
Definition replaceDollar (s : JS.str) : JS.str :=
  flat_map (fun c => if Ascii.eqb c "$" then ["$"%char] else [c]) s.

Definition regexPattern (pattern : string) : JS.str :=
  replaceDollar (replaceStar (escapeSpecial (JS.of_string pattern))).

(** [None] when [new RegExp] would not accept the source *)
Definition matchesPattern (path pattern : string) : option bool :=
  regex ← Regex.compile ("^"%char :: regexPattern pattern);
  Some (Regex.test regex (JS.of_string path)).

(** A [for] loop that returns at the first pattern that matches *)
Fixpoint anyMatches (path : string) (patterns : list string) : option bool :=
  match patterns with
  | [] => Some false
  | p :: ps =>
      b ← matchesPattern path p;
      if b : bool then Some true else anyMatches path ps
  end.

Section WithURL.
Variable parseURL : URL.parser.

Definition isAllowed (this : RobotsTxtParser) (url userAgent : string)
  : option bool :=
  u ← parseURL url;
  let pathname := URL.pathname u in
  let rule := default (defaultRule this)
                (rules this !! JS.to_string (JS.toLowerCase (JS.of_string userAgent))) in
  a ← anyMatches pathname (allow rule);
  if a : bool then Some true
  else
    d ← anyMatches pathname (disallow rule);
    if d : bool then Some false else Some true.

End WithURL.

(** The pattern language as the specification words it: [*] stands for any
    character sequence, [$] holds only at the end of the path, every other
    character stands for itself, and the pattern has to match a prefix of
    the path. *)
Fixpoint documentedMatch (pattern : JS.str) : JS.str -> bool :=
  match pattern with
  | [] => fun _ => true
  | c :: p =>
      let k := documentedMatch p in
      if Ascii.eqb c "*" then
        fix star (s : JS.str) : bool :=
          k s || match s with _ :: s' => star s' | [] => false end
      else if Ascii.eqb c "$" then
        fun s : JS.str => match s with [] => k s | _ => false end
      else
        fun s : JS.str =>
          match s with x :: s' => Ascii.eqb x c && k s' | [] => false end
  end.

Definition matchesPattern_documented (path pattern : string) : bool :=
  documentedMatch (JS.of_string pattern) (JS.of_string path).

(** *** Definitions used to state the properties, and sample data *)

(** The crawl policy of the specification's scenario *)
Definition policy : string :=
  "User-agent: *
Disallow: /private
Allow: /private/public".

(** [k] is its own lower-case form. *)
Definition lowered (k : string) : Prop :=
  JS.to_string (JS.toLowerCase (JS.of_string k)) = k.

(** *** The lines of a policy, as [parse] reads them *)

(** [content.split("\n").map((line) => line.trim())] *)
Definition contentLines (content : string) : list JS.str :=
  map JS.trim (JS.split "010" (JS.of_string content)).

(** The value of a line that [parse] takes for a [User-agent] line: not a
    comment, a key that lower-cases to [user-agent], a value that is not
    empty. *)
Definition lineAgent (line : JS.str) : option JS.str :=
  if JS.startsWith line "#" || (JS.len line =? 0) then None
  else
    let parts := JS.split ":" line in
    let key := hd [] parts in
    let value := JS.trim (JS.join ":" (tl parts)) in
    if (JS.len key =? 0) || (JS.len value =? 0) then None
    else if String.eqb (JS.to_string (JS.toLowerCase key)) "user-agent"
         then Some value else None.

(** What a line that is not a [User-agent] line does to the rule being
    built: nothing for a comment, a blank line, a line without key or
    value, or a key the [switch] does not know. *)
Definition lineDirective (r : RobotsTxtRule) (line : JS.str) : RobotsTxtRule :=
  if JS.startsWith line "#" || (JS.len line =? 0) then r
  else
    let parts := JS.split ":" line in
    let key := hd [] parts in
    let value := JS.trim (JS.join ":" (tl parts)) in
    if (JS.len key =? 0) || (JS.len value =? 0) then r
    else directive (JS.to_string (JS.toLowerCase key)) (JS.to_string value) r.

(** The key a [User-agent] value is filed under *)
Definition agentKey (value : JS.str) : string := JS.to_string (JS.toLowerCase value).

(** A policy with two groups for one agent, and an agent named just before
    another *)
Definition twoGroups : string :=
  "User-agent: bot
Disallow: /a
User-agent: Bot
Disallow: /b
User-agent: other
User-agent: *
Disallow: /".

End Robots.

(** ** rate-limiter.ts *)

Module RateLimiter.

Record RateLimitConfig := {
  requestsPerMinute : Z;
  minDelay : Q;
  maxDelay : Q
}.

Record RequestRecord := { timestamp : Z; count : Z }.

(** The constructor's argument: every field may be missing. *)
Record PartialConfig := {
  p_requestsPerMinute : option Z;
  p_minDelay : option Q;
  p_maxDelay : option Q
}.

(** [x || d] on numbers: a missing field and [0] both give the default. *)
Definition orZ (x : option Z) (d : Z) : Z :=
  match x with
  | Some v => if v =? 0 then d else v
  | None => d
  end.

Definition orQ (x : option Q) (d : Q) : Q :=
  match x with
  | Some v => if Qeq_bool v 0 then d else v
  | None => d
  end.

Definition configure (c : PartialConfig) : RateLimitConfig :=
  {| requestsPerMinute := orZ (p_requestsPerMinute c) 30;
     minDelay := orQ (p_minDelay c) 1000;
     maxDelay := orQ (p_maxDelay c) 3000 |}.

(** The object state: the configuration and [domainRecords]. *)
Record t := {
  config : RateLimitConfig;
  domainRecords : gmap string (list RequestRecord)
}.

Definition create (c : PartialConfig) : t :=
  {| config := configure c; domainRecords := ∅ |}.

(** What the platform answers during one call of [waitForSlot]: the first
    [Date.now()], [Math.random()], and the [Date.now()] read once the sleep
    has resolved. *)
Record Tick := { now : Z; random : Q; after : Z }.

Definition recent (now : Z) (records : list RequestRecord) : list RequestRecord :=
  List.filter (fun record => now - timestamp record <? 60000) records.

Definition total (records : list RequestRecord) : Z :=
  fold_left (fun sum record => sum + count record) records 0.

(** The argument of [this.sleep]; [None] when [recentRecords[0]] is
    [undefined] and reading its [timestamp] throws. *)
Definition delayFor (cfg : RateLimitConfig) (w : Tick)
    (recentRecords : list RequestRecord) : option Q :=
  if requestsPerMinute cfg <=? total recentRecords then
    oldestRecord ← head recentRecords;
    let waitTime := 60000 - (now w - timestamp oldestRecord) in
    Some (Qmax (inject_Z waitTime) (minDelay cfg))
  else
    Some (minDelay cfg + random w * (maxDelay cfg - minDelay cfg))%Q.

(** [waitForSlot(domain)]: the time slept and the limiter afterwards *)
Definition waitForSlot (this : t) (w : Tick) (domain : string) : option (Q * t) :=
  let records := default [] (domainRecords this !! domain) in
  let recentRecords := recent (now w) records in
  delay ← delayFor (config this) w recentRecords;
  let recentRecords' := recentRecords ++ [{| timestamp := after w; count := 1 |}] in
  Some (delay,
        {| config := config this;
           domainRecords := <[domain := recentRecords']> (domainRecords this) |}).

(** [getRequestCount(domain)] *)
Definition getRequestCount (this : t) (now : Z) (domain : string) : Z :=
  total (recent now (default [] (domainRecords this !! domain))).

(** *** Definitions used to state the properties, and sample data *)

(** The records of a domain are in the order they were made. *)
Definition chronological (records : list RequestRecord) : Prop :=
  StronglySorted (fun a b => timestamp a <= timestamp b) records.

(** A limiter with a budget of two requests a minute and a fixed delay,
    after two requests to [x.com] *)
Definition twoPerMinute : t :=
  {| config := {| requestsPerMinute := 2; minDelay := 100; maxDelay := 100 |};
     domainRecords := {[ "x.com"%string := [ {| timestamp := 100; count := 1 |};
                                             {| timestamp := 300; count := 1 |} ] ]} |}.

(** Every record stands for one request, as the ones [waitForSlot] makes. *)
Definition single (records : list RequestRecord) : Prop :=
  Forall (fun record => count record = 1) records.

(** The records kept for a domain *)
Definition recordsOf (this : t) (domain : string) : list RequestRecord :=
  default [] (domainRecords this !! domain).

End RateLimiter.

(** ** scraper.ts *)

Module Scraper.

Record ScraperConfig := {
  userAgent : string;
  respectRobotsTxt : bool;
  rateLimitConfig : RateLimiter.PartialConfig
}.

Record Metadata := {
  title : option string;
  description : option string;
  lastModified : option string
}.

Record ScrapeResult := {
  r_url : string;
  r_content : string;
  r_contentType : string;
  r_timestamp : Z;
  r_statusCode : Z;
  r_metadata : Metadata
}.

Record ScrapeLog := {
  l_url : string;
  l_timestamp : Z;
  allowed : bool;
  reason : option string;
  statusCode : option Z
}.

(** A [Response] as far as the scraper reads it; [body = None] when
    [response.text()] rejects. *)
Record Response := {
  ok : bool;
  status : Z;
  statusText : string;
  contentTypeHeader : option string;
  lastModifiedHeader : option string;
  body : option string
}.

(** [await fetch(...)]: a response, or a rejection (DNS failure, refused
    connection, timeout, ...) carrying its message. *)
Inductive FetchOutcome :=
| Responded (r : Response)
| FetchFailed (message : string).

(** What the outside world answers during one call of [scrape] *)
Record World := {
  fetch : string -> FetchOutcome;
  tick : RateLimiter.Tick;
  (** the value of the [new Date()] calls *)
  clock : Z
}.

Record EthicalScraper := {
  config : ScraperConfig;
  rateLimiter : RateLimiter.t;
  robotsTxtCache : gmap string Robots.RobotsTxtParser;
  logs : list ScrapeLog
}.

(** The errors [scrape] can end with: the ones it throws itself, and the
    ones thrown by what it calls. *)
Inductive ScrapeError :=
| InvalidURL
| RobotsDisallowed (url : string)
| HttpError (status : Z) (statusText : string)
| NetworkError (message : string)
| BodyError
| RobotsCheckError
| RateLimiterError.

(** A promise settles with a value or with a thrown error. *)
Inductive Settled (A : Type) :=
| Fulfilled (a : A)
| Rejected (e : ScrapeError).
Arguments Fulfilled {A} a.
Arguments Rejected {A} e.

Definition defaultUserAgent : string :=
  "RegulatoryComplianceBot/1.0; +https://assurecode.com/bot.html".

(** The constructor, from a partial configuration *)
Definition create (ua : option string) (respect : option bool)
    (rl : RateLimiter.PartialConfig) : EthicalScraper :=
  let cfg := {| userAgent := match ua with
                             | Some s => if JS.truthy s then s else defaultUserAgent
                             | None => defaultUserAgent
                             end;
                respectRobotsTxt := default true respect;
                rateLimitConfig := rl |} in
  {| config := cfg; rateLimiter := RateLimiter.create rl;
     robotsTxtCache := ∅; logs := [] |}.

Section WithPlatform.
Variable parseURL : URL.parser.
(** [extractMetadata(content, contentType)]: two regular-expression
    searches over the markup, left to the platform *)
Variable extractMetadata : string -> string -> Metadata.

(** [checkRobotsTxt(url)]: the verdict and the cache afterwards; the verdict
    is [None] when [isAllowed] throws. *)
Definition checkRobotsTxt (this : EthicalScraper) (w : World) (url : string)
    (urlObj : URL.t) : option bool * gmap string Robots.RobotsTxtParser :=
  let domain := URL.hostname urlObj in
  let robotsTxtUrl := (URL.protocol urlObj ++ "//" ++ domain ++ "/robots.txt")%string in
  let cache := robotsTxtCache this in
  let verdict (parser : Robots.RobotsTxtParser) :=
    Robots.isAllowed parseURL parser url (userAgent (config this)) in
  match cache !! domain with
  | Some parser => (verdict parser, cache)
  | None =>
      match fetch w robotsTxtUrl with
      | Responded response =>
          if ok response then
            match body response with
            | Some content =>
                let parser := Robots.parse content in
                (verdict parser, <[domain := parser]> cache)
            | None => (Some true, cache)
            end
          else (Some true, cache)
      | FetchFailed _ => (Some true, cache)
      end
  end.

Definition pushLog (this : EthicalScraper) (cache : gmap string Robots.RobotsTxtParser)
    (limiter : RateLimiter.t) (entry : ScrapeLog) : EthicalScraper :=
  {| config := config this; rateLimiter := limiter;
     robotsTxtCache := cache; logs := logs this ++ [entry] |}.

Definition keepLog (this : EthicalScraper) (cache : gmap string Robots.RobotsTxtParser)
    (limiter : RateLimiter.t) : EthicalScraper :=
  {| config := config this; rateLimiter := limiter;
     robotsTxtCache := cache; logs := logs this |}.

(** The [try { ... } catch (error) { console.error(...); throw error }]
    block of [scrape] *)
Definition fetchPage (this : EthicalScraper) (w : World) (url : string)
    (cache : gmap string Robots.RobotsTxtParser) (limiter : RateLimiter.t)
    : Settled ScrapeResult * EthicalScraper :=
  match fetch w url with
  | FetchFailed message => (Rejected (NetworkError message), keepLog this cache limiter)
  | Responded response =>
      if negb (ok response) then
        (Rejected (HttpError (status response) (statusText response)),
         pushLog this cache limiter
           {| l_url := url; l_timestamp := clock w; allowed := true;
              reason := None; statusCode := Some (status response) |})
      else
        let contentType := match contentTypeHeader response with
                           | Some s => if JS.truthy s then s else "text/html"
                           | None => "text/html"
                           end%string in
        match body response with
        | None => (Rejected BodyError, keepLog this cache limiter)
        | Some content =>
            let lastModified := match lastModifiedHeader response with
                                | Some s => if JS.truthy s then Some s else None
                                | None => None
                                end in
            let metadata := extractMetadata content contentType in
            let metadata := match lastModified with
                            | Some _ => {| title := title metadata;
                                           description := description metadata;
                                           lastModified := lastModified |}
                            | None => metadata
                            end in
            (Fulfilled {| r_url := url; r_content := content;
                          r_contentType := contentType; r_timestamp := clock w;
                          r_statusCode := status response; r_metadata := metadata |},
             pushLog this cache limiter
               {| l_url := url; l_timestamp := clock w; allowed := true;
                  reason := None; statusCode := Some (status response) |})
        end
  end.

(** [scrape(url)] *)
Definition scrape (this : EthicalScraper) (w : World) (url : string)
    : Settled ScrapeResult * EthicalScraper :=
  match parseURL url with
  | None => (Rejected InvalidURL, this)
  | Some urlObj =>
      let domain := URL.hostname urlObj in
      let '(verdict, cache) :=
        if respectRobotsTxt (config this)
        then checkRobotsTxt this w url urlObj
        else (Some true, robotsTxtCache this) in
      match verdict with
      | None => (Rejected RobotsCheckError, keepLog this cache (rateLimiter this))
      | Some false =>
          (Rejected (RobotsDisallowed url),
           pushLog this cache (rateLimiter this)
             {| l_url := url; l_timestamp := clock w; allowed := false;
                reason := Some "Blocked by robots.txt"%string; statusCode := None |})
      | Some true =>
          match RateLimiter.waitForSlot (rateLimiter this) (tick w) domain with
          | None => (Rejected RateLimiterError, keepLog this cache (rateLimiter this))
          | Some (_, limiter) => fetchPage this w url cache limiter
          end
      end
  end.

(** [getLogs()]: a copy of the log *)
Definition getLogs (this : EthicalScraper) : list ScrapeLog := logs this.

(** [clearLogs()] *)
Definition clearLogs (this : EthicalScraper) : EthicalScraper :=
  {| config := config this; rateLimiter := rateLimiter this;
     robotsTxtCache := robotsTxtCache this; logs := [] |}.

End WithPlatform.

(** *** Definitions used to state the properties, and sample data *)

(** The log entry [scrape] pushes *)
Definition entry (w : World) (url : string) (ok : bool) (why : option string)
    (code : option Z) : ScrapeLog :=
  {| l_url := url; l_timestamp := clock w; allowed := ok; reason := why;
     statusCode := code |}.

(** An [extractMetadata] that finds nothing *)
Definition noMetadata (content contentType : string) : Metadata :=
  {| title := None; description := None; lastModified := None |}.

(** A network on which every request fails before any response *)
Definition unreachable : World :=
  {| fetch := fun _ => FetchFailed "fetch failed";
     tick := {| RateLimiter.now := 1000; RateLimiter.random := 1 # 2;
                RateLimiter.after := 3000 |};
     clock := 3000 |}.

(** [new EthicalScraper()] *)
Definition fresh : EthicalScraper :=
  create None None
    {| RateLimiter.p_requestsPerMinute := None; RateLimiter.p_minDelay := None;
       RateLimiter.p_maxDelay := None |}.


(** A series of calls of [scrape] on one scraper, each with what the
    outside world answers during it; the scraper after the last one *)
Definition scrapeAll (parseURL : URL.parser)
    (extractMetadata : string -> string -> Metadata)
    (this : EthicalScraper) (calls : list (World * string)) : EthicalScraper :=
  fold_left (fun s call => snd (scrape parseURL extractMetadata s (fst call) (snd call)))
            calls this.

(** The outcomes in which [fetch(url, ...)] was called for the page *)
Definition requested (outcome : Settled ScrapeResult) : bool :=
  match outcome with
  | Fulfilled _ => true
  | Rejected (HttpError _ _) => true
  | Rejected (NetworkError _) => true
  | Rejected BodyError => true
  | Rejected _ => false
  end.

(** A site that answers every request with the given text *)
Definition serving (text : string) : World :=
  {| fetch := fun _ => Responded {| ok := true; status := 200; statusText := "OK";
                                    contentTypeHeader := Some "text/plain"%string;
                                    lastModifiedHeader := None;
                                    body := Some text |};
     tick := {| RateLimiter.now := 1000; RateLimiter.random := 1 # 2;
                RateLimiter.after := 3000 |};
     clock := 3000 |}.

End Scraper.

(** ** embeddings.ts: [chunkText] *)

Module Embeddings.

(** The variables the [while] loop updates *)
Record Loop := { chunks : list JS.str; start : Z }.

(** One run of the loop body *)
Definition iteration (text : JS.str) (maxChunkSize overlap : Z) (st : Loop) : Loop :=
  let s := start st in
  let end_ := Z.min (s + maxChunkSize) (JS.len text) in
  let chunk := JS.slice text s end_ in
  let lastPeriod := JS.lastIndexOf chunk "." in
  let lastNewline := JS.lastIndexOf chunk "010" in
  let breakPoint := Z.max lastPeriod lastNewline in
  let st1 :=
    if (0 <? breakPoint) && (end_ <? JS.len text) then
      {| chunks := chunks st ++ [JS.trim (JS.slice text s (s + breakPoint + 1))];
         start := s + breakPoint + 1 - overlap |}
    else
      {| chunks := chunks st ++ [JS.trim chunk]; start := end_ |} in
  (* Prevent infinite loop *)
  if end_ <=? start st1 then {| chunks := chunks st1; start := end_ |} else st1.

(** [while (start < text.length) { ... }], at most [fuel] iterations:
    [None] when the loop is still running after them. *)
Fixpoint while (fuel : nat) (text : JS.str) (maxChunkSize overlap : Z) (st : Loop)
  : option Loop :=
  if start st <? JS.len text then
    match fuel with
    | O => None
    | S fuel' => while fuel' text maxChunkSize overlap (iteration text maxChunkSize overlap st)
    end
  else Some st.

Definition chunkText (fuel : nat) (text : JS.str) (maxChunkSize overlap : Z)
  : option (list JS.str) :=
  st ← while fuel text maxChunkSize overlap {| chunks := []; start := 0 |};
  Some (List.filter (fun chunk => 0 <? JS.len chunk) (chunks st)).

(** The slice of the text an iteration cuts, as the [(from, to)] arguments
    of [text.slice], and where the next iteration starts. *)
Definition cut (text : JS.str) (maxChunkSize overlap : Z) (s : Z) : Z * Z * Z :=
  let end_ := Z.min (s + maxChunkSize) (JS.len text) in
  let chunk := JS.slice text s end_ in
  let breakPoint := Z.max (JS.lastIndexOf chunk ".") (JS.lastIndexOf chunk "010") in
  if (0 <? breakPoint) && (end_ <? JS.len text) then
    let next := s + breakPoint + 1 - overlap in
    (s, s + breakPoint + 1, if end_ <=? next then end_ else next)
  else (s, end_, end_).

(** The slices cut by the first [fuel] iterations, in order *)
Fixpoint cuts (fuel : nat) (text : JS.str) (maxChunkSize overlap : Z) (s : Z)
  : option (list (Z * Z)) :=
  if s <? JS.len text then
    match fuel with
    | O => None
    | S fuel' =>
        let '(from, to, next) := cut text maxChunkSize overlap s in
        cons (from, to) <$> cuts fuel' text maxChunkSize overlap next
    end
  else Some [].

(** The part of each slice that lies beyond the end of the slices before it;
    [covered] is how far the text has been cut so far. *)
Fixpoint nonOverlap (text : JS.str) (covered : Z) (spans : list (Z * Z)) : list JS.str :=
  match spans with
  | [] => []
  | (from, to) :: rest =>
      JS.slice text (Z.max from covered) (Z.max to covered)
      :: nonOverlap text (Z.max to covered) rest
  end.

(** [part] occurs in [whole] as a run of consecutive characters. *)
Definition portionOf (part whole : JS.str) : Prop :=
  exists before after, whole = before ++ part ++ after.

(** The property as the specification words it: some portion of every
    chunk, taken in order, concatenates to the text. *)
Definition reconstructs (text : JS.str) (chunkList : list JS.str) : Prop :=
  exists portions, Forall2 portionOf portions chunkList /\ concat portions = text.

(** *** Definitions used to state the properties, and sample data *)

(** The chunk an iteration pushes for a slice *)
Definition pushed (text : JS.str) (span : Z * Z) : JS.str :=
  JS.trim (JS.slice text (fst span) (snd span)).

(** A sentence of 200 characters, then 900 characters without a full stop
    or a line break *)
Definition longSentence : JS.str :=
  repeat "a"%char 199 ++ "."%char :: repeat "a"%char 900.

End Embeddings.

(** ** job-manager.ts

    The [scraping_jobs] table is a finite map from the row's [id] to the
    row.  The store is taken to apply every statement it is sent. *)

Module Jobs.

Inductive Status := pending | running | completed | failed.

Record Job := {
  id : string;
  source_id : string;
  url : string;
  status : Status;
  priority : Z;
  scheduled_at : Z;
  started_at : option Z;
  completed_at : option Z;
  updated_at : option Z;
  error_message : option string;
  retry_count : Z;
  max_retries : Z
}.

#[export] Instance Status_eq_dec : EqDecision Status.
Proof. solve_decision. Defined.

Inductive PipelineStatus := success | partial | pipelineFailed.

(** What [runPipeline] returns, as far as [executeJob] reads it *)
Record PipelineResult := { p_status : PipelineStatus; errors : list string }.

(** How [await this.orchestrator.runPipeline(...)] ends *)
Inductive Outcome :=
| Returned (result : PipelineResult)
| ThrewError (message : string)
| ThrewOther.

(** What the outside world answers during one call of [executeJob]: the
    clock when the job is marked running, the pipeline, and the clock when
    the result is recorded. *)
Record World := { startedAt : Z; outcome : Outcome; finishedAt : Z }.

Inductive Completion := Resolved | Rejected.

(** The range of time values a [Date] can hold; [toISOString] throws a
    RangeError outside it. *)
Definition validTime (t : Z) : bool :=
  (-8640000000000000 <=? t) && (t <=? 8640000000000000).

(** [createJob(sourceId, url, priority, scheduledAt)]; [newId] is the
    identifier the store gives the row, and the insert fails when it is
    taken. *)
Definition createJob (store : gmap string Job) (newId sourceId url : string)
    (priority : Z) (scheduledAt : option Z) (now : Z)
    : option string * gmap string Job :=
  match store !! newId with
  | Some _ => (None, store)
  | None =>
      (Some newId,
       <[newId := {| id := newId; source_id := sourceId; url := url;
                     status := pending; priority := priority;
                     scheduled_at := default now scheduledAt;
                     started_at := None; completed_at := None;
                     updated_at := None; error_message := None;
                     retry_count := 0; max_retries := 3 |}]> store)
  end.

(** [bulkCreateJobs(sourceId, urls, priority)]: one row per URL, each with
    the identifier the store gives it. *)
Fixpoint bulkCreateJobs (store : gmap string Job) (sourceId : string)
    (urls : list (string * string)) (priority : Z) (now : Z)
    : option (list string) * gmap string Job :=
  match urls with
  | [] => (Some [], store)
  | (newId, url) :: rest =>
      match createJob store newId sourceId url priority None now with
      | (Some i, store1) =>
          match bulkCreateJobs store1 sourceId rest priority now with
          | (Some ids, store2) => (Some (i :: ids), store2)
          | (None, _) => (None, store)
          end
      | (None, _) => (None, store)
      end
  end.

Definition eligible (now : Z) (j : Job) : bool :=
  bool_decide (status j = pending) && (scheduled_at j <=? now).

(** [a] is listed no later than [b]: priority descending, then
    [scheduled_at] ascending. *)
Definition before (a b : Job) : bool :=
  (priority b <? priority a)
  || ((priority a =? priority b) && (scheduled_at a <=? scheduled_at b)).

Definition first (best : option Job) (j : Job) : option Job :=
  match best with
  | None => Some j
  | Some b => if before b j then Some b else Some j
  end.

(** [getNextJob()]: the first eligible row in the requested order (rows the
    order does not tell apart come in the order the store lists them). *)
Definition getNextJob (store : gmap string Job) (now : Z) : option Job :=
  fold_left first (List.filter (eligible now) (map snd (map_to_list store))) None.

(** [updateJobStatus(jobId, status, errorMessage)] at clock value [now] *)
Definition updateJobStatus (store : gmap string Job) (now : Z) (jobId : string)
    (st : Status) (errorMessage : option string) : gmap string Job :=
  alter (fun j =>
    {| id := id j; source_id := source_id j; url := url j;
       status := st; priority := priority j; scheduled_at := scheduled_at j;
       started_at := match st with running => Some now | _ => started_at j end;
       completed_at := match st with
                       | completed | failed => Some now
                       | _ => completed_at j
                       end;
       updated_at := Some now;
       error_message := match errorMessage with
                        | Some m => if JS.truthy m then Some m else error_message j
                        | None => error_message j
                        end;
       retry_count := retry_count j; max_retries := max_retries j |}) jobId store.

(** The message of the error the [catch] block receives, if there is one *)
Definition failure (o : Outcome) : option string :=
  match o with
  | Returned result =>
      match p_status result with
      | success | partial => None
      | pipelineFailed => Some (String.concat ", " (errors result))
      end
  | ThrewError message => Some message
  | ThrewOther => Some "Unknown error"%string
  end.

(** [60000 * Math.pow(2, retry_count)], as the [Date] built from it keeps
    it: whole milliseconds. *)
Definition backoff (retryCount : Z) : Z :=
  if 0 <=? retryCount then 60000 * 2 ^ retryCount
  else 60000 / 2 ^ (- retryCount).

(** The [update] of the retry branch *)
Definition reschedule (job : Job) (errorMessage : string) (at_ : Z) (j : Job) : Job :=
  {| id := id j; source_id := source_id j; url := url j;
     status := pending; priority := priority j; scheduled_at := at_;
     started_at := started_at j; completed_at := completed_at j;
     updated_at := updated_at j;
     error_message := Some errorMessage;
     retry_count := retry_count job + 1; max_retries := max_retries j |}.

(** [executeJob(job)] *)
Definition executeJob (store : gmap string Job) (w : World) (job : Job)
    : Completion * gmap string Job :=
  let store1 := updateJobStatus store (startedAt w) (id job) running None in
  match failure (outcome w) with
  | None => (Resolved, updateJobStatus store1 (finishedAt w) (id job) completed None)
  | Some errorMessage =>
      if retry_count job <? max_retries job then
        let at_ := finishedAt w + backoff (retry_count job) in
        if validTime at_ then
          (Resolved, alter (reschedule job errorMessage at_) (id job) store1)
        else (Rejected, store1)
      else
        (Resolved,
         updateJobStatus store1 (finishedAt w) (id job) failed (Some errorMessage))
  end.

(** [processQueue(maxJobs)]: one entry of [worlds] per iteration allowed
    (the clock read by [getNextJob], then what [executeJob] meets). *)
Fixpoint processQueue (store : gmap string Job) (worlds : list (Z * World))
    : option Z * gmap string Job :=
  match worlds with
  | [] => (Some 0, store)
  | (now, w) :: rest =>
      match getNextJob store now with
      | None => (Some 0, store)
      | Some job =>
          match executeJob store w job with
          | (Resolved, store1) =>
              let '(n, store2) := processQueue store1 rest in
              (Z.succ <$> n, store2)
          | (Rejected, store1) => (None, store1)
          end
      end
  end.

(** What the scheduler can do to the table *)
Inductive step : gmap string Job -> gmap string Job -> Prop :=
| step_create store newId sourceId url priority scheduledAt now r store' :
    createJob store newId sourceId url priority scheduledAt now = (r, store') ->
    step store store'
| step_bulk store sourceId urls priority now r store' :
    bulkCreateJobs store sourceId urls priority now = (r, store') ->
    step store store'
| step_process store worlds n store' :
    processQueue store worlds = (n, store') ->
    step store store'.

(** Every row is filed under its own identifier. *)
Definition keyed (store : gmap string Job) : Prop :=
  forall k j, store !! k = Some j -> id j = k.

(** [n] executions of the row [jobId] in a row, each handed the row as the
    table holds it, each meeting the next world of the list *)
Fixpoint executions (store : gmap string Job) (jobId : string) (worlds : list World)
    : gmap string Job :=
  match worlds with
  | [] => store
  | w :: rest =>
      match store !! jobId with
      | Some job => executions (snd (executeJob store w job)) jobId rest
      | None => store
      end
  end.

(** *** Definitions used to state the properties, and sample data *)

(** A job that has been retried twice *)
Definition example : Job :=
  {| id := "job-1"; source_id := "sec"; url := "https://www.sec.gov/rules";
     status := pending; priority := 0; scheduled_at := 0;
     started_at := None; completed_at := None; updated_at := None;
     error_message := None; retry_count := 2; max_retries := 3 |}.

(** An execution started at [at_] that fails 10 ms later *)
Definition failing (at_ : Z) : World :=
  {| startedAt := at_; outcome := ThrewError "HTTP 503: Service Unavailable";
     finishedAt := at_ + 10 |}.

(** No row has used more retries than it is allowed. *)
Definition bounded (store : gmap string Job) : Prop :=
  forall k j, store !! k = Some j -> retry_count j <= max_retries j.

(** The execution fails, at a clock from which every backoff up to
    [2^limit] minutes gives a date. *)
Definition fails (limit : Z) (w : World) : Prop :=
  is_Some (failure (outcome w))
  /\ 0 <= finishedAt w
  /\ finishedAt w + 60000 * 2 ^ limit <= 8640000000000000.

(** The table after one [createJob] *)
Definition created : gmap string Job :=
  snd (createJob ∅ "job-1" "sec" "https://www.sec.gov/rules" 0 None 0).


(** The fields of a row that no operation of the scheduler writes once the
    row is made *)
Definition sameJob (j j' : Job) : Prop :=
  id j' = id j /\ source_id j' = source_id j /\ url j' = url j
  /\ priority j' = priority j /\ max_retries j' = max_retries j.

(** Every row of [store] is still in [store'], as the same job, and as it
    was unless it was pending. *)
Definition extends (store store' : gmap string Job) : Prop :=
  forall k j, store !! k = Some j ->
    exists j', store' !! k = Some j' /\ sameJob j j' /\ (status j <> pending -> j' = j).

(** *** [getJobStats]

    One [count] query per status; [query st] is the table as that query
    finds it, or [None] when the query fails and [count] is [null]. *)

Record Stats := { n_pending : Z; n_running : Z; n_completed : Z; n_failed : Z }.

Definition countOf (st : Status) (table : option (gmap string Job)) : Z :=
  match table with
  | Some store =>
      Z.of_nat (length (List.filter (fun j => bool_decide (status j = st))
                                    (map snd (map_to_list store))))
  | None => 0
  end.

Definition getJobStats (query : Status -> option (gmap string Job)) : Stats :=
  {| n_pending := countOf pending (query pending);
     n_running := countOf running (query running);
     n_completed := countOf completed (query completed);
     n_failed := countOf failed (query failed) |}.

End Jobs.

(** ** semantic-search.ts *)

Module Search.

Record SearchFilter := {
  f_jurisdiction : option (list string);
  f_category : option (list string);
  f_priority : option (list string);
  dateRange : option (string * string)
}.

Record SearchResult := {
  id : string;
  regulationId : option string;
  title : string;
  content : string;
  summary : option string;
  jurisdiction : option string;
  category : option string;
  priority : option string;
  similarity : Q;
  url : string;
  effectiveDate : option string
}.

(** The [metadata] object of a [documents] row *)
Record Metadata := {
  regulation_id : option string;
  m_title : option string;
  m_url : option string
}.

(** A row answered by the [match_documents] query *)
Record Document := {
  d_id : string;
  d_content : string;
  d_similarity : Q;
  metadata : option Metadata
}.

(** A row of the [regulations] table *)
Record Regulation := {
  reg_id : string;
  reg_title : string;
  reg_summary : option string;
  reg_jurisdiction : option string;
  reg_category : option string;
  reg_priority : option string;
  source_url : string;
  effective_date : option string
}.

(** [a || b] on an optional string: a missing and an empty string are falsy. *)
Definition orElse (a : option string) (b : string) : string :=
  match a with
  | Some s => if JS.truthy s then s else b
  | None => b
  end.

Definition truthyOpt (a : option string) : bool :=
  match a with
  | Some s => JS.truthy s
  | None => false
  end.

Definition includes (l : list string) (s : string) : bool :=
  existsb (String.eqb s) l.

(** [regulations.find((r) => r.id === regulationId)] *)
Definition findRegulation (regulations : list Regulation) (regulationId : option string)
  : option Regulation :=
  match regulationId with
  | Some rid => List.find (fun r => String.eqb (reg_id r) rid) regulations
  | None => None
  end.

(** The body of [documents.map((doc) => ...)] in [search] *)
Definition toResult (regulations : list Regulation) (doc : Document) : SearchResult :=
  let regulationId := metadata doc ≫= regulation_id in
  let regulation := findRegulation regulations regulationId in
  {| id := d_id doc;
     regulationId := regulationId;
     title := orElse (metadata doc ≫= m_title)
                (orElse (reg_title <$> regulation) "Untitled");
     content := d_content doc;
     summary := regulation ≫= reg_summary;
     jurisdiction := regulation ≫= reg_jurisdiction;
     category := regulation ≫= reg_category;
     priority := regulation ≫= reg_priority;
     similarity := d_similarity doc;
     url := orElse (metadata doc ≫= m_url)
              (orElse (source_url <$> regulation) "");
     effectiveDate := regulation ≫= effective_date |}.

(** One [if (filters.x && filters.x.length > 0) filteredResults = ...] step *)
Definition filterBy (allowed : option (list string))
    (field : SearchResult -> option string) (results : list SearchResult)
  : list SearchResult :=
  match allowed with
  | Some (v :: vs) =>
      List.filter (fun r => truthyOpt (field r) && includes (v :: vs) (default "" (field r)))
        results
  | _ => results
  end.

Definition filterByDate (range : option (string * string)) (results : list SearchResult)
  : list SearchResult :=
  match range with
  | Some (start, end_) =>
      List.filter (fun r =>
        match effectiveDate r with
        | Some d => if JS.truthy d then String.leb start d && String.leb d end_ else false
        | None => false
        end) results
  | None => results
  end.

(** [search(query, filters, limit)] after the two store queries:
    [documents] is what [match_documents] answers, [regsData] what the
    [regulations] table answers for the identifiers found in the documents
    ([None] for no data). *)
Definition search (documents : list Document) (regsData : option (list Regulation))
    (filters : SearchFilter) (limit : Z) : list SearchResult :=
  let regulationIds := omap (fun doc => metadata doc ≫= regulation_id) documents in
  let regulations := match regulationIds with
                     | [] => []
                     | _ => default [] regsData
                     end in
  let results := map (toResult regulations) documents in
  let filteredResults := filterBy (f_jurisdiction filters) jurisdiction results in
  let filteredResults := filterBy (f_category filters) category filteredResults in
  let filteredResults := filterBy (f_priority filters) priority filteredResults in
  let filteredResults := filterByDate (dateRange filters) filteredResults in
  JS.slice filteredResults 0 limit.

(** A JavaScript [Map] with string keys: the entries in insertion order.
    [set] on a key already present replaces the value where it stands. *)
Fixpoint mapSet {V} (k : string) (v : V) (m : list (string * V)) : list (string * V) :=
  match m with
  | [] => [(k, v)]
  | (k', v') :: m' =>
      if String.eqb k' k then (k, v) :: m' else (k', v') :: mapSet k v m'
  end.

Definition mapHas {V} (k : string) (m : list (string * V)) : bool :=
  existsb (fun e => String.eqb (fst e) k) m.

Definition mapGet {V} (k : string) (m : list (string * V)) : option V :=
  snd <$> List.find (fun e => String.eqb (fst e) k) m.

(** [for (const result of semanticResults) if (result.regulationId) ...] *)
Definition addSemantic (m : list (string * SearchResult)) (result : SearchResult)
  : list (string * SearchResult) :=
  match regulationId result with
  | Some rid => if JS.truthy rid then mapSet rid result m else m
  | None => m
  end.

(** The entry built for a keyword match *)
Definition keywordEntry (regulation : Regulation) : SearchResult :=
  {| id := reg_id regulation;
     regulationId := Some (reg_id regulation);
     title := reg_title regulation;
     content := orElse (reg_summary regulation) "";
     summary := reg_summary regulation;
     jurisdiction := reg_jurisdiction regulation;
     category := reg_category regulation;
     priority := reg_priority regulation;
     similarity := 1 # 2;
     url := source_url regulation;
     effectiveDate := effective_date regulation |}.

Definition addKeyword (m : list (string * SearchResult)) (regulation : Regulation)
  : list (string * SearchResult) :=
  if mapHas (reg_id regulation) m then m
  else mapSet (reg_id regulation) (keywordEntry regulation) m.

Definition merge (semanticResults : list SearchResult)
    (keywordResults : option (list Regulation)) : list (string * SearchResult) :=
  let mergedResults := fold_left addSemantic semanticResults [] in
  match keywordResults with
  | Some rows => fold_left addKeyword rows mergedResults
  | None => mergedResults
  end.

(** [(a, b) => b.similarity - a.similarity] is positive: [b] goes first. *)
Definition swaps (a b : SearchResult) : bool :=
  negb (Qle_bool (similarity b) (similarity a)).

Fixpoint insertSorted (x : SearchResult) (l : list SearchResult) : list SearchResult :=
  match l with
  | [] => [x]
  | y :: l' => if swaps x y then y :: insertSorted x l' else x :: l
  end.

(** [Array.prototype.sort] with that comparator: the stable sort *)
Definition sortBySimilarity (l : list SearchResult) : list SearchResult :=
  fold_right insertSorted [] l.

(** [hybridSearch(query, filters, limit)] after its store queries:
    [documents] and [regsData] as in [search], [keywordResults] what the
    title search answers ([None] for no data). *)
Definition hybridSearch (documents : list Document) (regsData : option (list Regulation))
    (keywordResults : option (list Regulation)) (filters : SearchFilter) (limit : Z)
  : list SearchResult :=
  let semanticResults := search documents regsData filters limit in
  let mergedResults := merge semanticResults keywordResults in
  JS.slice (sortBySimilarity (map snd mergedResults)) 0 limit.

(** *** Definitions used to state the properties, and sample data *)

(** [result] is filed under the key [k]. *)
Definition isFor (k : string) (result : SearchResult) : bool :=
  match regulationId result with
  | Some rid => String.eqb rid k
  | None => false
  end.

(** The semantic result that ends up under the key [k]: the last one that
    carries it. *)
Definition lastSemantic (k : string) (semanticResults : list SearchResult)
  : option SearchResult :=
  if JS.truthy k then List.find (isFor k) (rev semanticResults) else None.

(** [r] is the last of [results] that belongs to the record [k]. *)
Definition isLast (k : string) (r : SearchResult) (results : list SearchResult) : Prop :=
  exists before after,
    results = before ++ r :: after
    /\ regulationId r = Some k
    /\ Forall (fun s => regulationId s <> Some k) after.

(** The keyword row that ends up under the key [k]: the first one with it. *)
Definition firstKeyword (k : string) (rows : list Regulation) : option Regulation :=
  List.find (fun regulation => String.eqb (reg_id regulation) k) rows.

(** [a] may stand before [b]: its similarity is not the smaller one. *)
Definition descending (a b : SearchResult) : Prop :=
  (similarity b <= similarity a)%Q.

(** Similarity above the default of a keyword match *)
Definition high (r : SearchResult) : bool := negb (Qle_bool (similarity r) (1 # 2)).

(** [filters = {}] *)
Definition noFilter : SearchFilter :=
  {| f_jurisdiction := None; f_category := None; f_priority := None;
     dateRange := None |}.

(** Two structured records *)
Definition regA : Regulation :=
  {| reg_id := "reg-a"; reg_title := "Capital requirements";
     reg_summary := Some "Banks hold capital."%string;
     reg_jurisdiction := Some "EU"%string; reg_category := Some "financial"%string;
     reg_priority := Some "high"%string; source_url := "https://eba.europa.eu/a";
     effective_date := None |}.

Definition regB : Regulation :=
  {| reg_id := "reg-b"; reg_title := "Capital buffers";
     reg_summary := None; reg_jurisdiction := Some "UK"%string;
     reg_category := Some "financial"%string; reg_priority := Some "low"%string;
     source_url := "https://www.fca.org.uk/b"; effective_date := None |}.

(** A chunk of the structured record [reg-a] *)
Definition docA : Document :=
  {| d_id := "chunk-1"; d_content := "Banks hold capital against risk.";
     d_similarity := 9 # 10;
     metadata := Some {| regulation_id := Some "reg-a"%string;
                         m_title := Some "Capital requirements"%string;
                         m_url := Some "https://eba.europa.eu/a"%string |} |}.

(** Another chunk of [reg-a], a weaker match *)
Definition docA' : Document :=
  {| d_id := "chunk-3"; d_content := "Capital is held in tiers.";
     d_similarity := 7 # 10;
     metadata := Some {| regulation_id := Some "reg-a"%string;
                         m_title := Some "Capital requirements"%string;
                         m_url := Some "https://eba.europa.eu/a"%string |} |}.

(** A chunk stored without a structured record, and the best match *)
Definition docU : Document :=
  {| d_id := "chunk-2"; d_content := "Capital buffers, consultation paper.";
     d_similarity := 99 # 100;
     metadata := Some {| regulation_id := None;
                         m_title := Some "Consultation"%string;
                         m_url := Some "https://www.fca.org.uk/c"%string |} |}.


(** What a list filter asks of a field of a result: nothing when the
    filter is absent or empty, else a non-empty value that is in the list *)
Definition passes (allowed : option (list string)) (value : option string) : Prop :=
  match allowed with
  | Some (v :: vs) => exists x, value = Some x /\ x <> ""%string /\ In x (v :: vs)
  | _ => True
  end.

(** What the date filter asks of the effective date of a result *)
Definition inRange (range : option (string * string)) (value : option string) : Prop :=
  match range with
  | Some (start, end_) =>
      exists d, value = Some d /\ d <> ""%string
                /\ String.leb start d = true /\ String.leb d end_ = true
  | None => True
  end.

(** Some filter of [filters] is in force. *)
Definition filtered (filters : SearchFilter) : bool :=
  match f_jurisdiction filters with Some (_ :: _) => true | _ => false end
  || match f_category filters with Some (_ :: _) => true | _ => false end
  || match f_priority filters with Some (_ :: _) => true | _ => false end
  || match dateRange filters with Some _ => true | None => false end.

(** *** [findSimilar]

    [found] tells whether the row of [documentId] was read (no [docError],
    and a row); [answer] is what [match_documents] answers: an error
    message, or rows, each with the [jurisdiction] of its metadata, which
    the record above does not hold. *)

Inductive SimilarError :=
| DocumentNotFound
| SimilarityFailed (message : string).

Definition similarResult (row : Document * option string) : SearchResult :=
  let doc := fst row in
  {| id := d_id doc;
     regulationId := None;
     title := orElse (metadata doc ≫= m_title) "Untitled";
     content := d_content doc;
     summary := None;
     jurisdiction := snd row;
     category := None;
     priority := None;
     similarity := d_similarity doc;
     url := orElse (metadata doc ≫= m_url) "";
     effectiveDate := None |}.

Definition findSimilar (documentId : string) (found : bool)
    (answer : string + list (Document * option string)) (limit : Z)
  : SimilarError + list SearchResult :=
  if negb found then inl DocumentNotFound
  else match answer with
       | inl message => inl (SimilarityFailed message)
       | inr documents =>
           inr (map similarResult
                  (JS.slice (List.filter
                               (fun row => negb (String.eqb (d_id (fst row)) documentId))
                               documents)
                            0 limit))
       end.

End Search.

(** ** document-processor.ts: [cleanHtmlContent] *)

Module Processor.

(** [/<[^>]+>/] matches at a [<] when the character after it is not [>]
    and a [>] follows; the match ends at the first [>]. *)
Definition tagAhead (rest : JS.str) : bool :=
  match rest with
  | c :: rest' => negb (Ascii.eqb c ">") && existsb (Ascii.eqb ">"%char) rest'
  | [] => false
  end.

(** [s.replace(/<[^>]+>/g, " ")]; [inTag] while the scan is inside a match *)
Fixpoint stripTags (inTag : bool) (s : JS.str) : JS.str :=
  match s with
  | [] => []
  | c :: rest =>
      if inTag then
        if Ascii.eqb c ">" then stripTags false rest else stripTags true rest
      else if Ascii.eqb c "<" && tagAhead rest then " "%char :: stripTags true rest
      else c :: stripTags false rest
  end.

Fixpoint isPrefix (pat s : JS.str) : bool :=
  match pat, s with
  | [], _ => true
  | p :: pat', c :: s' => Ascii.eqb p c && isPrefix pat' s'
  | _ :: _, [] => false
  end.

(** [s.replace(/pat/g, rep)] for a literal [pat] that is not empty; [skip]
    counts the characters of a match still to pass over *)
Fixpoint replaceAll (pat rep : JS.str) (skip : nat) (s : JS.str) : JS.str :=
  match s with
  | [] => []
  | c :: rest =>
      match skip with
      | S k => replaceAll pat rep k rest
      | O =>
          if isPrefix pat s then rep ++ replaceAll pat rep (length pat - 1) rest
          else c :: replaceAll pat rep 0 rest
      end
  end.

(** The six entity replacements, in the order of the source *)
Definition decodeEntities (s : JS.str) : JS.str :=
  let s := replaceAll (JS.of_string "&nbsp;") [" "%char] 0 s in
  let s := replaceAll (JS.of_string "&amp;") ["&"%char] 0 s in
  let s := replaceAll (JS.of_string "&lt;") ["<"%char] 0 s in
  let s := replaceAll (JS.of_string "&gt;") [">"%char] 0 s in
  let s := replaceAll (JS.of_string "&quot;") ["034"%char] 0 s in
  replaceAll (JS.of_string "&#39;") ["'"%char] 0 s.

(** [s.replace(/\s+/g, " ")]; [afterSpace] while the scan is inside a run
    of white space *)
Fixpoint collapse (afterSpace : bool) (s : JS.str) : JS.str :=
  match s with
  | [] => []
  | c :: rest =>
      if JS.is_space c then
        if afterSpace then collapse true rest else " "%char :: collapse true rest
      else c :: collapse false rest
  end.

Section WithRegExp.
(** The two replacements that remove the [script] and the [style]
    elements: regular expressions with a lookahead, left to the platform *)
Variable removeScripts removeStyles : JS.str -> JS.str.

Definition cleanHtmlContent (html : JS.str) : JS.str :=
  let cleaned := removeScripts html in
  let cleaned := removeStyles cleaned in
  let cleaned := stripTags false cleaned in
  let cleaned := decodeEntities cleaned in
  JS.trim (collapse false cleaned).

End WithRegExp.

(** *** Definitions used to state the properties *)

(** No two white-space characters in a row, and none but the space *)
Fixpoint singleSpaced (s : JS.str) : Prop :=
  match s with
  | [] => True
  | c :: rest =>
      (JS.is_space c = true ->
       c = " "%char /\ match rest with d :: _ => JS.is_space d = false | [] => True end)
      /\ singleSpaced rest
  end.

End Processor.

(** ** pipeline-orchestrator.ts: [runPipeline]

    The store and the two services are asked once per statement; what they
    answer is given with the run. *)

Module Pipeline.

Record PipelineOptions := {
  sourceId : string;
  url : string;
  autoEmbed : option bool;
  autoProcess : option bool
}.

Record PipelineResult := {
  scrapedContentId : string;
  regulationId : option string;
  documentIds : list string;
  status : Jobs.PipelineStatus;
  errors : list string
}.

(** How an [await] ends: with a value, or with a thrown value, which has a
    message when it is an [Error] *)
Inductive Await (A : Type) :=
| Returned (a : A)
| Thrown (message : option string).
Arguments Returned {A} a.
Arguments Thrown {A} message.

(** The [{ data, error }] of an insert followed by [.select().single()]:
    the [id] of the row, and the message of the error *)
Record Answer := { data : option string; error : option string }.

(** The row sent to the [documents] table for a chunk (the embedding and
    the scrape time are left out) *)
Record DocumentRow := {
  scraped_content_id : string;
  content : JS.str;
  chunk_index : Z;
  title : option string;
  row_url : string;
  source_id : string;
  regulation_id : option string
}.

(** What the outside world answers during one call of [runPipeline] *)
Record World := {
  scraping : Scraper.World;
  storeScraped : Await Answer;
  processDocument : Await unit;
  storeRegulation : Await Answer;
  generateEmbedding : Z -> JS.str -> Await unit;
  storeDocument : DocumentRow -> Await Answer;
  (** how [chunks.push] ends on an array that can take no more: a
      RangeError with this message, or [None] when the process dies for
      lack of memory *)
  overflow : option string
}.

(** What a run leaves: the result, the scraper of the orchestrator, and the
    rows sent to the [documents] table *)
Record Run := {
  result : PipelineResult;
  scraper : Scraper.EthicalScraper;
  sent : list DocumentRow
}.

(** The scraper the constructor makes *)
Definition create : Scraper.EthicalScraper :=
  Scraper.create None (Some true)
    {| RateLimiter.p_requestsPerMinute := Some 30;
       RateLimiter.p_minDelay := Some 1000%Q;
       RateLimiter.p_maxDelay := Some 3000%Q |}.

(** [`${i}`] for an index *)
Definition decimal (i : Z) : string :=
  NilEmpty.string_of_uint (N.to_uint (Z.to_N i)).

(** [x || undefined] on an identifier *)
Definition orUndefined (x : option string) : option string :=
  match x with
  | Some s => if JS.truthy s then Some s else None
  | None => None
  end.

(** The outer [catch]: both places that throw into it are reached before
    anything is stored, so the identifiers and the lists are as they were
    initialised. *)
Definition caught (message : option string) : PipelineResult :=
  {| scrapedContentId := ""; regulationId := None; documentIds := [];
     status := Jobs.pipelineFailed;
     errors := [] ++ [default "Pipeline failed"%string message] |}.

(** The [return] at the end of the [try] block *)
Definition finish (scrapedContentId : string) (regulationId : option string)
    (documentIds : list string) (errors : list string) : PipelineResult :=
  {| scrapedContentId := if JS.truthy scrapedContentId then scrapedContentId else "";
     regulationId := orUndefined regulationId;
     documentIds := documentIds;
     status := match errors with
               | [] => Jobs.success
               | _ => if JS.truthy scrapedContentId then Jobs.partial
                      else Jobs.pipelineFailed
               end;
     errors := errors |}.

(** The chunks the loop of step 4 has gone through *)
Record Embedding := {
  ids : list string;
  failures : list string;
  rows : list DocumentRow
}.

Section WithPlatform.
Variable parseURL : URL.parser.
Variable extractMetadata : string -> string -> Scraper.Metadata.
Variable removeScripts removeStyles : JS.str -> JS.str.
(** The message of the error a rejected [scrape] carries *)
Variable describe : Scraper.ScrapeError -> string.
(** The message of the [TypeError] for reading [id] of [null] *)
Variable typeErrorMessage : string.

(** Step 3: the identifier of the regulation stored, and the errors pushed *)
Definition processing (w : World) : option string * list string :=
  match processDocument w with
  | Thrown message =>
      (None, ["Processing failed: " ++ default "Unknown error" message])%string
  | Returned _ =>
      match storeRegulation w with
      | Thrown message =>
          (None, ["Processing failed: " ++ default "Unknown error" message])%string
      | Returned answer =>
          match error answer with
          | Some message => (None, ["Processing error: " ++ message])%string
          | None =>
              match data answer with
              | Some regulationId => (Some regulationId, [])
              | None => (None, ["Processing failed: " ++ typeErrorMessage])%string
              end
          end
      end
  end.

(** One turn of the loop of step 4 *)
Definition embedChunk (w : World) (row : DocumentRow) (acc : Embedding) : Embedding :=
  let i := decimal (chunk_index row) in
  let failed message :=
    {| ids := ids acc; failures := failures acc ++ [message]; rows := rows acc |} in
  let failedSent message :=
    {| ids := ids acc; failures := failures acc ++ [message];
       rows := rows acc ++ [row] |} in
  match generateEmbedding w (chunk_index row) (content row) with
  | Thrown _ => failed ("Chunk " ++ i ++ " failed")%string
  | Returned _ =>
      match storeDocument w row with
      | Thrown _ => failedSent ("Chunk " ++ i ++ " failed")%string
      | Returned answer =>
          match error answer with
          | Some message =>
              failedSent ("Embedding chunk " ++ i ++ " failed: " ++ message)%string
          | None =>
              match data answer with
              | Some documentId =>
                  {| ids := ids acc ++ [documentId]; failures := failures acc;
                     rows := rows acc ++ [row] |}
              | None => failedSent ("Chunk " ++ i ++ " failed")%string
              end
          end
      end
  end.

Fixpoint embedAll (w : World) (row : Z -> JS.str -> DocumentRow) (i : Z)
    (chunks : list JS.str) (acc : Embedding) : Embedding :=
  match chunks with
  | [] => acc
  | chunk :: rest => embedAll w row (i + 1) rest (embedChunk w (row i chunk) acc)
  end.

(** [runPipeline(options)].  The loop of [chunkText] pushes one chunk per
    iteration; [fuel] is the number of chunks the array can take, and when
    the loop is still running after them the next push fails, as [overflow]
    tells: the RangeError goes to the [catch] of step 4, and the result is
    [None] when the process dies instead. *)
Definition runPipeline (fuel : nat) (this : Scraper.EthicalScraper) (w : World)
    (options : PipelineOptions) : option Run :=
  match Scraper.scrape parseURL extractMetadata this (scraping w) (url options) with
  | (Scraper.Rejected e, this') =>
      Some {| result := caught (Some (describe e)); scraper := this'; sent := [] |}
  | (Scraper.Fulfilled scrapeResult, this') =>
      let stop message := Some {| result := caught message; scraper := this'; sent := [] |} in
      match storeScraped w with
      | Thrown message => stop message
      | Returned answer =>
          match error answer, data answer with
          | Some message, _ =>
              stop (Some ("Failed to store scraped content: " ++ message)%string)
          | None, None =>
              stop (Some "Failed to store scraped content: undefined"%string)
          | None, Some scrapedContentId =>
              let '(regulationId, errors) :=
                if default true (autoProcess options) then processing w
                else (None, []) in
              if default true (autoEmbed options) then
                let cleanContent :=
                  Processor.cleanHtmlContent removeScripts removeStyles
                    (JS.of_string (Scraper.r_content scrapeResult)) in
                match Embeddings.chunkText fuel cleanContent 1000 200 with
                | Some chunks =>
                    let row i chunk :=
                      {| scraped_content_id := scrapedContentId; content := chunk;
                         chunk_index := i;
                         title := Scraper.title (Scraper.r_metadata scrapeResult);
                         row_url := Scraper.r_url scrapeResult;
                         source_id := sourceId options;
                         regulation_id := regulationId |} in
                    let embedded :=
                      embedAll w row 0 chunks {| ids := []; failures := []; rows := [] |} in
                    Some {| result := finish scrapedContentId regulationId (ids embedded)
                                        (errors ++ failures embedded);
                            scraper := this'; sent := rows embedded |}
                | None =>
                    message ← overflow w;
                    Some {| result := finish scrapedContentId regulationId []
                                        (errors ++ ["Embedding failed: " ++ message]%string);
                            scraper := this'; sent := [] |}
                end
              else
                Some {| result := finish scrapedContentId regulationId [] errors;
                        scraper := this'; sent := [] |}
          end
      end
  end.

End WithPlatform.

(** The result as [executeJob] reads it *)
Definition forJob (r : PipelineResult) : Jobs.PipelineResult :=
  {| Jobs.p_status := status r; Jobs.errors := errors r |}.

(** *** Definitions used to state the properties, and sample data *)

(** The status a result carries, against its errors and its identifier *)
Definition consistent (r : PipelineResult) : Prop :=
  match status r with
  | Jobs.success => errors r = []
  | Jobs.partial => errors r <> [] /\ scrapedContentId r <> ""%string
  | Jobs.pipelineFailed => errors r <> [] /\ scrapedContentId r = ""%string
  end.

(** A store and services that answer every call: the page is stored as
    [content-1], the regulation as [reg-1], each chunk as [doc] *)
Definition working (page : string) : World :=
  {| scraping := Scraper.serving page;
     storeScraped := Returned {| data := Some "content-1"%string; error := None |};
     processDocument := Returned tt;
     storeRegulation := Returned {| data := Some "reg-1"%string; error := None |};
     generateEmbedding := fun _ _ => Returned tt;
     storeDocument := fun _ => Returned {| data := Some "doc"%string; error := None |};
     overflow := Some "Invalid array length"%string |}.

(** The same, with a model that fails and a [documents] table that refuses
    every row *)
Definition degraded (page : string) : World :=
  {| scraping := Scraper.serving page;
     storeScraped := Returned {| data := Some "content-1"%string; error := None |};
     processDocument := Thrown (Some "model unavailable"%string);
     storeRegulation := Returned {| data := Some "reg-1"%string; error := None |};
     generateEmbedding := fun _ _ => Returned tt;
     storeDocument := fun _ => Returned {| data := None;
                                           error := Some "permission denied"%string |};
     overflow := Some "Invalid array length"%string |}.

Definition message (e : Scraper.ScrapeError) : string := "scrape failed".

Definition options : PipelineOptions :=
  {| sourceId := "sec"; url := "https://www.sec.gov/rules";
     autoEmbed := None; autoProcess := None |}.

End Pipeline.

(** * Properties *)

(** ** JavaScript strings and arrays *)

Module JSFacts.

(** *** Slices and [lastIndexOf] *)

Lemma slice_inside {A} (l : list A) (a b : Z) :
  0 <= a <= b -> b <= Z.of_nat (length l) ->
  JS.slice l a b = firstn (Z.to_nat (b - a)) (skipn (Z.to_nat a) l).
Proof.
  intros Ha Hb. unfold JS.slice, JS.slice_index.
  destruct (a <? 0) eqn:E1; [lia|]. destruct (b <? 0) eqn:E2; [lia|].
  rewrite !Z.min_l by lia. reflexivity.
Qed.

Lemma slice_all {A} (l : list A) : JS.slice l 0 (Z.of_nat (length l)) = l.
Proof.
  rewrite slice_inside by lia. cbn [Z.to_nat skipn].
  rewrite Z.sub_0_r, Nat2Z.id. apply firstn_all.
Qed.

Lemma slice_app {A} (l : list A) (a b c : Z) :
  0 <= a <= b -> b <= c -> c <= Z.of_nat (length l) ->
  JS.slice l a b ++ JS.slice l b c = JS.slice l a c.
Proof.
  intros Ha Hb Hc. rewrite !slice_inside by lia.
  replace (Z.to_nat b) with (Z.to_nat (b - a) + Z.to_nat a)%nat by lia.
  rewrite <- skipn_skipn.
  replace (Z.to_nat (c - a)) with (Z.to_nat (b - a) + Z.to_nat (c - b))%nat by lia.
  apply take_take_drop.
Qed.

Lemma slice_length {A} (l : list A) (a b : Z) :
  0 <= a -> 0 <= b ->
  Z.of_nat (length (JS.slice l a b)) <= Z.max 0 (b - a).
Proof.
  intros Ha Hb. unfold JS.slice, JS.slice_index.
  destruct (a <? 0) eqn:E1; [lia|]. destruct (b <? 0) eqn:E2; [lia|].
  rewrite length_firstn. lia.
Qed.

Lemma lastIndexOf_from_range i c s :
  let r := JS.lastIndexOf_from i c s in
  r = -1 \/ (i <= r < i + Z.of_nat (length s)).
Proof.
  revert i. induction s as [|x s IH]; intros i; cbn; [left; reflexivity|].
  specialize (IH (i + 1)). cbn in IH.
  destruct (0 <=? JS.lastIndexOf_from (i + 1) c s) eqn:E.
  - apply Z.leb_le in E. right. lia.
  - destruct (Ascii.eqb x c); [right; lia | left; reflexivity].
Qed.

Lemma lastIndexOf_lt c s : JS.lastIndexOf s c < Z.of_nat (length s).
Proof.
  unfold JS.lastIndexOf. pose proof (lastIndexOf_from_range 0 c s) as H.
  cbn in H. lia.
Qed.

(** *** Prefixes *)

Lemma In_firstn {A} n (l : list A) x : In x (firstn n l) -> In x l.
Proof.
  intros H. rewrite <- (firstn_skipn n l). apply in_or_app. left. exact H.
Qed.

Lemma In_skipn {A} n (l : list A) x : In x (skipn n l) -> In x l.
Proof.
  intros H. rewrite <- (firstn_skipn n l). apply in_or_app. right. exact H.
Qed.

Lemma slice_In {A} (l : list A) a b x : In x (JS.slice l a b) -> In x l.
Proof. unfold JS.slice. intros H. eapply In_skipn, In_firstn, H. Qed.

Lemma slice_prefix {A} (l : list A) limit :
  0 <= limit -> JS.slice l 0 limit = firstn (Z.to_nat limit) l.
Proof.
  intros H. unfold JS.slice, JS.slice_index. cbn [Z.ltb Z.compare].
  destruct (limit <? 0) eqn:E; [lia|].
  rewrite (Z.min_l 0) by lia. change (Z.to_nat 0) with 0%nat. cbn [skipn].
  rewrite Z.sub_0_r.
  destruct (Z.le_gt_cases limit (Z.of_nat (length l))) as [Hle | Hgt].
  - rewrite Z.min_l by lia. reflexivity.
  - rewrite Z.min_r by lia. rewrite Nat2Z.id.
    rewrite firstn_all, firstn_all2 by lia. reflexivity.
Qed.

(** *** Trimming *)

Lemma trimStart_head s :
  match JS.trimStart s with c :: _ => JS.is_space c = false | [] => True end.
Proof.
  induction s as [|c s IH]; cbn; [exact I|].
  destruct (JS.is_space c) eqn:E; [exact IH | exact E].
Qed.

Lemma trimStart_fixed s :
  match s with c :: _ => JS.is_space c = false | [] => True end ->
  JS.trimStart s = s.
Proof. destruct s as [|c s]; cbn; [reflexivity|]. intros ->. reflexivity. Qed.

Lemma trimStart_suffix s : exists ws, s = ws ++ JS.trimStart s.
Proof.
  induction s as [|c s [ws IH]]; cbn; [exists []; reflexivity|].
  destruct (JS.is_space c).
  - exists (c :: ws). cbn. rewrite <- IH. reflexivity.
  - exists []. reflexivity.
Qed.

Lemma trimEnd_prefix s : exists ws, s = JS.trimEnd s ++ ws.
Proof.
  unfold JS.trimEnd. destruct (trimStart_suffix (rev s)) as [ws H].
  exists (rev ws). rewrite <- rev_app_distr, <- H, rev_involutive. reflexivity.
Qed.

Lemma trim_idempotent s : JS.trim (JS.trim s) = JS.trim s.
Proof.
  unfold JS.trim. set (t := JS.trimStart s).
  assert (Hs : JS.trimStart (JS.trimEnd t) = JS.trimEnd t).
  { apply trimStart_fixed. pose proof (trimStart_head s) as Hh. fold t in Hh.
    destruct (trimEnd_prefix t) as [ws Hws].
    destruct (JS.trimEnd t) as [|c u]; [exact I|].
    rewrite Hws in Hh. exact Hh. }
  rewrite Hs. unfold JS.trimEnd. rewrite rev_involutive. f_equal.
  apply trimStart_fixed, trimStart_head.
Qed.

End JSFacts.

(** ** The regular expressions built by [matchesPattern] *)

Module RegexFacts.
Import Regex.

Lemma match_here_star b r bos s :
  match_here (Star b :: r) bos s =
  match s with
  | x :: s' => (single b x && match_here (Star b :: r) false s') || match_here r bos s
  | [] => match_here r bos s
  end.
Proof. destruct s; reflexivity. Qed.

Lemma tokens_one c rest :
  tokens (Robots.replaceDollar (Robots.replaceStar (Robots.escapeSpecial [c])) ++ rest)
  = app (tokensOf c) <$> tokens rest.
Proof.
  destruct c as [[] [] [] [] [] [] [] []];
    cbn; destruct (tokens rest); reflexivity.
Qed.

Lemma regexPattern_cons c p :
  Robots.replaceDollar (Robots.replaceStar (Robots.escapeSpecial (c :: p)))
  = Robots.replaceDollar (Robots.replaceStar (Robots.escapeSpecial [c]))
    ++ Robots.replaceDollar (Robots.replaceStar (Robots.escapeSpecial p)).
Proof.
  unfold Robots.replaceDollar, Robots.replaceStar, Robots.escapeSpecial.
  change (c :: p) with ([c] ++ p).
  rewrite !flat_map_app. reflexivity.
Qed.

Lemma tokens_regexPattern p :
  tokens (Robots.replaceDollar (Robots.replaceStar (Robots.escapeSpecial p)))
  = Some (flat_map tokensOf p).
Proof.
  induction p as [|c p IH]; [reflexivity|].
  rewrite regexPattern_cons, tokens_one, IH. reflexivity.
Qed.

Lemma tokensOf_head p :
  match flat_map tokensOf p with TStar :: _ => False | _ => True end.
Proof.
  destruct p as [|c p]; [exact I|]. cbn. unfold tokensOf.
  destruct (Ascii.eqb c "*"); exact I.
Qed.

Lemma atoms_cons t ts a :
  atom_of t = Some a ->
  match ts with TStar :: _ => False | _ => True end ->
  atoms (t :: ts) = cons a <$> atoms ts.
Proof.
  intros Ht Hts. cbn [atoms]. rewrite Ht. cbn [mbind option_bind].
  destruct ts as [|[] ts]; try contradiction; reflexivity.
Qed.

Lemma atoms_tokensOf p : atoms (flat_map tokensOf p) = Some (map atomOf p).
Proof.
  induction p as [|c p IH]; [reflexivity|].
  cbn [flat_map map]. unfold tokensOf at 1, atomOf at 1.
  destruct (Ascii.eqb c "*").
  - cbn. rewrite IH. reflexivity.
  - cbn [app]. rewrite (atoms_cons (TLit c) _ (Lit c) eq_refl (tokensOf_head p)), IH.
    reflexivity.
Qed.

Lemma tokens_bol rest : tokens ("^"%char :: rest) = cons TBol <$> tokens rest.
Proof. reflexivity. Qed.

(** [new RegExp] accepts every source [matchesPattern] builds. *)
Lemma compile_regexPattern pattern :
  compile ("^"%char :: Robots.regexPattern pattern)
  = Some (Bol :: map atomOf (JS.of_string pattern)).
Proof.
  unfold compile, Robots.regexPattern.
  rewrite tokens_bol, tokens_regexPattern.
  cbn [fmap option_fmap option_map mbind option_bind].
  rewrite (atoms_cons TBol _ Bol eq_refl (tokensOf_head _)), atoms_tokensOf.
  reflexivity.
Qed.

Lemma match_here_bol_later r s : match_here (Bol :: r) false s = false.
Proof. reflexivity. Qed.

Lemma test_from_bol_later r s : test_from false (Bol :: r) s = false.
Proof. induction s as [|x s IH]; cbn; [reflexivity | exact IH]. Qed.

(** With [^] in front, only the match at index 0 counts. *)
Lemma test_anchored r s : test (Bol :: r) s = match_here r true s.
Proof.
  unfold test. destruct s as [|x s]; cbn [test_from].
  - cbn. rewrite orb_false_r. reflexivity.
  - rewrite test_from_bol_later, orb_false_r. reflexivity.
Qed.

Lemma matchesPattern_eq path pattern :
  Robots.matchesPattern path pattern
  = Some (match_here (map atomOf (JS.of_string pattern)) true (JS.of_string path)).
Proof.
  unfold Robots.matchesPattern. rewrite compile_regexPattern.
  cbn [mbind option_bind]. rewrite test_anchored. reflexivity.
Qed.

(** The start-of-input flag is read by [^] only. *)
Lemma match_here_flag p b1 b2 s :
  match_here (map atomOf p) b1 s = match_here (map atomOf p) b2 s.
Proof.
  revert b1 b2 s. induction p as [|c p IH]; intros b1 b2 s; [reflexivity|].
  cbn [map]. unfold atomOf at 1 3. destruct (Ascii.eqb c "*").
  - revert b1 b2. induction s as [|x s IHs]; intros b1 b2;
      rewrite !match_here_star; [apply IH|].
    rewrite (IH b1 b2). reflexivity.
  - reflexivity.
Qed.

End RegexFacts.

(** ** robots-txt-parser.ts *)

Module RobotsFacts.
Import Robots RegexFacts.

Lemma anyMatches_existsb path patterns :
  anyMatches path patterns
  = Some (existsb (fun p => Regex.match_here (map Regex.atomOf (JS.of_string p)) true
                              (JS.of_string path)) patterns).
Proof.
  induction patterns as [|p ps IH]; [reflexivity|].
  cbn [anyMatches existsb]. rewrite matchesPattern_eq. cbn [mbind option_bind].
  destruct (Regex.match_here _ true _); [reflexivity | exact IH].
Qed.

Lemma anyMatches_Exists path patterns :
  anyMatches path patterns = Some true
  <-> Exists (fun p => matchesPattern path p = Some true) patterns.
Proof.
  rewrite anyMatches_existsb, Stdlib.Lists.List.Exists_exists. split.
  - intros [= H]. apply existsb_exists in H as (p & Hin & Hp).
    exists p. split; [exact Hin|]. rewrite matchesPattern_eq, Hp. reflexivity.
  - intros (p & Hin & Hp). f_equal. apply existsb_exists. exists p.
    split; [exact Hin|]. rewrite matchesPattern_eq in Hp. congruence.
Qed.

Lemma anyMatches_not_Exists path patterns :
  anyMatches path patterns = Some false
  <-> ~ Exists (fun p => matchesPattern path p = Some true) patterns.
Proof.
  rewrite <- anyMatches_Exists, anyMatches_existsb.
  destruct (existsb _ patterns); split; congruence.
Qed.

Lemma lower_char_idempotent c : JS.lower_char (JS.lower_char c) = JS.lower_char c.
Proof. destruct c as [[] [] [] [] [] [] [] []]; reflexivity. Qed.

Lemma lowered_toLowerCase value : lowered (JS.to_string (JS.toLowerCase value)).
Proof.
  unfold lowered, JS.of_string, JS.to_string.
  rewrite list_ascii_of_string_of_list_ascii. f_equal.
  unfold JS.toLowerCase. rewrite map_map. apply map_ext, lower_char_idempotent.
Qed.

Lemma parseLine_lowered st line :
  (forall k r, ps_rules st !! k = Some r -> lowered k) ->
  (forall ua, currentUserAgent st = Some ua -> lowered ua) ->
  (forall k r, ps_rules (parseLine st line) !! k = Some r -> lowered k)
  /\ (forall ua, currentUserAgent (parseLine st line) = Some ua -> lowered ua).
Proof.
  intros Hrules Hua. unfold parseLine.
  destruct (_ || _); [auto|]. destruct (_ || _); [auto|].
  destruct (String.eqb _ "user-agent").
  - cbn [ps_rules currentUserAgent]. split.
    + intros k r. unfold saveRule.
      destruct (currentUserAgent st) as [ua|] eqn:Eua; [|apply Hrules].
      destruct (currentRule st) as [rule|]; [|apply Hrules].
      destruct (JS.truthy ua); [|apply Hrules].
      rewrite lookup_insert. case_decide as Hk; [|apply Hrules].
      intros _. subst k. apply Hua. reflexivity.
    + intros ua [= <-]. apply lowered_toLowerCase.
  - destruct (currentRule st); cbn [ps_rules currentUserAgent]; auto.
Qed.

(** X6: the rule table is keyed by lower-cased agent names.  Every key
    under which [parse] files a group is its own lower-case form, so the
    lookup of [isAllowed], which lower-cases the agent it is asked about,
    can reach every group: none is hidden by the case of its name. *)
Lemma parse_keys_lowered content k r :
  rules (parse content) !! k = Some r -> lowered k.
Proof.
  unfold parse. cbn [rules].
  set (lines := map JS.trim _).
  assert (H : forall st,
             (forall k r, ps_rules st !! k = Some r -> lowered k) ->
             (forall ua, currentUserAgent st = Some ua -> lowered ua) ->
             forall k r, saveRule (fold_left parseLine lines st) !! k = Some r -> lowered k).
  { induction lines as [|line lines IH]; intros st Hrules Hua; cbn [fold_left].
    - intros k' r'. unfold saveRule.
      destruct (currentUserAgent st) as [ua|] eqn:Eua; [|apply Hrules].
      destruct (currentRule st) as [rule|]; [|apply Hrules].
      destruct (JS.truthy ua); [|apply Hrules].
      rewrite lookup_insert. case_decide as Hk; [|apply Hrules].
      intros _. subst k'. apply Hua. reflexivity.
    - destruct (parseLine_lowered st line Hrules Hua) as [H1 H2]. apply IH; assumption. }
  apply H; cbn; [intros k' r'; rewrite lookup_empty; discriminate | discriminate].
Qed.

Lemma parse_keys_lowered_witness : lowered "bot".
Proof.
  eapply (parse_keys_lowered twoGroups "bot"). vm_compute. reflexivity.
Defined.

(** The rule set [parse] leaves as the default is the wildcard's, when the
    document has one. *)
Lemma parse_defaultRule content :
  defaultRule (parse content)
  = match rules (parse content) !! "*"%string with
    | Some r => r
    | None => emptyRule "*"
    end.
Proof. unfold parse. cbn [defaultRule rules]. destruct (_ !! _); reflexivity. Qed.

(** C1: for every crawl-policy document, agent name and URL the platform can
    parse, [isAllowed] reads the rule set filed under the lower-cased agent
    name, or else the wildcard's (or else an empty one); it answers [true] as
    soon as the path matches one of the [allow] patterns, whatever the
    [disallow] patterns say; otherwise [false] when the path matches one of
    the [disallow] patterns; otherwise [true]. *)
Theorem isAllowed_precedence (parseURL : URL.parser)
    (content userAgent url : string) (u : URL.t) :
  parseURL url = Some u ->
  let this := parse content in
  let agent := JS.to_string (JS.toLowerCase (JS.of_string userAgent)) in
  let rule := match rules this !! agent with
              | Some r => r
              | None => match rules this !! "*"%string with
                        | Some r => r
                        | None => emptyRule "*"
                        end
              end in
  let matches p := matchesPattern (URL.pathname u) p = Some true in
  (Exists matches (allow rule) -> isAllowed parseURL this url userAgent = Some true)
  /\ (~ Exists matches (allow rule) -> Exists matches (disallow rule) ->
      isAllowed parseURL this url userAgent = Some false)
  /\ (~ Exists matches (allow rule) -> ~ Exists matches (disallow rule) ->
      isAllowed parseURL this url userAgent = Some true).
Proof.
  intros Hu this agent rule matches.
  assert (Hrule : default (defaultRule this) (rules this !! agent) = rule).
  { subst rule this. rewrite parse_defaultRule. destruct (_ !! agent); reflexivity. }
  unfold isAllowed. rewrite Hu. cbn [mbind option_bind].
  fold agent. rewrite Hrule.
  repeat split.
  - intros Ha. apply anyMatches_Exists in Ha. rewrite Ha. reflexivity.
  - intros Ha Hd. apply anyMatches_not_Exists in Ha. apply anyMatches_Exists in Hd.
    rewrite Ha. cbn. rewrite Hd. reflexivity.
  - intros Ha Hd. apply anyMatches_not_Exists in Ha, Hd.
    rewrite Ha. cbn. rewrite Hd. reflexivity.
Qed.

Lemma isAllowed_precedence_witness :
  isAllowed URL.simple (parse policy) "https://x.com/private/public/doc" "Bot"
  = Some true.
Proof.
  refine (proj1 (isAllowed_precedence URL.simple policy "Bot"
                   "https://x.com/private/public/doc"
                   {| URL.protocol := "https:"; URL.hostname := "x.com";
                      URL.pathname := "/private/public/doc" |} _) _).
  - vm_compute. reflexivity.
  - vm_compute. apply Exists_cons_hd. reflexivity.
Defined.

(** The scenario of the specification: the longer [Allow] wins over the
    [Disallow] it lies under, and the rest of [/private] stays closed. *)
Lemma isAllowed_scenario :
  isAllowed URL.simple (parse policy) "https://x.com/private/public/doc" "Bot" = Some true
  /\ isAllowed URL.simple (parse policy) "https://x.com/private/doc" "Bot" = Some false.
Proof. split; vm_compute; reflexivity. Qed.

(** C6: the pattern ["/foo$"] is meant to match the path ["/foo"] and
    nothing longer; the expression [matchesPattern] builds has the dollar
    sign escaped, so it asks for a dollar sign in the path instead. *)
Theorem matchesPattern_dollar_not_anchor :
  matchesPattern "/foo" "/foo$" = Some false
  /\ matchesPattern_documented "/foo" "/foo$" = true
  /\ matchesPattern "/foo$bar" "/foo$" = Some true
  /\ matchesPattern_documented "/foo$bar" "/foo$" = false
  /\ JS.to_string (regexPattern "/foo$") = "/foo\$"%string.
Proof. repeat split; vm_compute; reflexivity. Qed.

(** X27: apart from the dollar sign the expression is the documented one.
    On a pattern without [$] and a path without line terminators (a URL
    path never has one) [matchesPattern] is the documented prefix match,
    with [*] for any run of characters and every other character for
    itself: no character of a pattern is read as regular-expression
    syntax. *)
Lemma matchesPattern_documented_agree path pattern :
  forallb (fun c => negb (Ascii.eqb c "$")) (JS.of_string pattern) = true ->
  forallb (fun c => negb (JS.is_line_terminator c)) (JS.of_string path) = true ->
  matchesPattern path pattern = Some (matchesPattern_documented path pattern).
Proof.
  rewrite matchesPattern_eq. unfold matchesPattern_documented.
  generalize (JS.of_string path) as s. generalize (JS.of_string pattern) as p.
  intros p s Hp Hs. f_equal. generalize true as bos. revert s Hs.
  induction p as [|c p IH]; intros s Hs bos; [reflexivity|].
  cbn [forallb] in Hp. apply andb_prop in Hp as [Hc Hp]. specialize (IH Hp).
  cbn [map documentedMatch]. unfold Regex.atomOf at 1.
  destruct (Ascii.eqb c "*") eqn:Hstar.
  - revert bos. induction s as [|x s IHs]; intros bos; rewrite match_here_star.
    + rewrite IH by reflexivity. cbn. rewrite orb_false_r. reflexivity.
    + cbn [forallb] in Hs. apply andb_prop in Hs as [Hx Hs].
      cbn [Regex.single]. rewrite Hx, (IHs Hs false), IH by (cbn; rewrite Hx, Hs; reflexivity).
      cbn. apply orb_comm.
  - apply negb_true_iff in Hc. rewrite Hc.
    destruct s as [|x s]; [reflexivity|].
    cbn [forallb] in Hs. apply andb_prop in Hs as [Hx Hs].
    cbn. rewrite IH by exact Hs. reflexivity.
Qed.

Lemma matchesPattern_documented_agree_witness :
  matchesPattern "/private/reports/2024" "/priv*/reports" = Some true.
Proof.
  apply (matchesPattern_documented_agree "/private/reports/2024" "/priv*/reports");
    reflexivity.
Defined.

(** *** Further properties of the parser *)

Lemma parse_contentLines content :
  parse content
  = let rs := saveRule (fold_left parseLine (contentLines content)
                          {| ps_rules := ∅; currentUserAgent := None;
                             currentRule := None |}) in
    {| rules := rs; defaultRule := default (emptyRule "*") (rs !! "*"%string) |}.
Proof. reflexivity. Qed.

Lemma parseLine_agent st line value :
  lineAgent line = Some value ->
  parseLine st line
  = {| ps_rules := saveRule st;
       currentUserAgent := Some (agentKey value);
       currentRule := Some (emptyRule (JS.to_string value)) |}.
Proof.
  unfold lineAgent, parseLine, agentKey.
  destruct (_ || _); [discriminate|]. destruct (_ || _); [discriminate|].
  destruct (String.eqb _ "user-agent"); [|discriminate].
  intros [= <-]. reflexivity.
Qed.

Lemma parseLine_other st line :
  lineAgent line = None ->
  parseLine st line
  = {| ps_rules := ps_rules st;
       currentUserAgent := currentUserAgent st;
       currentRule := (fun r => lineDirective r line) <$> currentRule st |}.
Proof.
  unfold lineAgent, parseLine, lineDirective. destruct st as [rs ua cur].
  cbn [ps_rules currentUserAgent currentRule].
  destruct (_ || _); [destruct cur; reflexivity|].
  destruct (_ || _); [destruct cur; reflexivity|].
  destruct (String.eqb _ "user-agent"); [discriminate|].
  intros _. destruct cur; reflexivity.
Qed.

Lemma agentKey_truthy line value :
  lineAgent line = Some value -> JS.truthy (agentKey value) = true.
Proof.
  unfold lineAgent. destruct (_ || _); [discriminate|].
  destruct (_ || _) eqn:E; [discriminate|]. apply orb_false_elim in E as [_ E].
  destruct (String.eqb _ _); [|discriminate]. intros [= <-].
  unfold agentKey. destruct (JS.trim _) as [|c v]; [discriminate|]. reflexivity.
Qed.

(** Lines that are not [User-agent] lines only touch the rule being built. *)
Lemma fold_directives body :
  Forall (fun line => lineAgent line = None) body ->
  forall st,
    fold_left parseLine body st
    = {| ps_rules := ps_rules st;
         currentUserAgent := currentUserAgent st;
         currentRule := (fun r => fold_left lineDirective body r) <$> currentRule st |}.
Proof.
  induction 1 as [|line body Hline _ IH]; intros st; cbn [fold_left].
  - destruct st as [rs ua [r|]]; reflexivity.
  - rewrite IH, (parseLine_other _ _ Hline). cbn [ps_rules currentUserAgent currentRule].
    destruct (currentRule st); reflexivity.
Qed.

(** Once a group is filed, later groups of other agents leave it alone. *)
Lemma fold_keeps_group rest key rule :
  Forall (fun line => forall value, lineAgent line = Some value -> agentKey value <> key) rest ->
  forall st,
    ps_rules st !! key = Some rule ->
    (forall ua, currentUserAgent st = Some ua -> ua <> key) ->
    saveRule (fold_left parseLine rest st) !! key = Some rule.
Proof.
  induction 1 as [|line rest Hline _ IH]; intros st Hrule Hua; cbn [fold_left].
  - unfold saveRule. destruct (currentUserAgent st) as [ua|] eqn:E; [|exact Hrule].
    destruct (currentRule st); [|exact Hrule]. destruct (JS.truthy ua); [|exact Hrule].
    rewrite lookup_insert_ne; [exact Hrule | apply Hua; reflexivity].
  - apply IH.
    + destruct (lineAgent line) as [value|] eqn:E.
      * rewrite (parseLine_agent _ _ _ E). cbn [ps_rules].
        unfold saveRule. destruct (currentUserAgent st) as [ua|] eqn:E'; [|exact Hrule].
        destruct (currentRule st); [|exact Hrule]. destruct (JS.truthy ua); [|exact Hrule].
        rewrite lookup_insert_ne; [exact Hrule | apply Hua; reflexivity].
      * rewrite (parseLine_other _ _ E). exact Hrule.
    + destruct (lineAgent line) as [value|] eqn:E.
      * rewrite (parseLine_agent _ _ _ E). cbn [currentUserAgent].
        intros ua [= <-]. apply Hline. reflexivity.
      * rewrite (parseLine_other _ _ E). exact Hua.
Qed.

(** X1: the rule set [parse] files for an agent is made of the directives
    between the last [User-agent] line naming it and the next [User-agent]
    line, and of nothing else: an earlier group of the same agent is
    replaced, not merged, and of several [User-agent] lines in a row only
    the last one gets the directives that follow. *)
Theorem parse_last_group (content : string) (before body after : list JS.str)
    (line value : JS.str) :
  contentLines content = before ++ line :: body ++ after ->
  lineAgent line = Some value ->
  Forall (fun l => lineAgent l = None) body ->
  match after with [] => True | next :: _ => lineAgent next <> None end ->
  Forall (fun l => forall v, lineAgent l = Some v -> agentKey v <> agentKey value) after ->
  rules (parse content) !! agentKey value
  = Some (fold_left lineDirective body (emptyRule (JS.to_string value))).
Proof.
  intros Hlines Hline Hbody Hnext Hafter.
  rewrite parse_contentLines. cbn [rules]. rewrite Hlines.
  rewrite fold_left_app. cbn [fold_left]. rewrite fold_left_app.
  rewrite (parseLine_agent _ _ _ Hline), (fold_directives _ Hbody).
  cbn [ps_rules currentUserAgent currentRule fmap option_fmap option_map].
  pose proof (agentKey_truthy _ _ Hline) as Htruthy.
  destruct after as [|next after].
  - cbn [fold_left]. unfold saveRule at 1. cbn [currentUserAgent currentRule ps_rules].
    rewrite Htruthy. apply lookup_insert_eq.
  - apply Forall_cons in Hafter as [Hn Hafter].
    destruct (lineAgent next) as [v|] eqn:E; [|contradiction].
    cbn [fold_left]. rewrite (parseLine_agent _ _ _ E).
    apply fold_keeps_group; [exact Hafter | |].
    + cbn [ps_rules]. unfold saveRule at 1.
      cbn [currentUserAgent currentRule ps_rules]. rewrite Htruthy.
      apply lookup_insert_eq.
    + cbn [currentUserAgent]. intros ua [= <-]. apply Hn. reflexivity.
Qed.

(** Two groups for the same agent, and an agent named just before another *)
Lemma parse_last_group_witness :
  rules (parse twoGroups) !! "bot"%string
  = Some {| userAgent := "Bot"; disallow := ["/b"%string]; allow := [];
            crawlDelay := None; sitemap := None |}.
Proof.
  refine (parse_last_group twoGroups
            (map JS.of_string ["User-agent: bot"; "Disallow: /a"])%string
            (map JS.of_string ["Disallow: /b"])%string
            (map JS.of_string ["User-agent: other"; "User-agent: *"; "Disallow: /"])%string
            (JS.of_string "User-agent: Bot") (JS.of_string "Bot") _ _ _ _ _).
  - vm_compute. reflexivity.
  - vm_compute. reflexivity.
  - repeat constructor.
  - vm_compute. discriminate.
  - repeat constructor; intros v; vm_compute; intros [= <-]; discriminate.
Defined.

(** X2: a policy without a [User-agent] line has no rule at all, whatever
    its [Disallow] lines say: the rule table is empty and every URL is
    allowed for every agent. *)
Theorem parse_without_agent_allows (parseURL : URL.parser)
    (content url userAgent : string) (u : URL.t) :
  Forall (fun l => lineAgent l = None) (contentLines content) ->
  parseURL url = Some u ->
  rules (parse content) = ∅
  /\ isAllowed parseURL (parse content) url userAgent = Some true.
Proof.
  intros Hlines Hu.
  assert (Hrules : rules (parse content) = ∅).
  { rewrite parse_contentLines. cbn [rules]. rewrite (fold_directives _ Hlines).
    reflexivity. }
  split; [exact Hrules|].
  unfold isAllowed. rewrite Hu. cbn [mbind option_bind].
  rewrite parse_defaultRule, Hrules, !lookup_empty. reflexivity.
Qed.

Lemma parse_without_agent_allows_witness :
  isAllowed URL.simple (parse "# keep out
Disallow: /") "https://x.com/private" "Bot" = Some true.
Proof.
  refine (proj2 (parse_without_agent_allows URL.simple _ "https://x.com/private" "Bot"
                   {| URL.protocol := "https:"; URL.hostname := "x.com";
                      URL.pathname := "/private" |} _ _)).
  - repeat constructor.
  - vm_compute. reflexivity.
Defined.

(** *** Further properties of the pattern match *)

Lemma of_string_append a b : JS.of_string (a ++ b) = JS.of_string a ++ JS.of_string b.
Proof.
  unfold JS.of_string. induction a as [|c a IH]; [reflexivity|].
  change (String c a +:+ b) with (String c (a +:+ b)).
  cbn [list_ascii_of_string app]. f_equal. exact IH.
Qed.

(** X3: in a pattern without [*] every character stands for itself,
    the characters that are special in a regular expression ([.], [?],
    [+], [(], [$], ...) included: the pattern matches exactly the paths it
    is a prefix of. *)
Theorem matchesPattern_literal_prefix (path pattern : string) :
  forallb (fun c => negb (Ascii.eqb c "*")) (JS.of_string pattern) = true ->
  matchesPattern path pattern = Some (String.prefix pattern path).
Proof.
  rewrite matchesPattern_eq. intros Hp. f_equal.
  generalize true as bos. revert path Hp.
  induction pattern as [|c p IH]; intros path Hp bos.
  - destruct path; reflexivity.
  - cbn [JS.of_string list_ascii_of_string forallb] in Hp.
    apply andb_prop in Hp as [Hc Hp]. apply negb_true_iff in Hc.
    cbn [JS.of_string list_ascii_of_string map]. unfold Regex.atomOf at 1. rewrite Hc.
    destruct path as [|x s]; [reflexivity|].
    cbn [Regex.match_here JS.of_string list_ascii_of_string Regex.single String.prefix].
    fold (JS.of_string p). fold (JS.of_string s). rewrite (IH s Hp false).
    destruct (ascii_dec c x) as [->|Hne].
    + rewrite Ascii.eqb_refl. reflexivity.
    + assert (Ascii.eqb x c = false) as -> by (apply Ascii.eqb_neq; congruence).
      reflexivity.
Qed.

Lemma matchesPattern_literal_prefix_witness :
  matchesPattern "/aXb" "/a.b" = Some false
  /\ matchesPattern "/a.b/c" "/a.b" = Some true.
Proof.
  split.
  - exact (matchesPattern_literal_prefix "/aXb" "/a.b" eq_refl).
  - exact (matchesPattern_literal_prefix "/a.b/c" "/a.b" eq_refl).
Defined.

Lemma match_here_extend p :
  forall b b' s t,
    Regex.match_here (map Regex.atomOf p) b s = true ->
    Regex.match_here (map Regex.atomOf p) b' (s ++ t) = true.
Proof.
  induction p as [|c p IH]; intros b b' s t H; [reflexivity|].
  cbn [map] in *. unfold Regex.atomOf at 1 in H. unfold Regex.atomOf at 1.
  destruct (Ascii.eqb c "*").
  - revert b b' H. induction s as [|x s IHs]; intros b b' H.
    + rewrite match_here_star in H. cbn [app].
      assert (Hrest : forall b0, Regex.match_here (map Regex.atomOf p) b0 t = true)
        by (intros b0; apply (IH b b0 [] t H)).
      clear -Hrest. revert b'. induction t as [|y t IHt]; intros b';
        rewrite match_here_star; [apply Hrest|].
      rewrite Hrest. apply orb_true_r.
    + rewrite match_here_star in H. cbn [app]. rewrite match_here_star.
      apply orb_prop in H as [H | H].
      * apply andb_prop in H as [Hx H]. rewrite Hx, (IHs false false H). reflexivity.
      * pose proof (IH b b' _ t H) as H'. cbn [app] in H'.
        rewrite H'. apply orb_true_r.
  - destruct s as [|x s]; [discriminate|]. cbn in H |- *.
    apply andb_prop in H as [Hx H]. rewrite Hx, (IH false false s t H). reflexivity.
Qed.

(** X4: a pattern that matches a path matches every path that continues it:
    what holds for a directory holds for everything beneath it. *)
Theorem matchesPattern_extends (path more pattern : string) :
  matchesPattern path pattern = Some true ->
  matchesPattern (path ++ more) pattern = Some true.
Proof.
  rewrite !matchesPattern_eq, of_string_append. intros [= H]. f_equal.
  apply (match_here_extend _ true true _ _ H).
Qed.

Lemma matchesPattern_extends_witness :
  matchesPattern ("/private/*.pdf" ++ "/and/more") "/private/*.pdf" = Some true.
Proof.
  apply (matchesPattern_extends "/private/*.pdf" "/and/more" "/private/*.pdf").
  vm_compute. reflexivity.
Defined.

Lemma match_here_trailing_star p :
  forall b s,
    Regex.match_here (map Regex.atomOf p ++ [Regex.Star Regex.Dot]) b s
    = Regex.match_here (map Regex.atomOf p) b s.
Proof.
  induction p as [|c p IH]; intros b s.
  - cbn [map app]. revert b. induction s as [|x s IHs]; intros b;
      rewrite match_here_star; cbn; [reflexivity | apply orb_true_r].
  - cbn [map app]. unfold Regex.atomOf at 1 3. destruct (Ascii.eqb c "*").
    + revert b. induction s as [|x s IHs]; intros b.
      * rewrite !match_here_star. apply IH.
      * rewrite (match_here_star Regex.Dot (map Regex.atomOf p ++ [Regex.Star Regex.Dot])
                   b (x :: s)),
          (match_here_star Regex.Dot (map Regex.atomOf p) b (x :: s)).
        rewrite IHs, IH. reflexivity.
    + destruct s as [|x s]; [reflexivity|]. cbn. rewrite IH. reflexivity.
Qed.

(** X5: a [*] at the end of a pattern changes nothing, the match being a
    prefix match already. *)
Theorem matchesPattern_trailing_star (path pattern : string) :
  matchesPattern path (pattern ++ "*") = matchesPattern path pattern.
Proof.
  rewrite !matchesPattern_eq, of_string_append. f_equal.
  cbn [JS.of_string list_ascii_of_string]. rewrite map_app. cbn [map].
  change (Regex.atomOf "*") with (Regex.Star Regex.Dot).
  apply match_here_trailing_star.
Qed.

End RobotsFacts.

(** ** rate-limiter.ts *)

Module RateLimiterFacts.
Import RateLimiter.

Lemma total_from records acc :
  fold_left (fun sum record => sum + count record) records acc
  = acc + total records.
Proof.
  unfold total. revert acc. induction records as [|r rs IH]; intros acc; cbn.
  - lia.
  - rewrite (IH (acc + count r)), (IH (0 + count r)). lia.
Qed.

Lemma recent_In now records r :
  In r (recent now records) <-> In r records /\ now - timestamp r < 60000.
Proof. unfold recent. rewrite filter_In, Z.ltb_lt. reflexivity. Qed.

Lemma recent_chronological now records :
  chronological records -> chronological (recent now records).
Proof.
  unfold chronological. induction 1 as [|r rs Hrs IH Hr]; cbn.
  - constructor.
  - destruct (now - timestamp r <? 60000); [|exact IH].
    constructor; [exact IH|]. rewrite Stdlib.Lists.List.Forall_forall in *.
    intros x Hx. apply Hr. apply recent_In in Hx. tauto.
Qed.







(** X28: the records stay in the order they were made.  When the records
    of a domain are in chronological order and none is later than the clock
    read after the sleep, they are in chronological order after
    [waitForSlot] too: so [recentRecords[0]] is the oldest request of the
    window, as the waiting time takes it to be, in every call, as long as
    the clock does not run backwards. *)
Lemma waitForSlot_chronological (this : RateLimiter.t) (w : Tick) (domain : string)
    delay this' :
  chronological (default [] (domainRecords this !! domain)) ->
  (forall r, In r (default [] (domainRecords this !! domain)) -> timestamp r <= after w) ->
  waitForSlot this w domain = Some (delay, this') ->
  chronological (default [] (domainRecords this' !! domain)).
Proof.
  intros Hchrono Hclock Hrun. unfold waitForSlot in Hrun.
  destruct (delayFor _ _ _) as [d|]; [|discriminate]. cbn in Hrun.
  injection Hrun as _ <-. cbn [domainRecords]. rewrite lookup_insert_eq. cbn [default].
  apply recent_chronological with (now := now w) in Hchrono.
  assert (Hle : forall r, In r (recent (now w) (default [] (domainRecords this !! domain)))
                          -> timestamp r <= after w).
  { intros r Hr. apply recent_In in Hr. apply Hclock. tauto. }
  revert Hchrono Hle. generalize (recent (now w) (default [] (domainRecords this !! domain))).
  intros l Hl. induction Hl as [|r l Hl IH Hr]; intros Hle; cbn.
  - repeat constructor.
  - constructor.
    + apply IH. intros x Hx. apply Hle. right. exact Hx.
    + rewrite Stdlib.Lists.List.Forall_forall in *. intros x Hx.
      apply in_app_or in Hx as [Hx | [<- | []]]; [auto|].
      cbn. apply Hle. left. reflexivity.
Qed.

Lemma waitForSlot_chronological_witness :
  exists this',
    waitForSlot twoPerMinute {| now := 1000; random := 1 # 2; after := 60100 |} "x.com"
    = Some (59100 # 1, this')
    /\ chronological (default [] (domainRecords this' !! "x.com"%string)).
Proof.
  assert (E : default [] (domainRecords twoPerMinute !! "x.com"%string)
              = [ {| timestamp := 100; count := 1 |}; {| timestamp := 300; count := 1 |} ])
    by (vm_compute; reflexivity).
  eexists. split; [vm_compute; reflexivity|].
  eapply (waitForSlot_chronological twoPerMinute
            {| now := 1000; random := 1 # 2; after := 60100 |} "x.com").
  - rewrite E. unfold chronological. repeat constructor; cbn; lia.
  - rewrite E. intros r [<- | [<- | []]]; cbn; lia.
  - vm_compute. reflexivity.
Defined.


(** *** The budget as an invariant *)

Lemma total_cons r records : total (r :: records) = count r + total records.
Proof. unfold total at 1. cbn [fold_left]. rewrite total_from. lia. Qed.

Lemma total_app a b : total (a ++ b) = total a + total b.
Proof.
  induction a as [|r a IH]; cbn [app]; [reflexivity|].
  rewrite !total_cons, IH. lia.
Qed.

Lemma single_total records : single records -> total records = Z.of_nat (length records).
Proof.
  induction 1 as [|r records Hr _ IH]; [reflexivity|].
  rewrite total_cons, Hr, IH. cbn [length]. lia.
Qed.

Lemma recent_single now records : single records -> single (recent now records).
Proof.
  unfold single, recent. rewrite !Stdlib.Lists.List.Forall_forall.
  intros H r Hr. apply filter_In in Hr as [Hr _]. auto.
Qed.

Lemma recent_total_le now records :
  single records -> total (recent now records) <= total records.
Proof.
  intros H. rewrite (single_total _ H), (single_total _ (recent_single now _ H)).
  unfold recent. pose proof (filter_length_le (fun r => now - timestamp r <? 60000) records).
  lia.
Qed.

(** X7: the budget holds across calls.  If every record of the domain
    stands for one request, the requests counted in the window at [now] are
    within a budget of at least one, and the sleep lasts at least as long
    as asked, then after [waitForSlot] the requests counted in the window
    ending at the new request, that request included, are within the budget
    again, and every record still stands for one request. *)
Theorem waitForSlot_keeps_budget (this this' : RateLimiter.t) (w : Tick)
    (domain : string) (delay : Q) :
  1 <= requestsPerMinute (config this) ->
  single (recordsOf this domain) ->
  getRequestCount this (now w) domain <= requestsPerMinute (config this) ->
  waitForSlot this w domain = Some (delay, this') ->
  (delay <= inject_Z (after w - now w))%Q ->
  getRequestCount this' (after w) domain <= requestsPerMinute (config this')
  /\ single (recordsOf this' domain).
Proof.
  unfold getRequestCount, recordsOf, waitForSlot, delayFor.
  intros Hrpm Hsingle Hcount Hrun Hslept.
  set (records := default [] (domainRecords this !! domain)) in *.
  pose proof (recent_single (now w) records Hsingle) as Hwin.
  set (window := recent (now w) records) in *.
  assert (Hnew : forall l, total (recent (after w) (l ++ [{| timestamp := after w; count := 1 |}]))
                           = total (recent (after w) l) + 1).
  { intros l. unfold recent. rewrite List.filter_app, total_app. cbn [List.filter timestamp].
    replace (after w - after w <? 60000) with true
      by (symmetry; apply Z.ltb_lt; lia).
    reflexivity. }
  destruct (requestsPerMinute (config this) <=? total window) eqn:Hbudget.
  - destruct window as [|oldest rest] eqn:Hw; [discriminate|].
    cbn in Hrun. injection Hrun as Hdelay <-. cbn [config domainRecords].
    rewrite lookup_insert_eq. cbn [default from_option]. unfold id. split.
    + change (oldest :: rest ++ ?x) with ((oldest :: rest) ++ x).
      rewrite Hnew. subst delay.
      assert (Hwait : 60000 - (now w - timestamp oldest) <= after w - now w).
      { rewrite Zle_Qle. eapply Qle_trans; [apply Q.le_max_l | exact Hslept]. }
      cbn [recent List.filter].
      replace (after w - timestamp oldest <? 60000) with false
        by (symmetry; apply Z.ltb_ge; lia).
      apply Forall_cons in Hwin as [Hone Hrest].
      pose proof (recent_total_le (after w) rest Hrest) as Hle.
      rewrite total_cons, Hone in Hcount. unfold recent in Hle. lia.
    + apply (proj2 (Forall_app _ (oldest :: rest) _)).
      split; [exact Hwin | repeat constructor].
  - apply Z.leb_gt in Hbudget.
    cbn in Hrun. injection Hrun as _ <-. cbn [config domainRecords].
    rewrite lookup_insert_eq. cbn [default from_option]. unfold id. split.
    + rewrite Hnew. pose proof (recent_total_le (after w) window Hwin). lia.
    + apply (proj2 (Forall_app _ window _)).
      split; [exact Hwin | repeat constructor].
Qed.

(** The third request of the scenario: it is recorded once the first has
    left the window, so two requests are counted, not three. *)
Lemma waitForSlot_keeps_budget_witness :
  exists this',
    waitForSlot twoPerMinute {| now := 1000; random := 1 # 2; after := 60100 |} "x.com"
    = Some (59100 # 1, this')
    /\ getRequestCount this' 60100 "x.com" <= 2.
Proof.
  eexists. split; [vm_compute; reflexivity|].
  refine (proj1 (waitForSlot_keeps_budget twoPerMinute _
                   {| now := 1000; random := 1 # 2; after := 60100 |} "x.com"
                   (59100 # 1) _ _ _ _ _)).
  - cbn. lia.
  - vm_compute. repeat constructor.
  - vm_compute. discriminate.
  - vm_compute. reflexivity.
  - vm_compute. discriminate.
Defined.

End RateLimiterFacts.

(** ** scraper.ts *)

Module ScraperFacts.
Import Scraper.

Section Logs.
Variable parseURL : URL.parser.
Variable extractMetadata : string -> string -> Metadata.

(** Every way [scrape] can end, with what it leaves in the log. *)
Lemma scrape_logs this w url :
  match fst (scrape parseURL extractMetadata this w url) with
  | Fulfilled r =>
      logs (snd (scrape parseURL extractMetadata this w url))
      = logs this ++ [entry w url true None (Some (r_statusCode r))]
  | Rejected (RobotsDisallowed _) =>
      logs (snd (scrape parseURL extractMetadata this w url))
      = logs this ++ [entry w url false (Some "Blocked by robots.txt"%string) None]
  | Rejected (HttpError code _) =>
      logs (snd (scrape parseURL extractMetadata this w url))
      = logs this ++ [entry w url true None (Some code)]
  | Rejected _ => logs (snd (scrape parseURL extractMetadata this w url)) = logs this
  end.
Proof.
  unfold Scraper.scrape. destruct (parseURL url) as [urlObj|]; [|reflexivity].
  destruct (if respectRobotsTxt (config this) then _ else _) as [[[]|] cache];
    try reflexivity.
  destruct (RateLimiter.waitForSlot _ _ _) as [[delay limiter]|]; [|reflexivity].
  unfold fetchPage. destruct (fetch w url) as [response|message]; [|reflexivity].
  destruct (ok response); cbn [negb]; [|reflexivity].
  destruct (body response); reflexivity.
Qed.

(** The log only ever grows, by at most one entry per call. *)
Lemma scrape_appends this w url :
  exists entries,
    logs (snd (scrape parseURL extractMetadata this w url)) = logs this ++ entries
    /\ (length entries <= 1)%nat.
Proof.
  pose proof (scrape_logs this w url) as H.
  destruct (fst (scrape parseURL extractMetadata this w url)) as [r|[]];
    first [ exists []; rewrite app_nil_r; split; [exact H | cbn; lia]
          | eexists [_]; split; [exact H | cbn; lia] ].
Qed.

(** A request that got no response is not logged. *)
Lemma scrape_network_failure this w url message :
  fst (scrape parseURL extractMetadata this w url) = Rejected (NetworkError message) ->
  logs (snd (scrape parseURL extractMetadata this w url)) = logs this.
Proof. intros H. pose proof (scrape_logs this w url) as L. rewrite H in L. exact L. Qed.

End Logs.

(** C5: the attempt to scrape a URL whose host cannot be reached ends with
    the network error, and the audit log is as empty afterwards as it was
    before: the attempt is dropped from the log. *)
Theorem scrape_fetch_failure_unlogged :
  let run := Scraper.scrape URL.simple noMetadata fresh unreachable
               "https://example.com/rules" in
  fst run = Rejected (NetworkError "fetch failed")
  /\ getLogs fresh = []
  /\ getLogs (snd run) = [].
Proof. vm_compute. repeat split. Qed.


(** *** Series of calls *)

Section Runs.
Variable parseURL : URL.parser.
Variable extractMetadata : string -> string -> Metadata.

Lemma scrape_config this w url :
  config (snd (scrape parseURL extractMetadata this w url)) = config this.
Proof.
  unfold Scraper.scrape. destruct (parseURL url) as [urlObj|]; [|reflexivity].
  destruct (if respectRobotsTxt (config this) then _ else _) as [[[]|] cache];
    try reflexivity.
  destruct (RateLimiter.waitForSlot _ _ _) as [[delay limiter]|]; [|reflexivity].
  unfold fetchPage. destruct (fetch w url) as [response|message]; [|reflexivity].
  destruct (ok response); cbn [negb]; [|reflexivity].
  destruct (body response); reflexivity.
Qed.

Lemma scrape_cache_of this w url :
  robotsTxtCache (snd (scrape parseURL extractMetadata this w url))
  = match parseURL url with
    | Some urlObj =>
        if respectRobotsTxt (config this)
        then snd (checkRobotsTxt parseURL this w url urlObj)
        else robotsTxtCache this
    | None => robotsTxtCache this
    end.
Proof.
  unfold Scraper.scrape. destruct (parseURL url) as [urlObj|]; [|reflexivity].
  destruct (respectRobotsTxt (config this)).
  - destruct (checkRobotsTxt parseURL this w url urlObj) as [[[]|] cache];
      try reflexivity.
    destruct (RateLimiter.waitForSlot _ _ _) as [[delay limiter]|]; [|reflexivity].
    unfold fetchPage. destruct (fetch w url) as [response|message]; [|reflexivity].
    destruct (ok response); cbn [negb]; [|reflexivity].
    destruct (body response); reflexivity.
  - destruct (RateLimiter.waitForSlot _ _ _) as [[delay limiter]|]; [|reflexivity].
    unfold fetchPage. destruct (fetch w url) as [response|message]; [|reflexivity].
    destruct (ok response); cbn [negb]; [|reflexivity].
    destruct (body response); reflexivity.
Qed.

Lemma checkRobotsTxt_keeps this w url urlObj domain parser :
  robotsTxtCache this !! domain = Some parser ->
  snd (checkRobotsTxt parseURL this w url urlObj) !! domain = Some parser.
Proof.
  intros H. unfold checkRobotsTxt.
  destruct (robotsTxtCache this !! URL.hostname urlObj) eqn:Hhit; [exact H|].
  destruct (fetch w _) as [response|]; [|exact H].
  destruct (ok response); [|exact H].
  destruct (body response); [|exact H].
  cbn [snd]. rewrite lookup_insert_ne; [exact H|].
  intros E. rewrite E in Hhit. congruence.
Qed.

Lemma scrape_cache_keeps this w url domain parser :
  robotsTxtCache this !! domain = Some parser ->
  robotsTxtCache (snd (scrape parseURL extractMetadata this w url)) !! domain = Some parser.
Proof.
  intros H. rewrite scrape_cache_of. destruct (parseURL url); [|exact H].
  destruct (respectRobotsTxt (config this)); [|exact H].
  apply checkRobotsTxt_keeps, H.
Qed.

Lemma scrapeAll_config this calls :
  config (scrapeAll parseURL extractMetadata this calls) = config this.
Proof.
  revert this. induction calls as [|call calls IH]; intros this; [reflexivity|].
  cbn [scrapeAll fold_left]. etransitivity; [apply IH | apply scrape_config].
Qed.

Lemma scrapeAll_cache_keeps this calls domain parser :
  robotsTxtCache this !! domain = Some parser ->
  robotsTxtCache (scrapeAll parseURL extractMetadata this calls) !! domain = Some parser.
Proof.
  revert this. induction calls as [|call calls IH]; intros this H; [exact H|].
  cbn [scrapeAll fold_left]. apply IH, scrape_cache_keeps, H.
Qed.

(** X8: a crawl policy is read once and never again.  Once the policy of a
    domain is in the cache, no series of calls of [scrape] replaces or
    removes it, whatever the site serves in the meantime; so a URL of that
    domain which the cached policy disallows is refused by every later call,
    without a request, and one it allows passes the check in every later
    call. *)
Theorem robots_policy_never_refreshed (this : EthicalScraper)
    (calls : list (World * string)) (w : World) (url : string) (urlObj : URL.t)
    (parser : Robots.RobotsTxtParser) :
  respectRobotsTxt (config this) = true ->
  parseURL url = Some urlObj ->
  robotsTxtCache this !! URL.hostname urlObj = Some parser ->
  let later := scrapeAll parseURL extractMetadata this calls in
  robotsTxtCache later !! URL.hostname urlObj = Some parser
  /\ fst (checkRobotsTxt parseURL later w url urlObj)
     = Robots.isAllowed parseURL parser url (userAgent (config this))
  /\ (Robots.isAllowed parseURL parser url (userAgent (config this)) = Some false ->
      fst (scrape parseURL extractMetadata later w url) = Rejected (RobotsDisallowed url)
      /\ rateLimiter (snd (scrape parseURL extractMetadata later w url))
         = rateLimiter later).
Proof.
  intros Hrespect Hurl Hcached later.
  pose proof (scrapeAll_cache_keeps this calls _ _ Hcached) as Hlater.
  pose proof (scrapeAll_config this calls) as Hconfig.
  fold later in Hlater, Hconfig.
  assert (Hcheck : checkRobotsTxt parseURL later w url urlObj
                   = (Robots.isAllowed parseURL parser url (userAgent (config this)),
                      robotsTxtCache later)).
  { unfold checkRobotsTxt. rewrite Hlater, Hconfig. reflexivity. }
  split; [exact Hlater|]. split; [rewrite Hcheck; reflexivity|].
  intros Hdenied. unfold Scraper.scrape.
  rewrite Hurl, Hconfig, Hrespect, Hcheck, Hdenied. split; reflexivity.
Qed.

(** X9: the audit log is append-only under [scrape].  After any series of
    calls the log is the log from before, unchanged and in the same place,
    followed by at most one new entry per call, each for a URL that was
    asked for: no call alters, reorders or drops an earlier entry. *)
Theorem audit_log_append_only (this : EthicalScraper) (calls : list (World * string)) :
  exists entries,
    getLogs (scrapeAll parseURL extractMetadata this calls) = getLogs this ++ entries
    /\ (length entries <= length calls)%nat
    /\ Forall (fun e => In (l_url e) (map snd calls)) entries.
Proof.
  unfold getLogs. revert this. induction calls as [|[w url] calls IH]; intros this.
  - exists []. rewrite app_nil_r. repeat split; [cbn; lia | constructor].
  - cbn [scrapeAll fold_left fst snd].
    destruct (IH (snd (scrape parseURL extractMetadata this w url)))
      as (entries & Hlogs & Hlen & Hurls).
    pose proof (scrape_logs parseURL extractMetadata this w url) as Hone.
    assert (Hhead : exists added,
               logs (snd (scrape parseURL extractMetadata this w url)) = logs this ++ added
               /\ (length added <= 1)%nat
               /\ Forall (fun e => l_url e = url) added).
    { destruct (fst (scrape parseURL extractMetadata this w url)) as [r|[]];
        first [ exists []; rewrite app_nil_r;
                split; [exact Hone | split; [cbn; lia | constructor]]
              | eexists [_]; split; [exact Hone |
                  split; [cbn; lia | repeat constructor]] ]. }
    destruct Hhead as (added & Hfirst & Hlen1 & Hurl1).
    exists (added ++ entries). fold (scrapeAll parseURL extractMetadata).
    unfold scrapeAll in Hlogs |- *. rewrite Hlogs, Hfirst, <- app_assoc.
    split; [reflexivity|]. split.
    + rewrite length_app. cbn [length]. lia.
    + apply Forall_app. split.
      * eapply Forall_impl; [exact Hurl1|]. intros e <-. left. reflexivity.
      * eapply Forall_impl; [exact Hurls|]. intros e He. right. exact He.
Qed.

(** X10: no page is requested against a known policy.  When the scraper
    respects crawl policies and a call went as far as requesting the page
    (it returned the page, or failed with an HTTP status, a network error
    or an unreadable body), then the policy held for the page's domain
    after the call, if there is one, allows the URL for the scraper's
    agent. *)
Theorem requested_only_if_allowed (this : EthicalScraper) (w : World) (url : string)
    (urlObj : URL.t) (parser : Robots.RobotsTxtParser) :
  respectRobotsTxt (config this) = true ->
  parseURL url = Some urlObj ->
  requested (fst (scrape parseURL extractMetadata this w url)) = true ->
  robotsTxtCache (snd (scrape parseURL extractMetadata this w url)) !! URL.hostname urlObj
  = Some parser ->
  Robots.isAllowed parseURL parser url (userAgent (config this)) = Some true.
Proof.
  intros Hrespect Hurl. rewrite scrape_cache_of. unfold Scraper.scrape.
  rewrite Hurl, Hrespect.
  assert (Hcheck : forall p,
            snd (checkRobotsTxt parseURL this w url urlObj) !! URL.hostname urlObj = Some p ->
            fst (checkRobotsTxt parseURL this w url urlObj)
            = Robots.isAllowed parseURL p url (userAgent (config this))).
  { intros p. unfold checkRobotsTxt.
    destruct (robotsTxtCache this !! URL.hostname urlObj) eqn:Hhit.
    - cbn [fst snd]. rewrite Hhit. intros [= ->]. reflexivity.
    - destruct (fetch w _) as [response|]; [|cbn [snd]; congruence].
      destruct (ok response); [|cbn [snd]; congruence].
      destruct (body response); [|cbn [snd]; congruence].
      cbn [fst snd]. rewrite lookup_insert_eq. intros [= ->]. reflexivity. }
  destruct (checkRobotsTxt parseURL this w url urlObj) as [verdict cache].
  cbn [fst snd] in Hcheck. intros Hreq Hcached. rewrite <- (Hcheck _ Hcached).
  destruct verdict as [[]|]; [reflexivity | discriminate Hreq | discriminate Hreq].
Qed.

End Runs.

(** The policy of the scenario, once read, blocks [/private] for good, even
    when the site later serves an empty policy. *)
Lemma robots_policy_never_refreshed_witness :
  let this := snd (Scraper.scrape URL.simple noMetadata fresh (serving Robots.policy)
                     "https://example.com/rules") in
  let later := scrapeAll URL.simple noMetadata this
                 [(serving "", "https://example.com/a"%string)] in
  fst (Scraper.scrape URL.simple noMetadata later (serving "")
         "https://example.com/private/x")
  = Rejected (RobotsDisallowed "https://example.com/private/x").
Proof.
  intros this later.
  refine (proj1 (proj2 (proj2
    (robots_policy_never_refreshed URL.simple noMetadata this
       [(serving "", "https://example.com/a"%string)] (serving "")
       "https://example.com/private/x"
       {| URL.protocol := "https:"; URL.hostname := "example.com";
          URL.pathname := "/private/x" |}
       (Robots.parse Robots.policy) _ _ _)) _)).
  - reflexivity.
  - vm_compute. reflexivity.
  - vm_compute. reflexivity.
  - vm_compute. reflexivity.
Defined.

(** A page of a site whose policy allows it *)
Lemma requested_only_if_allowed_witness :
  Robots.isAllowed URL.simple (Robots.parse Robots.policy) "https://example.com/rules"
    (userAgent (config fresh)) = Some true.
Proof.
  refine (requested_only_if_allowed URL.simple noMetadata fresh (serving Robots.policy)
            "https://example.com/rules"
            {| URL.protocol := "https:"; URL.hostname := "example.com";
               URL.pathname := "/rules" |}
            (Robots.parse Robots.policy) _ _ _ _).
  - reflexivity.
  - vm_compute. reflexivity.
  - vm_compute. reflexivity.
  - vm_compute. reflexivity.
Defined.

End ScraperFacts.

(** ** embeddings.ts *)

Module EmbeddingsFacts.
Import Embeddings JSFacts.

(** *** One iteration *)

Lemma iteration_cut text m o st :
  let '(from, to, next) := cut text m o (start st) in
  iteration text m o st
  = {| chunks := chunks st ++ [pushed text (from, to)]; start := next |}.
Proof.
  unfold cut, iteration, pushed.
  destruct ((0 <? _) && (_ <? JS.len text)); cbn [start chunks fst snd].
  - destruct (_ <=? _); reflexivity.
  - rewrite Z.leb_refl. reflexivity.
Qed.

(** Where an iteration cuts and where the next one starts *)
Lemma cut_facts text m o s :
  1 <= m -> 0 <= o -> 0 <= s < JS.len text ->
  let '(from, to, next) := cut text m o s in
  from = s /\ s < to <= JS.len text /\ next <= to /\ (next < to -> 0 < o).
Proof.
  intros Hm Ho Hs. unfold cut.
  set (end_ := Z.min (s + m) (JS.len text)).
  set (chunk := JS.slice text s end_).
  set (breakPoint := Z.max _ _).
  assert (Hlen : JS.len chunk <= end_ - s).
  { unfold chunk, JS.len. pose proof (slice_length text s end_) as H. lia. }
  assert (Hbp : breakPoint < JS.len chunk).
  { unfold breakPoint, JS.len.
    pose proof (lastIndexOf_lt "." chunk). pose proof (lastIndexOf_lt "010" chunk). lia. }
  destruct ((0 <? breakPoint) && (end_ <? JS.len text)) eqn:E.
  - apply andb_prop in E as [E1 E2]. apply Z.ltb_lt in E1, E2.
    destruct (end_ <=? s + breakPoint + 1 - o) eqn:E3;
      [apply Z.leb_le in E3 | apply Z.leb_gt in E3]; repeat split; lia.
  - repeat split; lia.
Qed.

(** *** The loop *)

Lemma while_chunks fuel text m o st :
  chunks <$> while fuel text m o st
  = (fun spans => chunks st ++ map (pushed text) spans)
    <$> cuts fuel text m o (start st).
Proof.
  revert st. induction fuel as [|fuel IH]; intros st; cbn [while cuts].
  - destruct (start st <? JS.len text); [reflexivity|].
    cbn. rewrite app_nil_r. reflexivity.
  - destruct (start st <? JS.len text).
    + pose proof (iteration_cut text m o st) as Hit.
      destruct (cut text m o (start st)) as [[from to] next].
      rewrite IH, Hit. cbn [start chunks].
      destruct (cuts fuel text m o next); cbn; [|reflexivity].
      rewrite <- app_assoc. reflexivity.
    + cbn. rewrite app_nil_r. reflexivity.
Qed.

Lemma chunkText_cuts fuel text m o :
  chunkText fuel text m o
  = (fun spans => List.filter (fun chunk => 0 <? JS.len chunk) (map (pushed text) spans))
    <$> cuts fuel text m o 0.
Proof.
  unfold chunkText.
  pose proof (while_chunks fuel text m o {| chunks := []; start := 0 |}) as H.
  cbn [start chunks app] in H.
  destruct (while fuel text m o _) as [st|], (cuts fuel text m o 0) as [spans|];
    cbn in *; congruence.
Qed.

(** An iteration that starts where the one before it started is repeated
    for ever. *)
Lemma while_stuck text m o s :
  s < JS.len text ->
  snd (cut text m o s) = s ->
  forall fuel cs, while fuel text m o {| chunks := cs; start := s |} = None.
Proof.
  intros Hs Hcut. induction fuel as [|fuel IH]; intros cs; cbn [while start].
  - apply Z.ltb_lt in Hs. rewrite Hs. reflexivity.
  - pose proof (iteration_cut text m o {| chunks := cs; start := s |}) as Hit.
    cbn [start chunks] in Hit.
    destruct (cut text m o s) as [[from to] next]. cbn in Hcut. subst next.
    rewrite Hit. apply Z.ltb_lt in Hs. rewrite Hs. apply IH.
Qed.

(** C9: with [maxChunkSize = 4] and [overlap = 2] (so [1 <= maxChunkSize]
    and [0 <= overlap < maxChunkSize]) the text ["a.bcd"] is cut after its
    full stop, at offset 2, and the next iteration starts at [2 - 2 = 0]
    again: the guard compares the new start with the window's end, not with
    the old start, so the loop never ends, whatever the number of
    iterations allowed.  With the default configuration (1000, 200) the same
    happens on a sentence of 200 characters followed by 900 characters
    without a full stop or a line break. *)
Theorem chunkText_never_returns :
  (1 <= 4 /\ 0 <= 2 < 4
   /\ cut (JS.of_string "a.bcd") 4 2 0 = (0, 2, 0)
   /\ forall fuel, chunkText fuel (JS.of_string "a.bcd") 4 2 = None)
  /\ (cut longSentence 1000 200 0 = (0, 200, 0)
      /\ forall fuel, chunkText fuel longSentence 1000 200 = None).
Proof.
  split.
  - split; [lia|]. split; [lia|]. split; [reflexivity|].
    intros fuel. unfold chunkText.
    rewrite (while_stuck (JS.of_string "a.bcd") 4 2 0); reflexivity.
  - split; [vm_compute; reflexivity|].
    intros fuel. unfold chunkText.
    rewrite (while_stuck longSentence 1000 200 0);
      [reflexivity | vm_compute; reflexivity | vm_compute; reflexivity].
Qed.

(** *** Coverage *)

Lemma cut_from text m o s : fst (fst (cut text m o s)) = s.
Proof. unfold cut. destruct (_ && _); reflexivity. Qed.

Lemma nonOverlap_covers text m o :
  1 <= m -> 0 <= o ->
  forall fuel s c spans,
    cuts fuel text m o s = Some spans ->
    Forall (fun span => 0 <= fst span) spans ->
    0 <= c -> s <= c <= JS.len text ->
    concat (nonOverlap text c spans) = JS.slice text c (JS.len text).
Proof.
  intros Hm Ho. induction fuel as [|fuel IH]; intros s c spans Hcuts Hpos Hc Hsc;
    cbn [cuts] in Hcuts; destruct (s <? JS.len text) eqn:E.
  - discriminate.
  - injection Hcuts as <-. apply Z.ltb_ge in E. cbn.
    replace c with (JS.len text) by lia.
    unfold JS.len. rewrite slice_inside by lia.
    rewrite Z.sub_diag. reflexivity.
  - apply Z.ltb_lt in E.
    pose proof (cut_from text m o s) as Hfrom.
    pose proof (cut_facts text m o s Hm Ho) as Hcut.
    destruct (cut text m o s) as [[from to] next]. cbn in Hfrom. subst from.
    destruct (cuts fuel text m o next) as [rest|] eqn:Hrest; [|discriminate].
    injection Hcuts as <-. apply Forall_cons in Hpos as [Hs Hrest_pos]. cbn in Hs.
    destruct Hcut as (_ & Hto & Hnext & _); [lia|].
    cbn [nonOverlap concat]. rewrite (Z.max_r s c) by lia.
    rewrite (IH next (Z.max to c) rest Hrest Hrest_pos) by lia.
    apply slice_app; unfold JS.len in *; lia.
  - injection Hcuts as <-. apply Z.ltb_ge in E. cbn.
    replace c with (JS.len text) by lia.
    unfold JS.len. rewrite slice_inside by lia.
    rewrite Z.sub_diag. reflexivity.
Qed.

(** C7, as the code has it: whenever [chunkText] returns, for a window of
    at least one character and an overlap that is not negative, the chunks
    it returns are the slices cut by the loop, trimmed, without the empty
    ones: no returned chunk is empty, and none changes when trimmed again.
    When no iteration started before offset 0, the slices cover the text:
    the parts of each slice beyond the slices before it, concatenated in
    order, are the original text.  (The white space trimmed off the ends of
    a slice is in the slice, not in the chunk.) *)
Theorem chunkText_covers (fuel : nat) (text : JS.str) (m o : Z) (result : list JS.str) :
  1 <= m -> 0 <= o ->
  chunkText fuel text m o = Some result ->
  exists spans,
    cuts fuel text m o 0 = Some spans
    /\ result = List.filter (fun chunk => 0 <? JS.len chunk) (map (pushed text) spans)
    /\ (forall chunk, In chunk result -> chunk <> [] /\ JS.trim chunk = chunk)
    /\ (Forall (fun span => 0 <= fst span) spans ->
        concat (nonOverlap text 0 spans) = text).
Proof.
  intros Hm Ho Hrun. rewrite chunkText_cuts in Hrun.
  destruct (cuts fuel text m o 0) as [spans|] eqn:Hcuts; [|discriminate].
  injection Hrun as <-. exists spans. split; [reflexivity|]. split; [reflexivity|].
  split.
  - intros chunk Hin. apply filter_In in Hin as [Hin Hlen].
    split.
    + intros ->. discriminate.
    + apply in_map_iff in Hin as (span & <- & _). apply trim_idempotent.
  - intros Hpos.
    rewrite (nonOverlap_covers text m o Hm Ho fuel 0 0 spans Hcuts Hpos)
      by (unfold JS.len; lia).
    apply slice_all.
Qed.

Lemma chunkText_covers_witness :
  concat (nonOverlap (JS.of_string "ab.cd.ef") 0 [(0, 3); (2, 6); (5, 8)])
  = JS.of_string "ab.cd.ef".
Proof.
  destruct (chunkText_covers 10 (JS.of_string "ab.cd.ef") 4 1
              (map JS.of_string ["ab."; ".cd."; ".ef"]%string))
    as (spans & Hspans & _ & _ & Hcover).
  - lia.
  - lia.
  - vm_compute. reflexivity.
  - vm_compute in Hspans. injection Hspans as <-. apply Hcover.
    repeat constructor; cbn; lia.
Defined.

(** Without overlap every iteration starts where the one before it cut, so
    the loop ends within as many iterations as the text has characters. *)
Lemma cuts_without_overlap text m :
  1 <= m ->
  forall fuel s, 0 <= s -> JS.len text - s <= Z.of_nat fuel ->
    exists spans, cuts fuel text m 0 s = Some spans
                  /\ Forall (fun span => 0 <= fst span) spans.
Proof.
  intros Hm. induction fuel as [|fuel IH]; intros s Hs Hfuel; cbn [cuts];
    destruct (s <? JS.len text) eqn:E;
    try (exists []; split; [reflexivity | constructor]).
  - apply Z.ltb_lt in E. lia.
  - apply Z.ltb_lt in E.
    pose proof (cut_from text m 0 s) as Hfrom.
    pose proof (cut_facts text m 0 s Hm (Z.le_refl 0) (conj Hs E)) as Hcut.
    destruct (cut text m 0 s) as [[from to] next]. cbn in Hfrom. subst from.
    destruct Hcut as (_ & Hto & Hnext & Hov).
    assert (next = to) by lia. subst next.
    destruct (IH to) as (rest & -> & Hrest); [lia | lia |].
    exists ((s, to) :: rest). split; [reflexivity|].
    constructor; [exact Hs | exact Hrest].
Qed.

(** X13: without overlap the loop ends.  For a chunk size of at least one
    and [overlap = 0], [chunkText] returns within as many iterations as the
    text has characters, and the slices it cut, put end to end, are the
    text. *)
Lemma chunkText_without_overlap text m :
  1 <= m ->
  exists result, chunkText (length text) text m 0 = Some result
                 /\ exists spans, cuts (length text) text m 0 0 = Some spans
                      /\ concat (nonOverlap text 0 spans) = text.
Proof.
  intros Hm.
  destruct (cuts_without_overlap text m Hm (length text) 0) as (spans & Hcuts & Hpos);
    [lia | unfold JS.len; lia |].
  pose proof (chunkText_cuts (length text) text m 0) as Hrun. rewrite Hcuts in Hrun.
  cbn [fmap option_fmap option_map] in Hrun.
  eexists. split; [exact Hrun|]. exists spans. split; [exact Hcuts|].
  rewrite (nonOverlap_covers text m 0 Hm (Z.le_refl 0) _ 0 0 spans Hcuts Hpos)
    by (unfold JS.len; lia).
  apply slice_all.
Qed.

Lemma chunkText_without_overlap_witness :
  exists result,
    chunkText 4 (JS.of_string "a. b") 3 0 = Some result
    /\ exists spans, cuts 4 (JS.of_string "a. b") 3 0 0 = Some spans
         /\ concat (nonOverlap (JS.of_string "a. b") 0 spans) = JS.of_string "a. b".
Proof. apply (chunkText_without_overlap (JS.of_string "a. b") 3). lia. Defined.

(** The chunks cannot be put back together: the text ["a. b"], cut with
    [maxChunkSize = 3] and no overlap, comes back as ["a."] and ["b"], and
    the blank between them is in neither. *)
Lemma chunkText_loses_blank :
  chunkText 10 (JS.of_string "a. b") 3 0 = Some (map JS.of_string ["a."; "b"]%string)
  /\ ~ reconstructs (JS.of_string "a. b") (map JS.of_string ["a."; "b"]%string).
Proof.
  split; [vm_compute; reflexivity|].
  intros (portions & Hparts & Hcat).
  assert (Hblank : In " "%char (concat portions)) by (rewrite Hcat; cbn; tauto).
  apply in_concat in Hblank as (part & Hpart & Hin).
  assert (Hsub : forall part, In part portions ->
            exists chunk, In chunk (map JS.of_string ["a."; "b"]%string)
                          /\ portionOf part chunk).
  { clear -Hparts. induction Hparts as [|p c ps cs Hpc _ IH]; intros part [].
    - subst. exists c. split; [left; reflexivity | exact Hpc].
    - destruct (IH part H) as (chunk & Hc & Hp). exists chunk.
      split; [right; exact Hc | exact Hp]. }
  destruct (Hsub part Hpart) as (chunk & Hchunk & before & after & Heq).
  assert (Hin' : In " "%char chunk).
  { rewrite Heq. apply in_or_app. right. apply in_or_app. left. exact Hin. }
  cbn in Hchunk. destruct Hchunk as [<- | [<- | []]]; cbn in Hin';
    repeat (destruct Hin' as [Hin' | Hin']; [discriminate|]); exact Hin'.
Qed.


(** *** What every chunk is *)

Lemma slice_length_le {A} (l : list A) (a b : Z) :
  a <= b -> Z.of_nat (length (JS.slice l a b)) <= b - a.
Proof.
  intros Hab. unfold JS.slice, JS.slice_index. rewrite length_firstn.
  destruct (a <? 0) eqn:Ea, (b <? 0) eqn:Eb; lia.
Qed.

Lemma portionOf_trans a b c : portionOf a b -> portionOf b c -> portionOf a c.
Proof.
  intros (p & q & ->) (p' & q' & ->). exists (p' ++ p), (q ++ q').
  rewrite <- !app_assoc. reflexivity.
Qed.

Lemma slice_portion text a b : portionOf (JS.slice text a b) text.
Proof.
  unfold JS.slice. set (i := Z.to_nat _). set (k := Z.to_nat _).
  exists (firstn k text), (skipn i (skipn k text)).
  rewrite (firstn_skipn i (skipn k text)). symmetry. apply firstn_skipn.
Qed.

Lemma trim_portion s : portionOf (JS.trim s) s.
Proof.
  unfold JS.trim. destruct (trimStart_suffix s) as [ws Hws].
  destruct (trimEnd_prefix (JS.trimStart s)) as [ws' Hws'].
  exists ws, ws'. rewrite <- Hws'. exact Hws.
Qed.

Lemma portionOf_length a b : portionOf a b -> (length a <= length b)%nat.
Proof. intros (p & q & ->). rewrite !length_app. lia. Qed.

(** The slice an iteration cuts is at most [maxChunkSize] long, wherever
    the iteration starts. *)
Lemma cut_span text m o s :
  0 <= m -> s < JS.len text ->
  let '(from, to, _) := cut text m o s in from <= to <= from + m.
Proof.
  intros Hm Hs. unfold cut.
  set (end_ := Z.min (s + m) (JS.len text)).
  set (chunk := JS.slice text s end_).
  set (breakPoint := Z.max _ _).
  assert (Hlen : JS.len chunk <= end_ - s).
  { unfold chunk, JS.len. apply slice_length_le. lia. }
  assert (Hbp : breakPoint < JS.len chunk).
  { unfold breakPoint, JS.len.
    pose proof (lastIndexOf_lt "." chunk). pose proof (lastIndexOf_lt "010" chunk). lia. }
  destruct ((0 <? breakPoint) && (end_ <? JS.len text)) eqn:E.
  - apply andb_prop in E as [E1 E2]. apply Z.ltb_lt in E1, E2. lia.
  - lia.
Qed.

Lemma cuts_spans text m o :
  0 <= m ->
  forall fuel s spans, cuts fuel text m o s = Some spans ->
    Forall (fun span => fst span <= snd span <= fst span + m) spans.
Proof.
  intros Hm. induction fuel as [|fuel IH]; intros s spans; cbn [cuts];
    destruct (s <? JS.len text) eqn:E;
    try (intros [= <-]; constructor); try discriminate.
  apply Z.ltb_lt in E. pose proof (cut_span text m o s Hm E) as Hspan.
  destruct (cut text m o s) as [[from to] next].
  destruct (cuts fuel text m o next) as [rest|] eqn:Hrest; [|discriminate].
  intros [= <-]. constructor; [exact Hspan | exact (IH _ _ Hrest)].
Qed.

(** X11: what [chunkText] returns.  For a chunk size of at least one and any
    overlap, every chunk of a result is a run of consecutive characters of
    the text, is not empty, is at most [maxChunkSize] long, and has no white
    space at either end. *)
Theorem chunkText_chunks (fuel : nat) (text : JS.str) (m o : Z) (result : list JS.str) :
  1 <= m ->
  chunkText fuel text m o = Some result ->
  Forall (fun chunk => portionOf chunk text
                       /\ 0 < JS.len chunk <= m
                       /\ JS.trim chunk = chunk) result.
Proof.
  intros Hm Hrun. rewrite chunkText_cuts in Hrun.
  destruct (cuts fuel text m o 0) as [spans|] eqn:Hcuts; [|discriminate].
  cbn in Hrun. injection Hrun as <-.
  pose proof (cuts_spans text m o ltac:(lia) fuel 0 spans Hcuts) as Hspans.
  rewrite Stdlib.Lists.List.Forall_forall in Hspans |- *.
  intros chunk Hin. apply filter_In in Hin as [Hin Hlen].
  apply in_map_iff in Hin as ([from to] & <- & Hspan).
  specialize (Hspans _ Hspan). cbn [fst snd] in Hspans.
  apply Z.ltb_lt in Hlen. unfold pushed in *. cbn [fst snd] in *.
  split; [|split; [split|]].
  - eapply portionOf_trans; [apply trim_portion | apply slice_portion].
  - exact Hlen.
  - pose proof (portionOf_length _ _ (trim_portion (JS.slice text from to))).
    pose proof (slice_length_le text from to ltac:(lia)). unfold JS.len. lia.
  - apply trim_idempotent.
Qed.

Lemma chunkText_chunks_witness :
  Forall (fun chunk => portionOf chunk (JS.of_string "a. b")
                       /\ 0 < JS.len chunk <= 3
                       /\ JS.trim chunk = chunk)
         (map JS.of_string ["a."; "b"]%string).
Proof.
  apply (chunkText_chunks 10 (JS.of_string "a. b") 3 0); [lia|].
  vm_compute. reflexivity.
Defined.

(** X12: a text that fits in one chunk.  When the text is not longer than
    [maxChunkSize], one iteration is enough, whatever the overlap, and the
    result is the whole text with the white space at its ends removed, or
    no chunk at all when nothing is left of it. *)
Theorem chunkText_short (fuel : nat) (text : JS.str) (m o : Z) :
  1 <= m -> JS.len text <= m ->
  chunkText (S fuel) text m o
  = Some (if 0 <? JS.len (JS.trim text) then [JS.trim text] else []).
Proof.
  intros Hm Hfit. unfold chunkText. cbn [while start].
  destruct (0 <? JS.len text) eqn:Hempty.
  - apply Z.ltb_lt in Hempty. unfold iteration. cbn [start chunks].
    rewrite Z.add_0_l, Z.min_r by lia. rewrite Z.ltb_irrefl, andb_false_r.
    cbn [start chunks app]. rewrite Z.leb_refl.
    unfold JS.len at 1 2. rewrite slice_all.
    destruct fuel; cbn [while start]; rewrite Z.ltb_irrefl; reflexivity.
  - apply Z.ltb_ge in Hempty. destruct text; [reflexivity|].
    unfold JS.len in Hempty. cbn [length] in Hempty. lia.
Qed.

Lemma chunkText_short_witness :
  chunkText 1 (JS.of_string " Art. 5 ") 1000 200 = Some [JS.of_string "Art. 5"].
Proof.
  apply (chunkText_short 0 (JS.of_string " Art. 5 ") 1000 200); [lia|].
  vm_compute. discriminate.
Defined.

End EmbeddingsFacts.

(** ** job-manager.ts *)

Module JobsFacts.
Import Jobs.

Lemma updateJobStatus_lookup store now k st msg :
  updateJobStatus store now k st msg !! k
  = (fun j =>
       {| id := id j; source_id := source_id j; url := url j;
          status := st; priority := priority j; scheduled_at := scheduled_at j;
          started_at := match st with running => Some now | _ => started_at j end;
          completed_at := match st with
                          | completed | failed => Some now
                          | _ => completed_at j
                          end;
          updated_at := Some now;
          error_message := match msg with
                           | Some m => if JS.truthy m then Some m else error_message j
                           | None => error_message j
                           end;
          retry_count := retry_count j; max_retries := max_retries j |})
    <$> store !! k.
Proof. unfold updateJobStatus. apply lookup_alter_eq. Qed.

Lemma updateJobStatus_other store now k st msg k' :
  k <> k' -> updateJobStatus store now k st msg !! k' = store !! k'.
Proof. intros H. unfold updateJobStatus. apply lookup_alter_ne. exact H. Qed.

Lemma backoff_nonneg n : 0 <= n -> backoff n = 60000 * 2 ^ n.
Proof. intros H. unfold backoff. apply Z.leb_le in H. rewrite H. reflexivity. Qed.

(** C3, as the code has it: a job whose execution fails and whose row is
    in the table.  The message the [catch] block receives is the message of
    the error thrown, or ["Unknown error"] for a thrown value that is not an
    [Error], or the pipeline's errors joined by [", "] when the pipeline
    answers [failed].  With [retry_count < max_retries], and the new date
    one a [Date] can hold, the row is [pending] again, its retry count is
    the job's plus one, it holds that message, and it is scheduled
    [60000 * 2^retry_count] milliseconds after the failure; when the date
    is out of range [toISOString] throws, [executeJob] rejects and the row
    is left [running] with nothing else written.  With
    [retry_count >= max_retries] the row is [failed] and its retry count is
    as it was; it holds the message when the message is not empty, and the
    message it held before when it is. *)
Theorem executeJob_retry_policy (store : gmap string Job) (w : World)
    (job row : Job) (errorMessage : string) :
  store !! id job = Some row ->
  (outcome w = ThrewError errorMessage
   \/ (outcome w = ThrewOther /\ errorMessage = "Unknown error"%string)
   \/ (exists result,
         outcome w = Returned result /\ p_status result = pipelineFailed
         /\ errorMessage = String.concat ", " (errors result))) ->
  0 <= retry_count job ->
  exists row',
    snd (executeJob store w job) !! id job = Some row'
    /\ (retry_count job < max_retries job ->
        validTime (finishedAt w + 60000 * 2 ^ retry_count job) = true ->
        fst (executeJob store w job) = Resolved
        /\ status row' = pending
        /\ retry_count row' = retry_count job + 1
        /\ error_message row' = Some errorMessage
        /\ scheduled_at row' = finishedAt w + 60000 * 2 ^ retry_count job
        /\ max_retries row' = max_retries row)
    /\ (retry_count job < max_retries job ->
        validTime (finishedAt w + 60000 * 2 ^ retry_count job) = false ->
        fst (executeJob store w job) = Rejected
        /\ status row' = running
        /\ retry_count row' = retry_count row
        /\ error_message row' = error_message row
        /\ scheduled_at row' = scheduled_at row)
    /\ (max_retries job <= retry_count job ->
        fst (executeJob store w job) = Resolved
        /\ status row' = failed
        /\ retry_count row' = retry_count row
        /\ (errorMessage <> ""%string -> error_message row' = Some errorMessage)
        /\ (errorMessage = ""%string -> error_message row' = error_message row)
        /\ max_retries row' = max_retries row).
Proof.
  intros Hrow Hthrown Hrc.
  assert (Hfail : failure (outcome w) = Some errorMessage).
  { destruct Hthrown as [-> | [[-> ->] | (result & -> & Hstatus & ->)]];
      [reflexivity | reflexivity |].
    cbn [failure]. rewrite Hstatus. reflexivity. }
  unfold executeJob. rewrite Hfail.
  rewrite backoff_nonneg by exact Hrc.
  destruct (retry_count job <? max_retries job) eqn:Hretry.
  - apply Z.ltb_lt in Hretry.
    destruct (validTime _) eqn:Hvalid.
    + eexists. cbn [snd fst]. split.
      * rewrite lookup_alter_eq, updateJobStatus_lookup, Hrow. reflexivity.
      * split; [intros _ _; cbn; auto 10|].
        split; [intros _ H; discriminate | intros H; lia].
    + eexists. cbn [snd fst]. split.
      * rewrite updateJobStatus_lookup, Hrow. reflexivity.
      * split; [intros _ H; discriminate|].
        split; [intros _ _; cbn; auto 10 | intros H; lia].
  - apply Z.ltb_ge in Hretry.
    eexists. cbn [snd fst]. split.
    + rewrite !updateJobStatus_lookup, Hrow. reflexivity.
    + split; [intros H; lia|]. split; [intros H; lia|]. intros _. cbn.
      repeat split.
      * intros Hne. apply String.eqb_neq in Hne. unfold JS.truthy. rewrite Hne. reflexivity.
      * intros ->. reflexivity.
Qed.

(** The scenario of the specification: a job at [retry_count = 2] of 3
    fails; it is pending again at [retry_count = 3], 240 seconds later, and
    holds the message of the failure. *)
Lemma executeJob_retry_policy_witness :
  exists row',
    snd (executeJob {[ "job-1"%string := example ]} (failing 1000) example)
      !! "job-1"%string = Some row'
    /\ status row' = pending /\ retry_count row' = 3
    /\ error_message row' = Some "HTTP 503: Service Unavailable"%string
    /\ scheduled_at row' = 1010 + 240000.
Proof.
  destruct (executeJob_retry_policy {[ "job-1"%string := example ]} (failing 1000)
              example example "HTTP 503: Service Unavailable")
    as (row' & Hrow' & Hretry & _).
  - reflexivity.
  - left. reflexivity.
  - cbn. lia.
  - exists row'. split; [exact Hrow'|].
    destruct Hretry as (_ & Hs & Hc & Hm & Hat & _).
    + cbn. lia.
    + reflexivity.
    + repeat split; [exact Hs | exact Hc | exact Hm | exact Hat].
Defined.

(** Two failures the policy of the claim does not describe.  A job out of
    retries that holds the message of an earlier failure and fails with an
    error whose message is empty ends [failed] with the earlier message, not
    the last one: [updateJobStatus] writes the message only [if
    (errorMessage)].  A job at [retry_count = 40] of 50 that fails is not
    rescheduled: [60000 * 2^40] milliseconds from now is no date,
    [toISOString] throws in the [catch] block, [executeJob] rejects, and
    the row stays [running] with [retry_count = 40]. *)
Lemma executeJob_outside_policy :
  (let job := {| id := "job-1"; source_id := "sec"; url := "https://www.sec.gov/rules";
                 status := pending; priority := 0; scheduled_at := 0;
                 started_at := None; completed_at := None; updated_at := None;
                 error_message := Some "HTTP 503: Service Unavailable"%string;
                 retry_count := 3; max_retries := 3 |} in
   let w := {| startedAt := 1000; outcome := ThrewError ""; finishedAt := 1010 |} in
   max_retries job <= retry_count job
   /\ failure (outcome w) = Some ""%string
   /\ exists row',
        executeJob {[ "job-1"%string := job ]} w job
        = (Resolved, {[ "job-1"%string := row' ]})
        /\ status row' = failed
        /\ error_message row' = Some "HTTP 503: Service Unavailable"%string
        /\ error_message row' <> Some ""%string)
  /\ (let job := {| id := "job-2"; source_id := "sec"; url := "https://www.sec.gov/rules";
                    status := pending; priority := 0; scheduled_at := 0;
                    started_at := None; completed_at := None; updated_at := None;
                    error_message := None; retry_count := 40; max_retries := 50 |} in
      retry_count job < max_retries job
      /\ validTime (finishedAt (failing 1000) + 60000 * 2 ^ retry_count job) = false
      /\ exists row',
           executeJob {[ "job-2"%string := job ]} (failing 1000) job
           = (Rejected, {[ "job-2"%string := row' ]})
           /\ status row' = running /\ status row' <> pending
           /\ retry_count row' = 40 /\ error_message row' = None).
Proof.
  split.
  - intros job w. split; [cbn; lia|]. split; [reflexivity|].
    eexists. split; [vm_compute; reflexivity|]. cbn. repeat split. discriminate.
  - intros job. split; [cbn; lia|]. split; [vm_compute; reflexivity|].
    eexists. split; [vm_compute; reflexivity|]. cbn. repeat split. discriminate.
Qed.

(** *** The retry counter as an invariant of the table *)

Lemma first_In l :
  forall best r, fold_left first l best = Some r -> best = Some r \/ In r l.
Proof.
  induction l as [|j l IH]; intros best r H; cbn in H; [left; exact H|].
  apply IH in H as [H | H]; [|right; right; exact H].
  destruct best as [b|]; cbn in H.
  - destruct (before b j); injection H as <-; [left; reflexivity | right; left; reflexivity].
  - injection H as <-. right. left. reflexivity.
Qed.

(** [getNextJob] answers a pending row of the table. *)
Lemma getNextJob_row store now job :
  keyed store -> getNextJob store now = Some job ->
  store !! id job = Some job /\ status job = pending.
Proof.
  intros Hkeyed H. unfold getNextJob in H.
  apply first_In in H as [H | H]; [discriminate|].
  apply filter_In in H as [Hin Hel].
  apply in_map_iff in Hin as ([k j] & Hj & Hin). cbn in Hj. subst j.
  apply list_elem_of_In, elem_of_map_to_list in Hin.
  rewrite (Hkeyed _ _ Hin). split; [exact Hin|].
  unfold eligible in Hel. apply andb_prop in Hel as [Hs _].
  apply bool_decide_eq_true in Hs. exact Hs.
Qed.

(** What [executeJob] leaves in the table, row by row *)
Lemma executeJob_rows store w job k j' :
  snd (executeJob store w job) !! k = Some j' ->
  exists j, store !! k = Some j
    /\ id j' = id j /\ max_retries j' = max_retries j
    /\ (k <> id job -> j' = j)
    /\ (retry_count j' = retry_count j
        \/ (k = id job /\ retry_count job < max_retries job
            /\ retry_count j' = retry_count job + 1)).
Proof.
  unfold executeJob. destruct (decide (k = id job)) as [->|Hk].
  - destruct (failure (outcome w)) as [msg|]; cbn [snd].
    + destruct (retry_count job <? max_retries job) eqn:Hretry.
      * apply Z.ltb_lt in Hretry. destruct (validTime _); cbn [snd].
        -- rewrite lookup_alter_eq, updateJobStatus_lookup.
           destruct (store !! id job) as [j|]; [|discriminate]. cbn. intros [= <-].
           exists j. cbn. repeat split; try congruence. right. auto.
        -- rewrite updateJobStatus_lookup.
           destruct (store !! id job) as [j|]; [|discriminate]. cbn. intros [= <-].
           exists j. cbn. repeat split; try congruence. left. reflexivity.
      * cbn [snd]. rewrite !updateJobStatus_lookup.
        destruct (store !! id job) as [j|]; [|discriminate]. cbn. intros [= <-].
        exists j. cbn. repeat split; try congruence. left. reflexivity.
    + rewrite !updateJobStatus_lookup.
      destruct (store !! id job) as [j|]; [|discriminate]. cbn. intros [= <-].
      exists j. cbn. repeat split; try congruence. left. reflexivity.
  - assert (Hsame : snd (executeJob store w job) !! k = store !! k).
    { unfold executeJob. destruct (failure (outcome w)) as [msg|]; cbn [snd].
      - destruct (retry_count job <? max_retries job); [destruct (validTime _)|]; cbn [snd];
          rewrite ?lookup_alter_ne, ?updateJobStatus_other by congruence; reflexivity.
      - rewrite !updateJobStatus_other by congruence. reflexivity. }
    unfold executeJob in Hsame. rewrite Hsame. intros Hj. exists j'.
    repeat split; try assumption; try reflexivity. left. reflexivity.
Qed.

Lemma executeJob_present store w job k j :
  store !! k = Some j -> is_Some (snd (executeJob store w job) !! k).
Proof.
  intros Hj. unfold executeJob.
  destruct (failure (outcome w)) as [msg|];
    [destruct (retry_count job <? max_retries job); [destruct (validTime _)|]|];
    cbn [snd]; unfold updateJobStatus; rewrite ?lookup_alter_is_Some; eauto.
Qed.

Lemma executeJob_invariant store w job :
  keyed store -> bounded store -> store !! id job = Some job ->
  keyed (snd (executeJob store w job)) /\ bounded (snd (executeJob store w job)).
Proof.
  intros Hkeyed Hbounded Hjob. split; intros k j' Hj';
    apply executeJob_rows in Hj' as (j & Hj & Hid & Hmax & Hother & Hrc).
  - rewrite Hid. apply (Hkeyed _ _ Hj).
  - pose proof (Hbounded _ _ Hj) as Hb.
    destruct Hrc as [Hrc | (-> & Hlt & Hrc)]; [lia|].
    rewrite Hjob in Hj. injection Hj as <-. lia.
Qed.

Lemma executeJob_keeps store w job k j :
  store !! id job = Some job -> status job = pending ->
  store !! k = Some j -> status j <> pending ->
  snd (executeJob store w job) !! k = Some j.
Proof.
  intros Hjob Hpending Hj Hstatus.
  destruct (executeJob_present store w job k j Hj) as [j' Hj'].
  pose proof Hj' as Hrows.
  apply executeJob_rows in Hrows as (j0 & Hj0 & _ & _ & Hother & _).
  rewrite Hj in Hj0. injection Hj0 as <-.
  rewrite Hj'. f_equal. apply Hother. intros ->. congruence.
Qed.

(** One turn of the queue is one execution of the job [getNextJob] picks. *)
Lemma processQueue_one store now w job :
  getNextJob store now = Some job ->
  snd (processQueue store [(now, w)]) = snd (executeJob store w job).
Proof.
  intros H. cbn [processQueue]. rewrite H.
  destruct (executeJob store w job) as [[] store1]; reflexivity.
Qed.

Lemma processQueue_invariant worlds :
  forall store, keyed store -> bounded store ->
    keyed (snd (processQueue store worlds)) /\ bounded (snd (processQueue store worlds))
    /\ forall k j, store !! k = Some j -> status j <> pending ->
         snd (processQueue store worlds) !! k = Some j.
Proof.
  induction worlds as [|[now w] worlds IH]; intros store Hkeyed Hbounded;
    cbn [processQueue]; [auto|].
  destruct (getNextJob store now) as [job|] eqn:Hnext; [|auto].
  apply getNextJob_row in Hnext as [Hjob Hpending]; [|exact Hkeyed].
  destruct (executeJob_invariant store w job Hkeyed Hbounded Hjob) as [Hk1 Hb1].
  pose proof (fun k j => executeJob_keeps store w job k j Hjob Hpending) as Hkeep.
  destruct (executeJob store w job) as [[] store1]; cbn [snd] in *.
  - destruct (IH store1 Hk1 Hb1) as (Hk2 & Hb2 & Hkeep2).
    destruct (processQueue store1 worlds) as [n store2]. cbn [snd] in *.
    repeat split; auto.
  - repeat split; auto.
Qed.

Lemma createJob_invariant store newId sourceId url_ prio sched now :
  keyed store -> bounded store ->
  let store' := snd (createJob store newId sourceId url_ prio sched now) in
  keyed store' /\ bounded store'
  /\ forall k j, store !! k = Some j -> store' !! k = Some j.
Proof.
  intros Hkeyed Hbounded. unfold createJob.
  destruct (store !! newId) eqn:Hfresh; cbn [snd]; [auto|].
  repeat split.
  - intros k j. rewrite lookup_insert. case_decide as Hk.
    + intros [= <-]. cbn. congruence.
    + apply Hkeyed.
  - intros k j. rewrite lookup_insert. case_decide as Hk.
    + intros [= <-]. cbn. lia.
    + apply Hbounded.
  - intros k j Hj. rewrite lookup_insert_ne; [exact Hj | congruence].
Qed.

Lemma bulkCreateJobs_invariant sourceId prio now urls :
  forall store, keyed store -> bounded store ->
    let store' := snd (bulkCreateJobs store sourceId urls prio now) in
    keyed store' /\ bounded store'
    /\ forall k j, store !! k = Some j -> store' !! k = Some j.
Proof.
  induction urls as [|[newId url_] urls IH]; intros store Hkeyed Hbounded;
    cbn [bulkCreateJobs]; [cbn; auto|].
  destruct (createJob_invariant store newId sourceId url_ prio None now Hkeyed Hbounded)
    as (Hk1 & Hb1 & Hkeep1).
  destruct (createJob store newId sourceId url_ prio None now) as [[i|] store1];
    cbn [snd] in *; [|auto].
  destruct (IH store1 Hk1 Hb1) as (Hk2 & Hb2 & Hkeep2).
  destruct (bulkCreateJobs store1 sourceId urls prio now) as [[ids|] store2];
    cbn [snd] in *; auto.
Qed.

Lemma step_invariant store store' :
  step store store' -> keyed store -> bounded store ->
  keyed store' /\ bounded store'
  /\ forall k j, store !! k = Some j -> status j <> pending -> store' !! k = Some j.
Proof.
  intros Hstep Hkeyed Hbounded. destruct Hstep as
    [store newId sourceId url_ prio sched now r store' H
    |store sourceId urls prio now r store' H
    |store worlds n store' H].
  - pose proof (createJob_invariant store newId sourceId url_ prio sched now Hkeyed Hbounded) as Hi.
    rewrite H in Hi. cbn in Hi. destruct Hi as (? & ? & ?). auto.
  - pose proof (bulkCreateJobs_invariant sourceId prio now urls store Hkeyed Hbounded) as Hi.
    rewrite H in Hi. cbn in Hi. destruct Hi as (? & ? & ?). auto.
  - pose proof (processQueue_invariant worlds store Hkeyed Hbounded) as Hi.
    rewrite H in Hi. exact Hi.
Qed.

(** *** Consecutive failures of one job *)

Lemma fails_validTime limit w n :
  fails limit w -> 0 <= n <= limit ->
  validTime (finishedAt w + 60000 * 2 ^ n) = true.
Proof.
  intros (_ & Hlow & Hhigh) Hn. unfold validTime.
  assert (0 < 2 ^ n) by (apply Z.pow_pos_nonneg; lia).
  assert (2 ^ n <= 2 ^ limit) by (apply Z.pow_le_mono_r; lia).
  apply andb_true_intro. split; [apply Z.leb_le | apply Z.leb_le]; lia.
Qed.

(** One failed execution of the row the table holds *)
Lemma executeJob_failure store w job limit :
  store !! id job = Some job -> fails limit w ->
  0 <= retry_count job -> max_retries job <= limit ->
  exists row',
    snd (executeJob store w job) !! id job = Some row'
    /\ id row' = id job /\ max_retries row' = max_retries job
    /\ (retry_count job < max_retries job ->
        status row' = pending /\ retry_count row' = retry_count job + 1)
    /\ (max_retries job <= retry_count job ->
        status row' = failed /\ retry_count row' = retry_count job).
Proof.
  intros Hjob Hfails Hrc Hmax. pose proof Hfails as ([msg Hmsg] & _).
  unfold executeJob. rewrite Hmsg, backoff_nonneg by exact Hrc.
  destruct (retry_count job <? max_retries job) eqn:Hretry.
  - apply Z.ltb_lt in Hretry.
    rewrite (fails_validTime limit w (retry_count job) Hfails) by lia.
    eexists. cbn [snd]. split.
    + rewrite lookup_alter_eq, updateJobStatus_lookup, Hjob. reflexivity.
    + cbn. repeat split; try reflexivity; lia.
  - apply Z.ltb_ge in Hretry. eexists. cbn [snd]. split.
    + rewrite !updateJobStatus_lookup, Hjob. reflexivity.
    + cbn. repeat split; try reflexivity; lia.
Qed.

Lemma executions_present worlds :
  forall store k job, store !! k = Some job -> is_Some (executions store k worlds !! k).
Proof.
  induction worlds as [|w worlds IH]; intros store k job Hjob; cbn [executions].
  - eauto.
  - rewrite Hjob.
    destruct (executeJob_present store w job k job Hjob) as [j' Hj'].
    apply (IH _ _ j' Hj').
Qed.

Lemma executions_failures worlds :
  forall store k job,
    store !! k = Some job -> id job = k -> status job = pending ->
    0 <= retry_count job <= max_retries job ->
    Forall (fails (max_retries job)) worlds ->
    forall row, executions store k worlds !! k = Some row ->
      (retry_count job + Z.of_nat (length worlds) <= max_retries job ->
       status row = pending
       /\ retry_count row = retry_count job + Z.of_nat (length worlds))
      /\ (retry_count job + Z.of_nat (length worlds) = max_retries job + 1 ->
          status row = failed /\ retry_count row = max_retries job).
Proof.
  induction worlds as [|w worlds IH]; intros store k job Hjob Hid Hpending Hrc Hfail row;
    cbn [executions length].
  - rewrite Hjob. intros [= <-]. split; intros H; [split; [exact Hpending | lia] | lia].
  - rewrite Hjob. apply Forall_cons in Hfail as [Hw Hworlds].
    assert (Hjob' : store !! id job = Some job) by (rewrite Hid; exact Hjob).
    destruct (executeJob_failure store w job (max_retries job) Hjob' Hw)
      as (row' & Hrow' & Hid' & Hmax' & Hretry & Hfinal); [lia | lia |].
    rewrite Hid in Hrow', Hid'.
    destruct (Z.lt_ge_cases (retry_count job) (max_retries job)) as [Hlt | Hge].
    + destruct (Hretry Hlt) as [Hs Hc]. intros Hrow.
      rewrite <- Hmax' in Hworlds.
      destruct (IH _ _ row' Hrow' Hid' Hs ltac:(lia) Hworlds row Hrow) as [H1 H2].
      rewrite Hmax', Hc in H1, H2. rewrite Nat2Z.inj_succ.
      split; intros H; [destruct H1 as [? ?] | destruct H2 as [? ?]];
        try split; try assumption; lia.
    + destruct (Hfinal Hge) as [Hs Hc]. intros Hrow. split; intros H; [lia|].
      assert (worlds = []) as -> by (destruct worlds; [reflexivity | cbn in H; lia]).
      cbn [executions] in Hrow. rewrite Hrow' in Hrow. injection Hrow as <-.
      split; [exact Hs | lia].
Qed.

Lemma steps_invariant store store' :
  rtc step store store' -> keyed store -> bounded store ->
  keyed store' /\ bounded store'
  /\ forall k j, store !! k = Some j -> status j <> pending -> store' !! k = Some j.
Proof.
  induction 1 as [store | store mid store' Hstep _ IH]; intros Hkeyed Hbounded; [auto|].
  destruct (step_invariant _ _ Hstep Hkeyed Hbounded) as (Hk & Hb & Hkeep).
  destruct (IH Hk Hb) as (Hk' & Hb' & Hkeep').
  repeat split; auto.
Qed.

Lemma executions_invariant worlds :
  forall store k, keyed store -> bounded store ->
    keyed (executions store k worlds) /\ bounded (executions store k worlds).
Proof.
  induction worlds as [|w worlds IH]; intros store k Hkeyed Hbounded;
    cbn [executions]; [auto|].
  destruct (store !! k) as [job|] eqn:Hjob; [|auto].
  pose proof (Hkeyed _ _ Hjob) as Hid. subst k.
  destruct (executeJob_invariant store w job Hkeyed Hbounded Hjob) as [Hk Hb].
  apply IH; assumption.
Qed.

(** C4, as the code has it: in a table whose rows have not used more
    retries than they may, a pending row with [retry_count = 0] and
    [max_retries = M] is executed again and again, failing each time.
    After [n <= M] failures it is pending with [retry_count = n]; after
    [M + 1] failures (the first run and [M] retries) it is [failed] with
    [retry_count = M], and whatever the scheduler does afterwards leaves the
    row as it is.  At every point, and after whatever the scheduler does, no
    row of the table has a retry count above its maximum. *)
Theorem retries_then_failed (store : gmap string Job) (k : string) (job : Job)
    (worlds : list World) :
  keyed store -> bounded store ->
  store !! k = Some job ->
  status job = pending -> retry_count job = 0 -> 0 <= max_retries job ->
  Forall (fails (max_retries job)) worlds ->
  let M := max_retries job in
  let n := Z.of_nat (length worlds) in
  let store' := executions store k worlds in
  exists row,
    store' !! k = Some row
    /\ (n <= M -> status row = pending /\ retry_count row = n)
    /\ (n = M + 1 ->
        status row = failed /\ retry_count row = M
        /\ forall later, rtc step store' later -> later !! k = Some row)
    /\ forall later, rtc step store' later -> bounded later.
Proof.
  intros Hkeyed Hbounded Hjob Hpending Hzero HM Hfail M n store'.
  destruct (executions_present worlds store k job Hjob) as [row Hrow].
  destruct (executions_invariant worlds store k Hkeyed Hbounded) as [Hk' Hb'].
  fold store' in Hrow, Hk', Hb'.
  destruct (executions_failures worlds store k job Hjob (Hkeyed _ _ Hjob) Hpending
              ltac:(lia) Hfail row Hrow) as [Hbefore Hafter].
  exists row. split; [exact Hrow|]. split; [|split].
  - intros Hn. destruct Hbefore as [Hs Hc]; [subst n M; lia|].
    split; [exact Hs | subst n; lia].
  - intros Hn. destruct Hafter as [Hs Hc]; [subst n M; lia|].
    split; [exact Hs|]. split; [exact Hc|].
    intros later Hsteps.
    destruct (steps_invariant _ _ Hsteps Hk' Hb') as (_ & _ & Hkeep).
    apply Hkeep; [exact Hrow | congruence].
  - intros later Hsteps.
    destruct (steps_invariant _ _ Hsteps Hk' Hb') as (_ & Hb & _). exact Hb.
Qed.

Lemma retries_then_failed_witness :
  exists row,
    executions created "job-1" [failing 10; failing 100000; failing 400000; failing 900000]
      !! "job-1"%string = Some row
    /\ status row = failed /\ retry_count row = 3.
Proof.
  destruct (retries_then_failed created "job-1"
              {| id := "job-1"; source_id := "sec"; url := "https://www.sec.gov/rules";
                 status := pending; priority := 0; scheduled_at := 0;
                 started_at := None; completed_at := None; updated_at := None;
                 error_message := None; retry_count := 0; max_retries := 3 |}
              [failing 10; failing 100000; failing 400000; failing 900000])
    as (row & Hrow & _ & Hfinal & _).
  - intros k j. unfold created, createJob. cbn [snd].
    rewrite lookup_empty. cbn [snd]. rewrite lookup_insert. case_decide as Hk.
    + intros [= <-]. exact Hk.
    + rewrite lookup_empty. discriminate.
  - intros k j. unfold created, createJob.
    rewrite lookup_empty. cbn [snd]. rewrite lookup_insert. case_decide as Hk.
    + intros [= <-]. cbn. lia.
    + rewrite lookup_empty. discriminate.
  - reflexivity.
  - reflexivity.
  - reflexivity.
  - cbn. lia.
  - repeat constructor; cbn; try lia; eauto.
  - exists row. split; [exact Hrow|].
    destruct Hfinal as (Hs & Hc & _); [reflexivity|].
    split; [exact Hs | exact Hc].
Defined.

(** Three failures are not enough: a job made by [createJob] (so with
    [max_retries = 3]) that the queue has run three times, failing each
    time, is pending for its third retry, not failed; the fourth failure
    makes it failed. *)
Lemma three_failures_still_pending :
  exists row3 row4,
    processQueue created [(10, failing 10); (100000, failing 100000); (400000, failing 400000)]
    = (Some 3, {[ "job-1"%string := row3 ]})
    /\ max_retries row3 = 3 /\ retry_count row3 = 3
    /\ status row3 = pending /\ status row3 <> failed
    /\ processQueue created [(10, failing 10); (100000, failing 100000);
                             (400000, failing 400000); (900000, failing 900000)]
       = (Some 4, {[ "job-1"%string := row4 ]})
    /\ retry_count row4 = 3 /\ status row4 = failed.
Proof.
  eexists _, _. vm_compute. repeat split. discriminate.
Qed.


(** *** Which job comes next *)

Lemma before_total a b : before a b = false -> before b a = true.
Proof.
  unfold before. intros H. apply orb_false_elim in H as [H1 H2].
  apply Z.ltb_ge in H1. apply andb_false_iff in H2.
  apply orb_true_iff.
  destruct (Z.eq_dec (priority a) (priority b)) as [E|E].
  - right. destruct H2 as [H2|H2]; [apply Z.eqb_neq in H2; lia|].
    apply Z.leb_gt in H2. apply andb_true_intro.
    split; [apply Z.eqb_eq | apply Z.leb_le]; lia.
  - left. apply Z.ltb_lt. lia.
Qed.

Lemma before_spec a b :
  before a b = true
  <-> priority b < priority a
      \/ (priority a = priority b /\ scheduled_at a <= scheduled_at b).
Proof.
  unfold before. rewrite orb_true_iff, andb_true_iff, Z.ltb_lt, Z.eqb_eq, Z.leb_le.
  reflexivity.
Qed.

Lemma before_trans a b c : before a b = true -> before b c = true -> before a c = true.
Proof. rewrite !before_spec. lia. Qed.

Lemma first_best l :
  forall best r, fold_left first l best = Some r ->
    (forall b, best = Some b -> before r b = true)
    /\ Forall (fun x => before r x = true) l.
Proof.
  induction l as [|j l IH]; intros best r H; cbn [fold_left] in H.
  - subst best. split; [|constructor]. intros b [= ->]. apply before_spec. lia.
  - apply IH in H as [Hbest Hrest].
    assert (Hj : before r j = true /\ forall b, best = Some b -> before r b = true).
    { destruct best as [b|]; cbn [first] in Hbest.
      - destruct (before b j) eqn:Hbj.
        + pose proof (Hbest b eq_refl) as Hrb. split.
          * exact (before_trans _ _ _ Hrb Hbj).
          * intros b' [= <-]. exact Hrb.
        + pose proof (Hbest j eq_refl) as Hrj. split; [exact Hrj|].
          intros b' [= <-]. exact (before_trans _ _ _ Hrj (before_total _ _ Hbj)).
      - split; [exact (Hbest j eq_refl) | discriminate]. }
    destruct Hj as [Hj Hb]. split; [exact Hb | constructor; assumption].
Qed.

Lemma first_Some l : forall b, fold_left first l (Some b) <> None.
Proof.
  induction l as [|j l IH]; intros b; cbn [fold_left first]; [discriminate|].
  destruct (before b j); apply IH.
Qed.

Lemma eligible_spec now j :
  eligible now j = true <-> status j = pending /\ scheduled_at j <= now.
Proof.
  unfold eligible. rewrite andb_true_iff, bool_decide_eq_true, Z.leb_le. reflexivity.
Qed.

Lemma eligible_rows (store : gmap string Job) now j :
  In j (List.filter (eligible now) (map snd (map_to_list store)))
  <-> (exists k, store !! k = Some j) /\ eligible now j = true.
Proof.
  rewrite filter_In, in_map_iff. split.
  - intros [([k j'] & Hj & Hin) Hel]. cbn in Hj. subst j'.
    apply list_elem_of_In, elem_of_map_to_list in Hin. eauto.
  - intros [[k Hk] Hel]. split; [|exact Hel]. exists (k, j). split; [reflexivity|].
    apply list_elem_of_In, elem_of_map_to_list. exact Hk.
Qed.

Lemma getNextJob_eligible (store : gmap string Job) now job :
  getNextJob store now = Some job ->
  (exists k, store !! k = Some job) /\ eligible now job = true.
Proof.
  unfold getNextJob. intros H. apply first_In in H as [H | H]; [discriminate|].
  apply eligible_rows, H.
Qed.

(** X14: which job [getNextJob] picks.  The job returned is a row of the
    table that is pending and due, and no other pending row that is due has
    a higher priority, or the same priority and an earlier [scheduled_at];
    [null] is returned exactly when no pending row is due. *)
Theorem getNextJob_best (store : gmap string Job) (now : Z) :
  match getNextJob store now with
  | Some job =>
      (exists k, store !! k = Some job)
      /\ status job = pending /\ scheduled_at job <= now
      /\ forall k j, store !! k = Some j -> status j = pending -> scheduled_at j <= now ->
           priority j < priority job
           \/ (priority j = priority job /\ scheduled_at job <= scheduled_at j)
  | None =>
      forall k j, store !! k = Some j -> status j = pending -> now < scheduled_at j
  end.
Proof.
  destruct (getNextJob store now) as [job|] eqn:Hnext.
  - destruct (getNextJob_eligible _ _ _ Hnext) as [Hrow Hel].
    apply eligible_spec in Hel as [Hs Hdue].
    split; [exact Hrow|]. split; [exact Hs|]. split; [exact Hdue|].
    intros k j Hj Hsj Hduej. unfold getNextJob in Hnext.
    apply first_best in Hnext as [_ Hall].
    rewrite Stdlib.Lists.List.Forall_forall in Hall.
    assert (Hbefore : before job j = true).
    { apply Hall, eligible_rows. split; [eauto|]. apply eligible_spec. auto. }
    apply before_spec in Hbefore. lia.
  - intros k j Hj Hsj. unfold getNextJob in Hnext.
    destruct (List.filter _ _) as [|x l] eqn:Hlist.
    + destruct (Z.lt_ge_cases now (scheduled_at j)) as [Hlt|Hge]; [exact Hlt|].
      assert (Hin : In j (List.filter (eligible now) (map snd (map_to_list store)))).
      { apply eligible_rows. split; [eauto|]. apply eligible_spec. split; [exact Hsj | lia]. }
      rewrite Hlist in Hin. destruct Hin.
    + cbn [fold_left first] in Hnext. destruct (first_Some l x Hnext).
Qed.

(** *** What the scheduler leaves alone *)

Lemma sameJob_refl j : sameJob j j.
Proof. repeat split. Qed.

Lemma sameJob_trans a b c : sameJob a b -> sameJob b c -> sameJob a c.
Proof. unfold sameJob. intros (?&?&?&?&?) (?&?&?&?&?). repeat split; congruence. Qed.

Lemma extends_refl store : extends store store.
Proof. intros k j Hj. exists j. auto using sameJob_refl. Qed.

Lemma extends_trans a b c : extends a b -> extends b c -> extends a c.
Proof.
  intros Hab Hbc k j Hj.
  destruct (Hab k j Hj) as (j' & Hj' & Hsame & Hkeep).
  destruct (Hbc k j' Hj') as (j'' & Hj'' & Hsame' & Hkeep').
  exists j''. split; [exact Hj''|]. split; [exact (sameJob_trans _ _ _ Hsame Hsame')|].
  intros Hs. rewrite <- (Hkeep Hs). apply Hkeep'. rewrite (Hkeep Hs). exact Hs.
Qed.

Lemma executeJob_other store w job k :
  k <> id job -> snd (executeJob store w job) !! k = store !! k.
Proof.
  intros Hk. unfold executeJob. destruct (failure (outcome w)) as [msg|]; cbn [snd].
  - destruct (retry_count job <? max_retries job); [destruct (validTime _)|]; cbn [snd];
      rewrite ?lookup_alter_ne, ?updateJobStatus_other by congruence; reflexivity.
  - rewrite !updateJobStatus_other by congruence. reflexivity.
Qed.

Lemma executeJob_extends store w job :
  store !! id job = Some job -> status job = pending ->
  extends store (snd (executeJob store w job)).
Proof.
  intros Hjob Hpending k j Hj. destruct (decide (k = id job)) as [->|Hk].
  - rewrite Hjob in Hj. injection Hj as <-. unfold executeJob.
    destruct (failure (outcome w)) as [msg|];
      [destruct (retry_count job <? max_retries job); [destruct (validTime _)|]|];
      cbn [snd]; rewrite ?lookup_alter_eq, ?updateJobStatus_lookup, Hjob; cbn;
      eexists; (split; [reflexivity|]); (split; [repeat split | intros; congruence]).
  - exists j. rewrite executeJob_other by exact Hk.
    split; [exact Hj|]. split; [apply sameJob_refl | reflexivity].
Qed.

Lemma executeJob_keyed store w job :
  keyed store -> keyed (snd (executeJob store w job)).
Proof.
  intros Hkeyed k j' Hj'.
  apply executeJob_rows in Hj' as (j & Hj & Hid & _). rewrite Hid. exact (Hkeyed _ _ Hj).
Qed.

Lemma processQueue_extends worlds :
  forall store, keyed store ->
    keyed (snd (processQueue store worlds))
    /\ extends store (snd (processQueue store worlds)).
Proof.
  induction worlds as [|[now w] worlds IH]; intros store Hkeyed;
    cbn [processQueue]; [split; [exact Hkeyed | apply extends_refl]|].
  destruct (getNextJob store now) as [job|] eqn:Hnext;
    [|split; [exact Hkeyed | apply extends_refl]].
  apply getNextJob_row in Hnext as [Hjob Hpending]; [|exact Hkeyed].
  pose proof (executeJob_keyed store w job Hkeyed) as Hk1.
  pose proof (executeJob_extends store w job Hjob Hpending) as He1.
  destruct (executeJob store w job) as [[] store1]; cbn [snd] in *; [|auto].
  destruct (IH store1 Hk1) as [Hk2 He2].
  destruct (processQueue store1 worlds) as [n store2]. cbn [snd] in *.
  split; [exact Hk2 | exact (extends_trans _ _ _ He1 He2)].
Qed.

Lemma createJob_extends store newId sourceId url_ prio sched now :
  keyed store ->
  keyed (snd (createJob store newId sourceId url_ prio sched now))
  /\ extends store (snd (createJob store newId sourceId url_ prio sched now)).
Proof.
  intros Hkeyed. unfold createJob.
  destruct (store !! newId) eqn:Hfresh; cbn [snd];
    [split; [exact Hkeyed | apply extends_refl]|].
  split.
  - intros k j. rewrite lookup_insert. case_decide as Hk.
    + intros [= <-]. cbn. congruence.
    + apply Hkeyed.
  - intros k j Hj. exists j. rewrite lookup_insert_ne by congruence.
    split; [exact Hj|]. split; [apply sameJob_refl | reflexivity].
Qed.

Lemma bulkCreateJobs_extends sourceId prio now urls :
  forall store, keyed store ->
    keyed (snd (bulkCreateJobs store sourceId urls prio now))
    /\ extends store (snd (bulkCreateJobs store sourceId urls prio now)).
Proof.
  induction urls as [|[newId url_] urls IH]; intros store Hkeyed;
    cbn [bulkCreateJobs]; [split; [exact Hkeyed | apply extends_refl]|].
  destruct (createJob_extends store newId sourceId url_ prio None now Hkeyed) as [Hk1 He1].
  destruct (createJob store newId sourceId url_ prio None now) as [[i|] store1];
    cbn [snd] in *; [|split; [exact Hkeyed | apply extends_refl]].
  destruct (IH store1 Hk1) as [Hk2 He2].
  destruct (bulkCreateJobs store1 sourceId urls prio now) as [[ids|] store2];
    cbn [snd] in *; [|split; [exact Hkeyed | apply extends_refl]].
  split; [exact Hk2 | exact (extends_trans _ _ _ He1 He2)].
Qed.

Lemma step_extends store store' :
  step store store' -> keyed store -> keyed store' /\ extends store store'.
Proof.
  intros Hstep Hkeyed. destruct Hstep as
    [store newId sourceId url_ prio sched now r store' H
    |store sourceId urls prio now r store' H
    |store worlds n store' H].
  - pose proof (createJob_extends store newId sourceId url_ prio sched now Hkeyed) as Hi.
    rewrite H in Hi. exact Hi.
  - pose proof (bulkCreateJobs_extends sourceId prio now urls store Hkeyed) as Hi.
    rewrite H in Hi. exact Hi.
  - pose proof (processQueue_extends worlds store Hkeyed) as Hi.
    rewrite H in Hi. exact Hi.
Qed.

Lemma created_keyed : keyed created.
Proof.
  intros k j. unfold created, createJob. cbn [snd].
  rewrite lookup_empty. cbn [snd]. rewrite lookup_insert. case_decide as Hk.
  - intros [= <-]. exact Hk.
  - rewrite lookup_empty. discriminate.
Qed.

(** X15: what the scheduler never does.  In a table whose rows are filed
    under their identifiers, whatever jobs are created and whatever the
    queue runs, no row is deleted, no row changes its identifier, source,
    URL, priority or maximum of retries, and a row that is not pending
    (running, completed or failed) is left exactly as it is: in particular a
    job left [running] is never picked up again. *)
Theorem scheduler_keeps_rows (store store' : gmap string Job) :
  rtc step store store' -> keyed store -> extends store store'.
Proof.
  intros Hsteps Hkeyed.
  enough (keyed store' /\ extends store store') as [_ H] by exact H.
  induction Hsteps as [store | store mid store' Hstep _ IH];
    [split; [exact Hkeyed | apply extends_refl]|].
  destruct (step_extends _ _ Hstep Hkeyed) as [Hk He].
  destruct (IH Hk) as [Hk' He'].
  split; [exact Hk' | exact (extends_trans _ _ _ He He')].
Qed.

Lemma scheduler_keeps_rows_witness :
  extends created (snd (processQueue created [(10, failing 10)])).
Proof.
  apply scheduler_keeps_rows; [|exact created_keyed].
  apply rtc_once. eapply step_process. apply surjective_pairing.
Defined.

(** *** A successful execution *)

(** X16: an execution the pipeline does not fail.  When the pipeline
    answers [success] or [partial], the row of the job ends [completed],
    with [started_at] and [completed_at] the two clock readings; the
    pipeline's errors are recorded nowhere, and the retry count and the
    error message of an earlier failure stay as they were. *)
Theorem executeJob_completes (store : gmap string Job) (w : World) (job row : Job)
    (result : PipelineResult) :
  store !! id job = Some row ->
  outcome w = Returned result ->
  p_status result <> pipelineFailed ->
  exists row',
    executeJob store w job = (Resolved, <[id job := row']> store)
    /\ status row' = completed
    /\ started_at row' = Some (startedAt w)
    /\ completed_at row' = Some (finishedAt w)
    /\ retry_count row' = retry_count row
    /\ error_message row' = error_message row
    /\ scheduled_at row' = scheduled_at row
    /\ sameJob row row'.
Proof.
  intros Hrow Hout Hstatus. unfold executeJob. rewrite Hout.
  assert (Hfail : failure (Returned result) = None).
  { unfold failure. destruct (p_status result); congruence. }
  rewrite Hfail. eexists. split.
  - f_equal. apply map_eq. intros k. destruct (decide (k = id job)) as [->|Hk].
    + rewrite !updateJobStatus_lookup, Hrow, lookup_insert_eq. cbn. reflexivity.
    + rewrite !updateJobStatus_other, lookup_insert_ne by congruence. reflexivity.
  - cbn. repeat split.
Qed.

Lemma executeJob_completes_witness :
  exists row',
    executeJob {[ "job-1"%string := example ]}
      {| startedAt := 10;
         outcome := Returned {| p_status := partial; errors := ["Chunk 0 failed"%string] |};
         finishedAt := 20 |} example
    = (Resolved, <["job-1"%string := row']> {[ "job-1"%string := example ]})
    /\ status row' = completed /\ retry_count row' = 2 /\ error_message row' = None.
Proof.
  destruct (executeJob_completes {[ "job-1"%string := example ]}
              {| startedAt := 10;
                 outcome := Returned {| p_status := partial;
                                        errors := ["Chunk 0 failed"%string] |};
                 finishedAt := 20 |} example example
              {| p_status := partial; errors := ["Chunk 0 failed"%string] |})
    as (row' & Hrun & Hs & _ & _ & Hrc & Hmsg & _).
  - reflexivity.
  - reflexivity.
  - discriminate.
  - exists row'. repeat split; assumption.
Defined.

(** *** The delay before a retry *)

(** X17: a retry waits for its backoff.  After a failed execution that
    leaves a retry, finished at [finishedAt], [getNextJob] does not answer
    the job at any clock reading before
    [finishedAt + 60000 * 2^retry_count]. *)
Theorem retry_waits_for_backoff (store : gmap string Job) (w : World) (job next : Job)
    (now : Z) :
  keyed store ->
  store !! id job = Some job ->
  is_Some (failure (outcome w)) ->
  0 <= retry_count job < max_retries job ->
  validTime (finishedAt w + 60000 * 2 ^ retry_count job) = true ->
  now < finishedAt w + 60000 * 2 ^ retry_count job ->
  getNextJob (snd (executeJob store w job)) now = Some next ->
  id next <> id job.
Proof.
  intros Hkeyed Hjob [msg Hmsg] Hrc Hvalid Hnow Hnext Hid.
  pose proof (executeJob_keyed store w job Hkeyed) as Hkeyed'.
  destruct (getNextJob_eligible _ _ _ Hnext) as [[k Hk] Hel].
  pose proof (Hkeyed' _ _ Hk) as Hkid. subst k. rewrite Hid in Hk.
  apply eligible_spec in Hel as [_ Hdue].
  revert Hk. unfold executeJob. rewrite Hmsg, backoff_nonneg by lia.
  replace (retry_count job <? max_retries job) with true
    by (symmetry; apply Z.ltb_lt; lia).
  rewrite Hvalid. cbn [snd].
  rewrite lookup_alter_eq, updateJobStatus_lookup, Hjob. cbn.
  intros [= <-]. cbn in Hdue. lia.
Qed.

Lemma retry_waits_for_backoff_witness :
  getNextJob (snd (executeJob created (failing 10)
                     {| id := "job-1"; source_id := "sec";
                        url := "https://www.sec.gov/rules";
                        status := pending; priority := 0; scheduled_at := 0;
                        started_at := None; completed_at := None; updated_at := None;
                        error_message := None; retry_count := 0; max_retries := 3 |}))
             60019 = None.
Proof.
  destruct (getNextJob _ 60019) as [next|] eqn:Hnext; [|reflexivity].
  exfalso.
  refine (retry_waits_for_backoff created (failing 10) _ next 60019
            created_keyed _ _ _ _ _ Hnext _).
  - reflexivity.
  - eexists. reflexivity.
  - cbn. lia.
  - reflexivity.
  - cbn. lia.
  - apply getNextJob_eligible in Hnext as [[k Hk] _].
    pose proof (executeJob_keyed _ (failing 10) _ created_keyed _ _ Hk) as Hkid.
    subst k.
    destruct (decide (id next = "job-1"%string)) as [E|E]; [exact E|].
    rewrite executeJob_other in Hk by exact E.
    unfold created, createJob in Hk. rewrite lookup_empty in Hk. cbn [snd] in Hk.
    rewrite lookup_insert_ne in Hk by congruence. rewrite lookup_empty in Hk.
    discriminate.
Defined.

(** *** The queue *)

(** X18: what [processQueue] counts.  The number it returns is the number
    of jobs it executed, at most [maxJobs]; when it is less, the queue
    stopped because [getNextJob] found no pending job that was due. *)
Theorem processQueue_count (worlds : list (Z * World)) :
  forall (store store' : gmap string Job) (n : Z),
    processQueue store worlds = (Some n, store') ->
    0 <= n <= Z.of_nat (length worlds)
    /\ (n < Z.of_nat (length worlds) ->
        exists now w, worlds !! Z.to_nat n = Some (now, w)
                      /\ getNextJob store' now = None).
Proof.
  induction worlds as [|[now w] worlds IH]; intros store store' n; cbn [processQueue].
  - intros [= <- <-]. cbn. split; lia.
  - destruct (getNextJob store now) as [job|] eqn:Hnext.
    + destruct (executeJob store w job) as [[] store1]; [|discriminate].
      destruct (processQueue store1 worlds) as [[m|] store2] eqn:Hrest; [|discriminate].
      cbn. intros [= <- <-]. destruct (IH _ _ _ Hrest) as [Hm Hstop].
      cbn [length]. split; [lia|]. intros Hlt.
      destruct Hstop as (now' & w' & Hat & Hnone); [lia|].
      exists now', w'. split; [|exact Hnone].
      replace (Z.to_nat (Z.succ m)) with (S (Z.to_nat m)) by lia. exact Hat.
    + intros [= <- <-]. cbn [length]. split; [lia|]. intros _.
      exists now, w. split; [reflexivity | exact Hnext].
Qed.

Lemma processQueue_count_witness :
  let store' := snd (processQueue created [(10, failing 10); (20, failing 20)]) in
  processQueue created [(10, failing 10); (20, failing 20)] = (Some 1, store')
  /\ getNextJob store' 20 = None.
Proof.
  intros store'.
  assert (Hrun : processQueue created [(10, failing 10); (20, failing 20)]
                 = (Some 1, store')) by (vm_compute; reflexivity).
  split; [exact Hrun|].
  destruct (processQueue_count [(10, failing 10); (20, failing 20)] created store' 1 Hrun)
    as [_ Hstop].
  destruct Hstop as (now & w & Hat & Hnone); [simpl length; lia|].
  change (Some (20, failing 20) = Some (now, w)) in Hat.
  injection Hat as <- <-. exact Hnone.
Defined.

(** *** Statistics *)

Lemma count_partition (l : list Job) :
  (length (List.filter (fun j => bool_decide (status j = pending)) l)
   + length (List.filter (fun j => bool_decide (status j = running)) l)
   + length (List.filter (fun j => bool_decide (status j = completed)) l)
   + length (List.filter (fun j => bool_decide (status j = failed)) l)
   = length l)%nat.
Proof.
  induction l as [|j l IH]; [reflexivity|].
  simpl. destruct (status j); simpl; lia.
Qed.

(** X19: the statistics add up.  When the four count queries succeed and
    find the same table, the four numbers of [getJobStats] are the sizes of
    four classes that split the table: none is negative, and together they
    count every row once. *)
Theorem getJobStats_total (query : Status -> option (gmap string Job))
    (store : gmap string Job) :
  (forall st, query st = Some store) ->
  let stats := getJobStats query in
  0 <= n_pending stats /\ 0 <= n_running stats
  /\ 0 <= n_completed stats /\ 0 <= n_failed stats
  /\ n_pending stats + n_running stats + n_completed stats + n_failed stats
     = Z.of_nat (size store).
Proof.
  intros Hquery. unfold getJobStats. cbn [n_pending n_running n_completed n_failed].
  rewrite !Hquery. unfold countOf.
  pose proof (count_partition (map snd (map_to_list store))) as H.
  rewrite length_map, length_map_to_list in H. lia.
Qed.

Lemma getJobStats_total_witness :
  let stats := getJobStats (fun _ => Some created) in
  n_pending stats + n_running stats + n_completed stats + n_failed stats = 1.
Proof.
  intros stats.
  destruct (getJobStats_total (fun _ => Some created) created (fun _ => eq_refl))
    as (_ & _ & _ & _ & H).
  exact H.
Defined.

End JobsFacts.

(** ** semantic-search.ts *)

Module SearchFacts.
Import Search JSFacts.

(** *** The insertion-ordered map *)

Lemma mapGet_mapSet_eq {V} k (v : V) m : mapGet k (mapSet k v m) = Some v.
Proof.
  unfold mapGet. induction m as [|[k' v'] m IH]; cbn.
  - rewrite String.eqb_refl. reflexivity.
  - destruct (String.eqb k' k) eqn:E; cbn.
    + rewrite String.eqb_refl. reflexivity.
    + rewrite E. exact IH.
Qed.

Lemma mapGet_mapSet_ne {V} k k0 (v : V) m :
  k0 <> k -> mapGet k0 (mapSet k v m) = mapGet k0 m.
Proof.
  intros Hne. unfold mapGet. induction m as [|[k' v'] m IH]; cbn.
  - apply not_eq_sym, String.eqb_neq in Hne. rewrite Hne. reflexivity.
  - destruct (String.eqb k' k) eqn:E; cbn.
    + apply String.eqb_eq in E. subst k'.
      apply not_eq_sym, String.eqb_neq in Hne. rewrite Hne. reflexivity.
    + destruct (String.eqb k' k0); [reflexivity | exact IH].
Qed.

Lemma mapHas_mapGet {V} k (m : list (string * V)) :
  mapHas k m = match mapGet k m with Some _ => true | None => false end.
Proof.
  unfold mapHas, mapGet. induction m as [|[k' v'] m IH]; cbn; [reflexivity|].
  destruct (String.eqb k' k); [reflexivity | exact IH].
Qed.

Lemma mapHas_keys {V} k (m : list (string * V)) :
  mapHas k m = true <-> In k (map fst m).
Proof.
  unfold mapHas. rewrite existsb_exists, in_map_iff. split.
  - intros ([k' v] & Hin & E). apply String.eqb_eq in E. exists (k', v). auto.
  - intros ([k' v] & E & Hin). exists (k', v). split; [exact Hin|].
    apply String.eqb_eq. exact E.
Qed.

Lemma mapSet_fresh {V} k (v : V) m :
  mapHas k m = false -> mapSet k v m = m ++ [(k, v)].
Proof.
  unfold mapHas. induction m as [|[k' v'] m IH]; cbn; [reflexivity|].
  destruct (String.eqb k' k); cbn; [discriminate|].
  intros H. rewrite (IH H). reflexivity.
Qed.

Lemma mapSet_keys {V} k (v : V) m :
  map fst (mapSet k v m) = if mapHas k m then map fst m else map fst m ++ [k].
Proof.
  unfold mapHas. induction m as [|[k' v'] m IH]; cbn; [reflexivity|].
  destruct (String.eqb k' k) eqn:E; cbn.
  - apply String.eqb_eq in E. subst k'. reflexivity.
  - rewrite IH. destruct (existsb _ m); reflexivity.
Qed.

Lemma mapSet_length {V} k (v : V) m : (length (mapSet k v m) <= S (length m))%nat.
Proof.
  induction m as [|[k' v'] m IH]; cbn; [lia|].
  destruct (String.eqb k' k); cbn; lia.
Qed.

Lemma mapSet_NoDup {V} k (v : V) m :
  NoDup (map fst m) -> NoDup (map fst (mapSet k v m)).
Proof.
  intros H. rewrite mapSet_keys. destruct (mapHas k m) eqn:E; [exact H|].
  apply NoDup_app. split; [exact H|]. split.
  - intros x Hx [->|[]]%list_elem_of_In. apply list_elem_of_In, mapHas_keys in Hx. congruence.
  - apply NoDup_singleton.
Qed.

Lemma mapGet_In {V} k (v : V) m :
  NoDup (map fst m) -> In (k, v) m <-> mapGet k m = Some v.
Proof.
  unfold mapGet. induction m as [|[k' v'] m IH]; cbn; intros Hnd.
  - split; [contradiction | discriminate].
  - apply NoDup_cons in Hnd as [Hk' Hnd]. destruct (String.eqb k' k) eqn:E; cbn.
    + apply String.eqb_eq in E. subst k'. split.
      * intros [[= ->] | Hin]; [reflexivity|].
        exfalso. apply Hk', list_elem_of_In, in_map_iff. exists (k, v). auto.
      * intros [= ->]. left. reflexivity.
    + rewrite <- (IH Hnd). split.
      * intros [[= -> ->] | Hin]; [|exact Hin].
        rewrite String.eqb_refl in E. discriminate.
      * intros Hin. right. exact Hin.
Qed.

(** *** The merged map *)

Lemma find_snoc {A} (f : A -> bool) l x :
  List.find f (l ++ [x])
  = match List.find f l with Some y => Some y | None => if f x then Some x else None end.
Proof.
  induction l as [|a l IH]; cbn; [reflexivity|].
  destruct (f a); [reflexivity | exact IH].
Qed.

Lemma addSemantic_get m result k :
  mapGet k (addSemantic m result)
  = if JS.truthy k && isFor k result then Some result else mapGet k m.
Proof.
  unfold addSemantic, isFor. destruct (regulationId result) as [rid|].
  - destruct (String.eqb rid k) eqn:E.
    + apply String.eqb_eq in E. subst rid.
      destruct (JS.truthy k); cbn; [apply mapGet_mapSet_eq | reflexivity].
    + rewrite andb_false_r. destruct (JS.truthy rid); [|reflexivity].
      apply mapGet_mapSet_ne. intros ->. rewrite String.eqb_refl in E. discriminate.
  - rewrite andb_false_r. reflexivity.
Qed.

Lemma semantic_get semanticResults :
  forall m k,
    mapGet k (fold_left addSemantic semanticResults m)
    = match lastSemantic k semanticResults with
      | Some s => Some s
      | None => mapGet k m
      end.
Proof.
  unfold lastSemantic.
  induction semanticResults as [|s rest IH]; intros m k; cbn [fold_left rev].
  - destruct (JS.truthy k); reflexivity.
  - rewrite IH, addSemantic_get, find_snoc.
    destruct (JS.truthy k); cbn; [|reflexivity].
    destruct (List.find (isFor k) (rev rest)); [reflexivity|].
    destruct (isFor k s); reflexivity.
Qed.

Lemma addKeyword_get m regulation k :
  mapGet k (addKeyword m regulation)
  = match mapGet k m with
    | Some v => Some v
    | None => if String.eqb (reg_id regulation) k
              then Some (keywordEntry regulation) else None
    end.
Proof.
  unfold addKeyword. rewrite mapHas_mapGet.
  destruct (String.eqb (reg_id regulation) k) eqn:E.
  - apply String.eqb_eq in E. subst k.
    destruct (mapGet (reg_id regulation) m) eqn:G; [exact G|].
    apply mapGet_mapSet_eq.
  - assert (Hne : k <> reg_id regulation).
    { intros ->. rewrite String.eqb_refl in E. discriminate. }
    destruct (mapGet (reg_id regulation) m).
    + destruct (mapGet k m); reflexivity.
    + rewrite (mapGet_mapSet_ne _ _ _ _ Hne). destruct (mapGet k m); reflexivity.
Qed.

Lemma keyword_get rows :
  forall m k,
    mapGet k (fold_left addKeyword rows m)
    = match mapGet k m with
      | Some v => Some v
      | None => keywordEntry <$> firstKeyword k rows
      end.
Proof.
  unfold firstKeyword.
  induction rows as [|regulation rest IH]; intros m k; cbn [fold_left List.find].
  - destruct (mapGet k m); reflexivity.
  - rewrite IH, addKeyword_get. destruct (mapGet k m); [reflexivity|].
    destruct (String.eqb (reg_id regulation) k); reflexivity.
Qed.

(** What the merged map holds under a key: the last semantic result that
    carries it, or else the entry of the first keyword row that has it. *)
Lemma merge_get semanticResults keywordResults k :
  mapGet k (merge semanticResults keywordResults)
  = match lastSemantic k semanticResults with
    | Some s => Some s
    | None => keywordEntry <$> firstKeyword k (default [] keywordResults)
    end.
Proof.
  unfold merge. destruct keywordResults as [rows|]; cbn [default].
  - rewrite keyword_get, semantic_get. cbn.
    destruct (lastSemantic k semanticResults); reflexivity.
  - rewrite semantic_get. cbn. destruct (lastSemantic k semanticResults); reflexivity.
Qed.

Lemma addSemantic_NoDup semanticResults :
  forall m, NoDup (map fst m) -> NoDup (map fst (fold_left addSemantic semanticResults m)).
Proof.
  induction semanticResults as [|s rest IH]; intros m H; cbn [fold_left]; [exact H|].
  apply IH. unfold addSemantic. destruct (regulationId s) as [rid|]; [|exact H].
  destruct (JS.truthy rid); [apply mapSet_NoDup|]; exact H.
Qed.

Lemma addKeyword_NoDup rows :
  forall m, NoDup (map fst m) -> NoDup (map fst (fold_left addKeyword rows m)).
Proof.
  induction rows as [|regulation rest IH]; intros m H; cbn [fold_left]; [exact H|].
  apply IH. unfold addKeyword. destruct (mapHas _ m); [|apply mapSet_NoDup]; exact H.
Qed.

Lemma merge_NoDup semanticResults keywordResults :
  NoDup (map fst (merge semanticResults keywordResults)).
Proof.
  unfold merge.
  assert (H : NoDup (map fst (fold_left addSemantic semanticResults [])))
    by (apply addSemantic_NoDup; constructor).
  destruct keywordResults; [apply addKeyword_NoDup|]; exact H.
Qed.

Lemma lastSemantic_Some k semanticResults s :
  lastSemantic k semanticResults = Some s ->
  In s semanticResults /\ regulationId s = Some k /\ JS.truthy k = true.
Proof.
  unfold lastSemantic. destruct (JS.truthy k); [|discriminate].
  intros H. apply find_some in H as [Hin Hfor]. split; [|split; [|reflexivity]].
  - apply in_rev. exact Hin.
  - unfold isFor in Hfor. destruct (regulationId s) as [rid|]; [|discriminate].
    apply String.eqb_eq in Hfor. congruence.
Qed.

Lemma lastSemantic_None k semanticResults s :
  lastSemantic k semanticResults = None -> JS.truthy k = true ->
  In s semanticResults -> regulationId s <> Some k.
Proof.
  unfold lastSemantic. intros H Hk Hin Hid. rewrite Hk in H.
  apply in_rev in Hin. pose proof (find_none _ _ H s Hin) as Hnone.
  unfold isFor in Hnone. rewrite Hid, String.eqb_refl in Hnone. discriminate.
Qed.

Lemma firstKeyword_Some k rows regulation :
  firstKeyword k rows = Some regulation -> In regulation rows /\ reg_id regulation = k.
Proof.
  unfold firstKeyword. intros H. apply find_some in H as [Hin E].
  apply String.eqb_eq in E. auto.
Qed.

Lemma find_first {A} (f : A -> bool) l x :
  List.find f l = Some x ->
  exists a b, l = a ++ x :: b /\ f x = true /\ Forall (fun y => f y = false) a.
Proof.
  induction l as [|y l IH]; cbn [List.find]; [discriminate|].
  destruct (f y) eqn:E.
  - intros [= ->]. exists [], l. repeat split; [exact E | constructor].
  - intros H. destruct (IH H) as (a & b & -> & Hx & Ha).
    exists (y :: a), b. repeat split; [exact Hx | constructor; assumption].
Qed.

Lemma lastSemantic_isLast k semanticResults s :
  lastSemantic k semanticResults = Some s -> isLast k s semanticResults.
Proof.
  intros H. pose proof (lastSemantic_Some _ _ _ H) as (_ & Hid & _).
  unfold lastSemantic in H. destruct (JS.truthy k); [|discriminate].
  apply find_first in H as (a & b & Hrev & _ & Ha).
  exists (rev b), (rev a). split; [|split; [exact Hid|]].
  - rewrite <- (rev_involutive semanticResults), Hrev, rev_app_distr. cbn [rev].
    rewrite <- app_assoc. reflexivity.
  - rewrite Stdlib.Lists.List.Forall_forall in *. intros x Hx Hk.
    apply in_rev in Hx. specialize (Ha x Hx). unfold isFor in Ha.
    rewrite Hk, String.eqb_refl in Ha. discriminate.
Qed.

(** Every entry of the merged map, with the key it is filed under *)
Lemma merge_entries semanticResults keywordResults k v :
  In (k, v) (merge semanticResults keywordResults) ->
  regulationId v = Some k
  /\ match lastSemantic k semanticResults with
     | Some s => v = s
     | None => exists regulation,
         In regulation (default [] keywordResults)
         /\ reg_id regulation = k /\ v = keywordEntry regulation
     end.
Proof.
  intros Hin. apply mapGet_In in Hin; [|apply merge_NoDup].
  rewrite merge_get in Hin.
  destruct (lastSemantic k semanticResults) as [s|] eqn:Hs.
  - injection Hin as <-. apply lastSemantic_Some in Hs as (_ & Hid & _). auto.
  - destruct (firstKeyword k _) as [regulation|] eqn:Hk; [|discriminate].
    injection Hin as <-. apply firstKeyword_Some in Hk as [Hin Hid].
    split; [cbn; congruence|]. exists regulation. auto.
Qed.

(** *** Sorting and truncating *)

Lemma swaps_true a b : swaps a b = true -> (similarity a <= similarity b)%Q.
Proof.
  unfold swaps. intros H. apply negb_true_iff in H.
  destruct (Qlt_le_dec (similarity a) (similarity b)) as [Hlt | Hle].
  - apply Qlt_le_weak. exact Hlt.
  - apply Qle_bool_iff in Hle. congruence.
Qed.

Lemma swaps_false a b : swaps a b = false -> (similarity b <= similarity a)%Q.
Proof.
  unfold swaps. intros H. apply negb_false_iff in H. apply Qle_bool_iff. exact H.
Qed.

Lemma insertSorted_perm x l : Permutation (insertSorted x l) (x :: l).
Proof.
  induction l as [|y l IH]; cbn; [reflexivity|].
  destruct (swaps x y); [|reflexivity].
  rewrite IH. apply perm_swap.
Qed.

Lemma sortBySimilarity_perm l : Permutation (sortBySimilarity l) l.
Proof.
  induction l as [|x l IH]; cbn; [reflexivity|].
  rewrite insertSorted_perm, IH. reflexivity.
Qed.

Lemma insertSorted_sorted x l :
  StronglySorted descending l -> StronglySorted descending (insertSorted x l).
Proof.
  induction 1 as [|y l Hl IH Hy]; cbn; [repeat constructor|].
  destruct (swaps x y) eqn:E.
  - constructor; [exact IH|].
    rewrite Stdlib.Lists.List.Forall_forall in *. intros z Hz.
    apply (Permutation_in _ (insertSorted_perm x l)) in Hz as [<- | Hz].
    + apply swaps_true. exact E.
    + apply Hy. exact Hz.
  - apply swaps_false in E. constructor; [constructor; assumption|].
    constructor; [exact E|].
    rewrite Stdlib.Lists.List.Forall_forall in *. intros z Hz.
    unfold descending in *. apply Qle_trans with (similarity y); auto.
Qed.

Lemma sortBySimilarity_sorted l : StronglySorted descending (sortBySimilarity l).
Proof.
  induction l as [|x l IH]; cbn; [constructor | apply insertSorted_sorted, IH].
Qed.

Lemma firstn_sorted n l :
  StronglySorted descending l -> StronglySorted descending (firstn n l).
Proof.
  intros H. revert n. induction H as [|x l Hl IH Hx]; intros [|n]; cbn;
    try constructor; [apply IH|].
  rewrite Stdlib.Lists.List.Forall_forall in *. intros z Hz. apply Hx.
  eapply In_firstn, Hz.
Qed.

(** In a list sorted by similarity the entries above the default stand
    before all the others. *)
Lemma sorted_high_prefix l :
  StronglySorted descending l ->
  forall x n, In x l -> high x = true -> (length (List.filter high l) <= n)%nat ->
    In x (firstn n l).
Proof.
  induction 1 as [|a l Hl IH Ha]; intros x n Hin Hx Hn; [contradiction|].
  cbn [List.filter] in Hn. destruct (high a) eqn:Hhigh.
  - destruct n as [|n]; [cbn in Hn; lia|]. cbn [firstn length] in *.
    destruct Hin as [<- | Hin]; [left; reflexivity|].
    right. apply IH; [exact Hin | exact Hx | lia].
  - exfalso. destruct Hin as [<- | Hin]; [congruence|].
    rewrite Stdlib.Lists.List.Forall_forall in Ha. specialize (Ha x Hin).
    unfold high in *. apply negb_false_iff, Qle_bool_iff in Hhigh.
    apply negb_true_iff in Hx.
    assert (Hle : (similarity x <= 1 # 2)%Q) by (unfold descending in Ha; lra).
    apply Qle_bool_iff in Hle. congruence.
Qed.

Lemma keyword_appends rows :
  forall m, exists extra,
    fold_left addKeyword rows m = m ++ extra
    /\ Forall (fun e => high (snd e) = false) extra.
Proof.
  induction rows as [|regulation rest IH]; intros m; cbn [fold_left].
  - exists []. rewrite app_nil_r. split; [reflexivity | constructor].
  - destruct (IH (addKeyword m regulation)) as (extra & -> & Hextra).
    unfold addKeyword. destruct (mapHas (reg_id regulation) m) eqn:E.
    + exists extra. auto.
    + rewrite (mapSet_fresh _ _ _ E), <- app_assoc.
      eexists. split; [reflexivity|]. constructor; [reflexivity | exact Hextra].
Qed.

Lemma semantic_length semanticResults :
  forall m, (length (fold_left addSemantic semanticResults m)
             <= length m + length semanticResults)%nat.
Proof.
  induction semanticResults as [|s rest IH]; intros m; cbn [fold_left length]; [lia|].
  specialize (IH (addSemantic m s)).
  assert (length (addSemantic m s) <= S (length m))%nat; [|lia].
  unfold addSemantic. destruct (regulationId s) as [rid|]; [|lia].
  destruct (JS.truthy rid); [apply mapSet_length | lia].
Qed.

(** No more entries stand above the default than there are semantic
    results. *)
Lemma merge_high semanticResults keywordResults :
  (length (List.filter high (map snd (merge semanticResults keywordResults)))
   <= length semanticResults)%nat.
Proof.
  unfold merge.
  pose proof (semantic_length semanticResults []) as Hlen. cbn [length] in Hlen.
  set (m := fold_left addSemantic semanticResults []) in *.
  assert (Hm : (length (List.filter high (map snd m)) <= length semanticResults)%nat).
  { pose proof (filter_length_le high (map snd m)) as H.
    rewrite length_map in H. lia. }
  destruct keywordResults as [rows|]; [|exact Hm].
  destruct (keyword_appends rows m) as (extra & -> & Hextra).
  rewrite map_app, List.filter_app, length_app.
  assert (Hnone : List.filter high (map snd extra) = []).
  { clear -Hextra. induction Hextra as [|e extra He _ IH]; cbn; [reflexivity|].
    rewrite He. exact IH. }
  rewrite Hnone. cbn [length]. lia.
Qed.

(** *** [search] *)

Lemma filterBy_In allowed field results r :
  In r (filterBy allowed field results) -> In r results.
Proof.
  unfold filterBy. destruct allowed as [[|v vs]|]; try exact (fun H => H).
  intros H. apply filter_In in H. tauto.
Qed.

Lemma filterByDate_In range results r :
  In r (filterByDate range results) -> In r results.
Proof.
  unfold filterByDate. destruct range as [[s e]|]; [|exact (fun H => H)].
  intros H. apply filter_In in H. tauto.
Qed.

(** Every semantic result is one of the documents, with its similarity. *)
Lemma search_In documents regsData filters limit r :
  In r (search documents regsData filters limit) ->
  exists doc, In doc documents
    /\ similarity r = d_similarity doc
    /\ regulationId r = metadata doc ≫= regulation_id.
Proof.
  unfold search. intros H.
  apply slice_In, filterByDate_In, filterBy_In, filterBy_In, filterBy_In in H.
  apply in_map_iff in H as (doc & <- & Hdoc). exists doc. auto.
Qed.

Lemma search_length documents regsData filters limit :
  0 <= limit ->
  Z.of_nat (length (search documents regsData filters limit)) <= limit.
Proof.
  intros H. unfold search. rewrite (slice_prefix _ _ H), length_firstn. lia.
Qed.

(** *** [hybridSearch] *)

Lemma filter_perm_length {A} (f : A -> bool) l l' :
  Permutation l l' -> length (List.filter f l) = length (List.filter f l').
Proof.
  induction 1 as [|x l l' _ IH|x y l|l l' l'' _ IH1 _ IH2]; cbn.
  - reflexivity.
  - destruct (f x); cbn; congruence.
  - destruct (f x), (f y); reflexivity.
  - congruence.
Qed.

Lemma NoDup_map_Some {A} (l : list A) : NoDup l -> NoDup (map Some l).
Proof.
  induction 1 as [|x l Hx _ IH]; cbn; constructor; [|exact IH].
  intros Hin. apply Hx. apply list_elem_of_In, in_map_iff in Hin as (y & [= ->] & Hy).
  apply list_elem_of_In. exact Hy.
Qed.

Lemma merge_ids semanticResults keywordResults :
  map regulationId (map snd (merge semanticResults keywordResults))
  = map Some (map fst (merge semanticResults keywordResults)).
Proof.
  pose proof (merge_entries semanticResults keywordResults) as H.
  induction (merge semanticResults keywordResults) as [|[k v] m IH]; [reflexivity|].
  cbn. rewrite (proj1 (H k v (or_introl eq_refl))). f_equal.
  apply IH. intros k' v' Hin. apply H. right. exact Hin.
Qed.

(** Every result of the hybrid search is an entry of the merged map. *)
Lemma hybridSearch_In documents regsData keywordResults filters limit r :
  In r (hybridSearch documents regsData keywordResults filters limit) ->
  exists k, In (k, r) (merge (search documents regsData filters limit) keywordResults).
Proof.
  unfold hybridSearch. intros H. apply slice_In in H.
  apply (Permutation_in _ (sortBySimilarity_perm _)) in H.
  apply in_map_iff in H as ([k v] & <- & Hin). exists k. exact Hin.
Qed.

Lemma hybridSearch_NoDup documents regsData keywordResults filters limit :
  0 <= limit ->
  NoDup (map regulationId (hybridSearch documents regsData keywordResults filters limit)).
Proof.
  intros Hlimit. unfold hybridSearch. rewrite (slice_prefix _ _ Hlimit).
  set (merged := merge _ keywordResults).
  assert (Hall : NoDup (map regulationId (sortBySimilarity (map snd merged)))).
  { rewrite (Permutation_map regulationId (sortBySimilarity_perm (map snd merged))).
    unfold merged. rewrite merge_ids. apply NoDup_map_Some, merge_NoDup. }
  rewrite <- (firstn_skipn (Z.to_nat limit) (sortBySimilarity (map snd merged))) in Hall.
  rewrite map_app in Hall. apply NoDup_app in Hall as [Hall _]. exact Hall.
Qed.

(** C8, as the code has it, for a limit that is not negative.  The output
    has at most [limit] elements, is sorted by similarity, highest first,
    and holds no record identifier twice.  An element whose record was
    returned by the semantic search is the last semantic result returned
    for that record (so it carries the semantic score of that result, never
    the default); an element whose record was not is the entry of a keyword
    row, with similarity [1/2].  A record returned by the semantic search
    (whether or not the title search returned it too) is in the output, as
    its last semantic result, when the semantic scores are above [1/2], as
    they are above the match threshold; a record returned by the title
    search is in the output when the merged set fits in [limit] elements,
    and may be cut off otherwise. *)
Theorem hybridSearch_merged (documents : list Document)
    (regsData keywordResults : option (list Regulation))
    (filters : SearchFilter) (limit : Z) :
  0 <= limit ->
  let semanticResults := search documents regsData filters limit in
  let rows := default [] keywordResults in
  let out := hybridSearch documents regsData keywordResults filters limit in
  Z.of_nat (length out) <= limit
  /\ StronglySorted descending out
  /\ NoDup (map regulationId out)
  /\ (forall r, In r out ->
      exists rid, regulationId r = Some rid
        /\ ((exists s, In s semanticResults /\ regulationId s = Some rid /\ rid <> ""%string)
            -> In r semanticResults /\ isLast rid r semanticResults)
        /\ ((forall s, In s semanticResults -> regulationId s <> Some rid)
            -> exists regulation,
                 In regulation rows /\ reg_id regulation = rid
                 /\ r = keywordEntry regulation /\ similarity r = 1 # 2))
  /\ ((forall doc, In doc documents -> (1 # 2 < d_similarity doc)%Q) ->
      forall s rid, In s semanticResults -> regulationId s = Some rid -> rid <> ""%string ->
        exists r, In r out /\ regulationId r = Some rid /\ In r semanticResults
                  /\ isLast rid r semanticResults)
  /\ (Z.of_nat (length (merge semanticResults keywordResults)) <= limit ->
      forall regulation, In regulation rows ->
        exists r, In r out /\ regulationId r = Some (reg_id regulation)).
Proof.
  intros Hlimit semanticResults rows out.
  assert (Hout : out = firstn (Z.to_nat limit)
                         (sortBySimilarity (map snd (merge semanticResults keywordResults)))).
  { unfold out, hybridSearch. apply slice_prefix, Hlimit. }
  split; [|split; [|split; [|split; [|split]]]].
  - rewrite Hout, length_firstn. lia.
  - rewrite Hout. apply firstn_sorted, sortBySimilarity_sorted.
  - apply hybridSearch_NoDup, Hlimit.
  - intros r Hr. apply hybridSearch_In in Hr as [k Hk]. fold semanticResults in Hk.
    apply merge_entries in Hk as [Hid Hk]. exists k. split; [exact Hid|]. split.
    + intros (s & Hs & Hsid & Hne).
      destruct (lastSemantic k semanticResults) as [s'|] eqn:Hlast.
      * subst r. split; [|exact (lastSemantic_isLast _ _ _ Hlast)].
        apply lastSemantic_Some in Hlast. tauto.
      * exfalso. apply (lastSemantic_None _ _ s Hlast); [|exact Hs | exact Hsid].
        unfold JS.truthy. apply negb_true_iff, String.eqb_neq. exact Hne.
    + intros Hnone.
      destruct (lastSemantic k semanticResults) as [s'|] eqn:Hlast.
      * apply lastSemantic_Some in Hlast as (Hin & Hsid & _).
        exfalso. apply (Hnone s' Hin Hsid).
      * destruct Hk as (regulation & Hin & Hrid & ->).
        exists regulation. auto.
  - intros Hhigh s rid Hs Hsid Hne.
    assert (Htruthy : JS.truthy rid = true)
      by (unfold JS.truthy; apply negb_true_iff, String.eqb_neq; exact Hne).
    destruct (lastSemantic rid semanticResults) as [s'|] eqn:Hlast.
    2: { exfalso. apply (lastSemantic_None _ _ s Hlast Htruthy Hs Hsid). }
    pose proof (merge_get semanticResults keywordResults rid) as Hget.
    rewrite Hlast in Hget. apply mapGet_In in Hget; [|apply merge_NoDup].
    pose proof (lastSemantic_isLast _ _ _ Hlast) as Hisl.
    apply lastSemantic_Some in Hlast as (Hin' & Hid' & _).
    exists s'. split; [|auto]. rewrite Hout.
    apply sorted_high_prefix.
    + apply sortBySimilarity_sorted.
    + apply (Permutation_in _ (Permutation_sym (sortBySimilarity_perm _))).
      apply in_map_iff. exists (rid, s'). auto.
    + apply search_In in Hin' as (doc & Hdoc & Hsim & _).
      specialize (Hhigh doc Hdoc). unfold high. apply negb_true_iff.
      destruct (Qle_bool (similarity s') (1 # 2)) eqn:E; [|reflexivity].
      apply Qle_bool_iff in E. rewrite Hsim in E. lra.
    + rewrite (filter_perm_length high _ _ (sortBySimilarity_perm _)).
      pose proof (merge_high semanticResults keywordResults) as Hcount.
      pose proof (search_length documents regsData filters limit Hlimit) as Hlen.
      change (search documents regsData filters limit) with semanticResults in Hlen.
      lia.
  - intros Hfits regulation Hreg.
    pose proof (merge_get semanticResults keywordResults (reg_id regulation)) as Hget.
    assert (Hsome : exists v, mapGet (reg_id regulation)
                                (merge semanticResults keywordResults) = Some v).
    { rewrite Hget. destruct (lastSemantic _ _); [eauto|].
      destruct (firstKeyword _ _) eqn:Hnone; [cbn; eauto|].
      exfalso. unfold firstKeyword in Hnone.
      pose proof (find_none _ _ Hnone regulation Hreg) as H. cbn in H.
      rewrite String.eqb_refl in H. discriminate. }
    destruct Hsome as [v Hv]. apply mapGet_In in Hv; [|apply merge_NoDup].
    exists v. split; [|apply (merge_entries _ _ _ _ Hv)].
    rewrite Hout, firstn_all2.
    + apply (Permutation_in _ (Permutation_sym (sortBySimilarity_perm _))).
      apply in_map_iff. exists (reg_id regulation, v). auto.
    + rewrite (Permutation_length (sortBySimilarity_perm _)), length_map. lia.
Qed.

(** C10: a semantic result without a record identifier is in no output of
    the hybrid search, whatever its similarity. *)
Theorem hybridSearch_needs_regulationId (documents : list Document)
    (regsData keywordResults : option (list Regulation))
    (filters : SearchFilter) (limit : Z) (r : SearchResult) :
  In r (search documents regsData filters limit) ->
  regulationId r = None ->
  ~ In r (hybridSearch documents regsData keywordResults filters limit).
Proof.
  intros _ Hnone Hin. apply hybridSearch_In in Hin as [k Hk].
  apply merge_entries in Hk as [Hid _]. congruence.
Qed.

(** *** Examples *)

(** Two chunks of [reg-a], returned with scores 0.9 and 0.7, and a title
    match of [reg-a]: the record is in the output once, as the second
    chunk, with the score 0.7. *)
Lemma hybridSearch_merged_witness :
  exists r,
    In r (hybridSearch [docA; docA'] (Some [regA]) (Some [regA; regB]) noFilter 10)
    /\ regulationId r = Some "reg-a"%string
    /\ isLast "reg-a" r (search [docA; docA'] (Some [regA]) noFilter 10).
Proof.
  destruct (hybridSearch_merged [docA; docA'] (Some [regA]) (Some [regA; regB])
              noFilter 10 ltac:(lia)) as (_ & _ & _ & _ & Hsemantic & _).
  destruct (Hsemantic ltac:(intros doc [<- | [<- | []]]; reflexivity)
              (toResult [regA] docA) "reg-a"%string)
    as (r & Hr & Hid & _ & Hlast).
  - vm_compute. left. reflexivity.
  - reflexivity.
  - discriminate.
  - exists r. auto.
Defined.

(** With [limit = 1] the semantic match of [reg-a] fills the output, and
    [reg-b], which only the title search returned, is not in it. *)
Lemma hybridSearch_cuts_keyword_match :
  In regB [regB]
  /\ (forall s, In s (search [docA] (Some [regA]) noFilter 1) ->
        regulationId s <> Some "reg-b"%string)
  /\ ~ exists r, In r (hybridSearch [docA] (Some [regA]) (Some [regB]) noFilter 1)
                 /\ regulationId r = Some "reg-b"%string.
Proof.
  split; [left; reflexivity|]. split.
  - intros s Hs. vm_compute in Hs. destruct Hs as [<- | []]. discriminate.
  - intros (r & Hr & Hid). vm_compute in Hr. destruct Hr as [<- | []]. discriminate.
Qed.

Lemma hybridSearch_needs_regulationId_witness :
  ~ In (toResult [regA] docU)
       (hybridSearch [docU; docA] (Some [regA]) (Some [regA; regB]) noFilter 10).
Proof.
  apply (hybridSearch_needs_regulationId [docU; docA] (Some [regA])
           (Some [regA; regB]) noFilter 10 (toResult [regA] docU)).
  - vm_compute. left. reflexivity.
  - reflexivity.
Defined.

(** The same example, run: the unlinked chunk has the highest score of all
    and is the one result missing. *)
Lemma hybridSearch_example :
  map (fun r => (id r, similarity r))
      (hybridSearch [docU; docA] (Some [regA]) (Some [regA; regB]) noFilter 10)
  = [("chunk-1"%string, 9 # 10); ("reg-b"%string, 1 # 2)].
Proof. vm_compute. reflexivity. Qed.

(** Two chunks of one record: the record is listed once, with the score of
    the chunk returned last, not the higher one. *)
Lemma hybridSearch_last_chunk :
  map (fun r => (id r, similarity r))
      (hybridSearch [docA; docA'] (Some [regA]) (Some [regA; regB]) noFilter 10)
  = [("chunk-3"%string, 7 # 10); ("reg-b"%string, 1 # 2)].
Proof. vm_compute. reflexivity. Qed.

(** *** What the filters of [search] let through *)

Lemma includes_In l s : includes l s = true -> In s l.
Proof.
  unfold includes. intros H. apply existsb_exists in H as (x & Hx & E).
  apply String.eqb_eq in E. subst x. exact Hx.
Qed.

Lemma filterBy_passes allowed field results r :
  In r (filterBy allowed field results) -> passes allowed (field r).
Proof.
  unfold filterBy, passes. destruct allowed as [[|v vs]|]; try (intros _; exact I).
  intros H. apply filter_In in H as [_ H]. apply andb_prop in H as [Ht Hin].
  destruct (field r) as [x|]; [|discriminate]. cbn [truthyOpt default] in *.
  exists x. split; [reflexivity|]. split; [|exact (includes_In _ _ Hin)].
  intros ->. discriminate.
Qed.

Lemma filterByDate_inRange range results r :
  In r (filterByDate range results) -> inRange range (effectiveDate r).
Proof.
  unfold filterByDate, inRange. destruct range as [[s e]|]; [|intros _; exact I].
  intros H. apply filter_In in H as [_ H].
  destruct (effectiveDate r) as [d|]; [|discriminate].
  destruct (JS.truthy d) eqn:Ht; [|discriminate].
  apply andb_prop in H as [H1 H2]. exists d.
  split; [reflexivity|]. split; [|split; assumption]. intros ->. discriminate.
Qed.

Lemma findRegulation_Some regulations rid reg :
  findRegulation regulations rid = Some reg ->
  In reg regulations /\ rid = Some (reg_id reg).
Proof.
  unfold findRegulation. destruct rid as [rid|]; [|discriminate].
  intros H. apply find_some in H as [Hin E]. apply String.eqb_eq in E.
  split; [exact Hin | congruence].
Qed.

(** X20: the filters of [search] are sound.  Every result satisfies every
    filter in force: for a list of jurisdictions, categories or priorities
    that is not empty, its field has a non-empty value of the list; for a
    date range, its effective date lies in the range.  So with any filter
    in force every result belongs to a structured record that the
    [regulations] query returned, and carries that record's fields: a
    document whose record was not found passes no filter. *)
Theorem search_filters_sound (documents : list Document)
    (regsData : option (list Regulation)) (filters : SearchFilter) (limit : Z)
    (r : SearchResult) :
  In r (search documents regsData filters limit) ->
  passes (f_jurisdiction filters) (jurisdiction r)
  /\ passes (f_category filters) (category r)
  /\ passes (f_priority filters) (priority r)
  /\ inRange (dateRange filters) (effectiveDate r)
  /\ (filtered filters = true ->
      exists reg, In reg (default [] regsData)
        /\ regulationId r = Some (reg_id reg)
        /\ jurisdiction r = reg_jurisdiction reg
        /\ category r = reg_category reg
        /\ priority r = reg_priority reg
        /\ effectiveDate r = effective_date reg).
Proof.
  unfold search. intros H. apply slice_In in H.
  pose proof (filterByDate_inRange _ _ _ H) as Hdate. apply filterByDate_In in H.
  pose proof (filterBy_passes _ _ _ _ H) as Hprio. apply filterBy_In in H.
  pose proof (filterBy_passes _ _ _ _ H) as Hcat. apply filterBy_In in H.
  pose proof (filterBy_passes _ _ _ _ H) as Hjur. apply filterBy_In in H.
  repeat (split; [assumption|]).
  intros Hactive. apply in_map_iff in H as (doc & <- & _).
  set (regulations := match omap _ documents with [] => [] | _ => default [] regsData end)
    in *.
  assert (Hfield : exists x : Regulation -> option string,
             findRegulation regulations (metadata doc ≫= regulation_id) ≫= x <> None).
  { unfold filtered in Hactive. unfold passes, inRange in *. cbn [toResult jurisdiction
      category priority effectiveDate] in *.
    destruct (f_jurisdiction filters) as [[|]|];
      [| destruct Hjur as (x & E & _); exists reg_jurisdiction; congruence |];
      (destruct (f_category filters) as [[|]|];
       [| destruct Hcat as (x & E & _); exists reg_category; congruence |]);
      (destruct (f_priority filters) as [[|]|];
       [| destruct Hprio as (x & E & _); exists reg_priority; congruence |]);
      (destruct (dateRange filters) as [[s e]|];
       [destruct Hdate as (x & E & _); exists effective_date; congruence
       | discriminate Hactive]). }
  destruct Hfield as [x Hx].
  destruct (findRegulation regulations (metadata doc ≫= regulation_id)) as [reg|] eqn:Hreg;
    [|exfalso; apply Hx; reflexivity].
  apply findRegulation_Some in Hreg as Hfound. destruct Hfound as [Hin Hid].
  exists reg. cbn [toResult regulationId jurisdiction category priority effectiveDate].
  rewrite Hreg. cbn. repeat split; try assumption.
  subst regulations. destruct (omap _ documents); [destruct Hin | exact Hin].
Qed.

Lemma search_filters_sound_witness :
  exists x, jurisdiction (toResult [regA] docA) = Some x
            /\ x <> ""%string /\ In x ["EU"%string].
Proof.
  refine (proj1 (search_filters_sound [docA; docU] (Some [regA])
                   {| f_jurisdiction := Some ["EU"%string]; f_category := None;
                      f_priority := None; dateRange := None |} 10
                   (toResult [regA] docA) _)).
  vm_compute. left. reflexivity.
Defined.

(** *** [findSimilar] *)

Lemma filter_length_lt {A} (f : A -> bool) l x :
  In x l -> f x = false -> (length (List.filter f l) < length l)%nat.
Proof.
  induction l as [|y l IH]; intros Hin Hx; [destruct Hin|].
  cbn [List.filter length]. pose proof (filter_length_le f l) as Hle.
  destruct Hin as [->|Hin].
  - rewrite Hx. lia.
  - specialize (IH Hin Hx). destruct (f y); cbn [length]; lia.
Qed.

(** X21: what [findSimilar] returns.  With a limit that is not negative,
    the results never hold the document asked about and are at most
    [limit]; and when the store answers at most [limit + 1] rows, as it is
    asked to, with the document itself among them, no other row is cut
    off: the results are all the other rows, in the order of the answer. *)
Theorem findSimilar_others (documentId : string)
    (documents : list (Document * option string)) (limit : Z)
    (results : list SearchResult) :
  0 <= limit ->
  findSimilar documentId true (inr documents) limit = inr results ->
  Forall (fun r => id r <> documentId) results
  /\ Z.of_nat (length results) <= limit
  /\ (Z.of_nat (length documents) <= limit + 1 ->
      In documentId (map (fun row => d_id (fst row)) documents) ->
      results = map similarResult
                  (List.filter (fun row => negb (String.eqb (d_id (fst row)) documentId))
                               documents)).
Proof.
  intros Hlimit. unfold findSimilar. cbn [negb]. intros [= <-].
  rewrite (slice_prefix _ _ Hlimit). split; [|split].
  - rewrite Stdlib.Lists.List.Forall_forall. intros r Hr.
    apply in_map_iff in Hr as (row & <- & Hrow).
    apply In_firstn, filter_In in Hrow as [_ Hne].
    cbn [similarResult id]. apply negb_true_iff, String.eqb_neq in Hne. exact Hne.
  - rewrite length_map, length_firstn. lia.
  - intros Hcount Hsource. f_equal. apply firstn_all2.
    apply in_map_iff in Hsource as (row & Hid & Hrow).
    pose proof (filter_length_lt
                  (fun row => negb (String.eqb (d_id (fst row)) documentId))
                  documents row Hrow) as Hlt.
    cbn beta in Hlt. rewrite Hid, String.eqb_refl in Hlt. specialize (Hlt eq_refl). lia.
Qed.

Lemma findSimilar_others_witness :
  Forall (fun r => id r <> "chunk-1"%string) [similarResult (docU, None)].
Proof.
  refine (proj1 (findSimilar_others "chunk-1"
                   [(docA, Some "EU"%string); (docU, None)] 1
                   [similarResult (docU, None)] _ _)).
  - lia.
  - vm_compute. reflexivity.
Defined.

End SearchFacts.

(** ** document-processor.ts *)

Module ProcessorFacts.
Import Processor JSFacts.

Lemma collapse_singleSpaced s :
  forall afterSpace,
    singleSpaced (collapse afterSpace s)
    /\ (afterSpace = true ->
        match collapse afterSpace s with
        | d :: _ => JS.is_space d = false
        | [] => True
        end).
Proof.
  induction s as [|c s IH]; intros afterSpace; cbn [collapse]; [split; intros; exact I|].
  destruct (JS.is_space c) eqn:Hc.
  - destruct afterSpace.
    + apply IH.
    + split; [|discriminate]. cbn [singleSpaced].
      destruct (IH true) as [Hs Hhead]. split; [|exact Hs].
      intros _. split; [reflexivity | exact (Hhead eq_refl)].
  - split; [|intros _; exact Hc]. cbn [singleSpaced].
    split; [intros H; congruence | apply IH].
Qed.

Lemma singleSpaced_app a b : singleSpaced (a ++ b) -> singleSpaced a /\ singleSpaced b.
Proof.
  induction a as [|c a IH]; cbn [app singleSpaced]; [intros H; split; [exact I | exact H]|].
  intros [Hc Hrest]. destruct (IH Hrest) as [Ha Hb]. split; [|exact Hb].
  split; [|exact Ha]. intros Hs. destruct (Hc Hs) as [-> Hnext]. split; [reflexivity|].
  destruct a; [exact I | exact Hnext].
Qed.

Lemma singleSpaced_trim s : singleSpaced s -> singleSpaced (JS.trim s).
Proof.
  intros H. unfold JS.trim.
  destruct (trimStart_suffix s) as [ws Hws].
  destruct (trimEnd_prefix (JS.trimStart s)) as [ws' Hws'].
  rewrite Hws in H. apply singleSpaced_app in H as [_ H].
  rewrite Hws' in H. apply singleSpaced_app in H as [H _]. exact H.
Qed.

Lemma singleSpaced_In s c :
  singleSpaced s -> In c s -> JS.is_space c = true -> c = " "%char.
Proof.
  induction s as [|d s IH]; cbn [singleSpaced]; intros H Hin Hc; [destruct Hin|].
  destruct H as [Hd Hs].
  destruct Hin as [->|Hin]; [exact (proj1 (Hd Hc)) | exact (IH Hs Hin Hc)].
Qed.

Lemma lastIndexOf_absent c s i : ~ In c s -> JS.lastIndexOf_from i c s = -1.
Proof.
  revert i. induction s as [|x s IH]; intros i Hin; cbn [JS.lastIndexOf_from]; [reflexivity|].
  rewrite IH by (intros H; apply Hin; right; exact H).
  replace (0 <=? -1) with false by reflexivity.
  destruct (Ascii.eqb x c) eqn:E; [|reflexivity].
  apply Ascii.eqb_eq in E. subst x. destruct Hin. left. reflexivity.
Qed.

(** X22: the text [cleanHtmlContent] returns.  Whatever the markup, and
    whatever the removal of scripts and styles leaves, the cleaned text has
    no white space at either end, no white-space character other than the
    space, and no two spaces in a row; in particular it has no line
    break. *)
Theorem cleanHtmlContent_spacing (removeScripts removeStyles : JS.str -> JS.str)
    (html : JS.str) :
  let cleaned := cleanHtmlContent removeScripts removeStyles html in
  JS.trim cleaned = cleaned
  /\ singleSpaced cleaned
  /\ (forall c, In c cleaned -> JS.is_space c = true -> c = " "%char)
  /\ JS.lastIndexOf cleaned "010" = -1.
Proof.
  intros cleaned.
  assert (Hs : singleSpaced cleaned).
  { unfold cleaned, cleanHtmlContent. apply singleSpaced_trim, collapse_singleSpaced. }
  split; [apply trim_idempotent|]. split; [exact Hs|].
  split; [intros c; apply singleSpaced_In, Hs|].
  apply lastIndexOf_absent. intros Hin.
  pose proof (singleSpaced_In _ _ Hs Hin eq_refl) as H. discriminate H.
Qed.

End ProcessorFacts.

(** ** pipeline-orchestrator.ts *)

Module PipelineFacts.
Import Pipeline.

Section Runs.
Variable parseURL : URL.parser.
Variable extractMetadata : string -> string -> Scraper.Metadata.
Variable removeScripts removeStyles : JS.str -> JS.str.
Variable describe : Scraper.ScrapeError -> string.
Variable typeErrorMessage : string.

Lemma caught_consistent message : consistent (caught message).
Proof. unfold consistent, caught. cbn. split; [discriminate | reflexivity]. Qed.

Lemma finish_consistent cid rid docs errs : consistent (finish cid rid docs errs).
Proof.
  unfold consistent, finish. cbn [status errors scrapedContentId].
  destruct errs as [|e errs]; [reflexivity|].
  destruct (JS.truthy cid) eqn:Ht; (split; [discriminate|]); [|reflexivity].
  intros ->. discriminate Ht.
Qed.

(** X23: what the status of a result tells.  Whenever [runPipeline]
    returns, its status is [success] exactly when no error was recorded,
    [failed] exactly when an error was recorded and no identifier of stored
    content is returned, and [partial] exactly when an error was recorded
    and the identifier of the stored content is returned. *)
Theorem runPipeline_status (fuel : nat) (this : Scraper.EthicalScraper) (w : World)
    (options : PipelineOptions) (run : Run) :
  runPipeline parseURL extractMetadata removeScripts removeStyles describe
    typeErrorMessage fuel this w options = Some run ->
  let r := result run in
  (status r = Jobs.success <-> errors r = [])
  /\ (status r = Jobs.pipelineFailed
      <-> errors r <> [] /\ scrapedContentId r = ""%string)
  /\ (status r = Jobs.partial
      <-> errors r <> [] /\ scrapedContentId r <> ""%string).
Proof.
  intros Hrun r.
  assert (H : consistent r).
  { subst r. revert Hrun. unfold runPipeline.
    destruct (Scraper.scrape _ _ _ _ _) as [[page|e] this'];
      [|intros [= <-]; apply caught_consistent].
    destruct (storeScraped w) as [[[cid|] [message|]]|message];
      try (intros [= <-]; apply caught_consistent).
    destruct (if default true (autoProcess options) then _ else _) as [rid errs].
    destruct (default true (autoEmbed options));
      [|intros [= <-]; apply finish_consistent].
    destruct (Embeddings.chunkText _ _ _ _) as [chunks|];
      [|destruct (overflow w) as [message|]; [|discriminate]];
      intros [= <-]; apply finish_consistent. }
  unfold consistent in H.
  destruct (status r); repeat split; intros; try discriminate;
    try tauto; try (destruct H; tauto); try (exfalso; tauto).
Qed.

(** *** The chunks of a run *)

Lemma embedChunk_counts w row acc :
  let e := embedChunk w row acc in
  (length (ids e) + length (failures e) = S (length (ids acc) + length (failures acc)))%nat
  /\ (length (ids acc) <= length (ids e))%nat
  /\ (rows e = rows acc \/ rows e = rows acc ++ [row])
  /\ (length (ids e) - length (ids acc) <= length (rows e) - length (rows acc))%nat.
Proof.
  unfold embedChunk.
  destruct (generateEmbedding w _ _) as [[]|m];
    [destruct (storeDocument w row) as [[[d|] [m|]]|m]|];
    cbn [ids failures rows error data]; rewrite ?length_app; cbn [length];
    repeat split; auto; lia.
Qed.

Lemma embedAll_counts w row chunks :
  forall i acc,
    let e := embedAll w row i chunks acc in
    (length (ids e) + length (failures e)
     = length (ids acc) + length (failures acc) + length chunks)%nat
    /\ (length (ids acc) <= length (ids e))%nat
    /\ (length (ids e) - length (ids acc) <= length (rows e) - length (rows acc))%nat
    /\ exists new, rows e = rows acc ++ new
         /\ (length new <= length chunks)%nat
         /\ Forall (fun r => exists j chunk, r = row j chunk /\ In chunk chunks) new.
Proof.
  induction chunks as [|chunk chunks IH]; intros i acc; cbn [embedAll].
  - repeat split; try (cbn; lia). exists []. rewrite app_nil_r.
    repeat split; [cbn; lia | constructor].
  - destruct (embedChunk_counts w (row i chunk) acc) as (Hc & Hi & Hr & Hd).
    destruct (IH (i + 1) (embedChunk w (row i chunk) acc)) as (Hc' & Hi' & Hd' & new & Hn & Hl & Hf).
    cbn zeta in *. set (e := embedAll _ _ _ _ _) in *.
    assert (Hmono : (length (rows (embedChunk w (row i chunk) acc)) <= length (rows e))%nat).
    { rewrite Hn, length_app. lia. }
    assert (Hmono0 : (length (rows acc) <= length (rows (embedChunk w (row i chunk) acc)))%nat).
    { destruct Hr as [-> | ->]; rewrite ?length_app; lia. }
    split; [cbn [length]; lia|]. split; [lia|]. split; [lia|].
    assert (Hweak : Forall (fun r => exists j c, r = row j c /\ In c (chunk :: chunks)) new).
    { eapply Forall_impl; [exact Hf|]. intros r (j & c & -> & Hin).
      exists j, c. split; [reflexivity | right; exact Hin]. }
    destruct Hr as [Hr | Hr]; rewrite Hr in Hn.
    + exists new. split; [exact Hn|]. split; [cbn [length]; lia | exact Hweak].
    + exists (row i chunk :: new). rewrite <- app_assoc in Hn.
      split; [exact Hn|]. split; [cbn [length]; lia|].
      constructor; [|exact Hweak]. exists i, chunk. split; [reflexivity | left; reflexivity].
Qed.

Lemma processing_once w :
  (length (snd (processing typeErrorMessage w)) <= 1)%nat
  /\ (fst (processing typeErrorMessage w) <> None ->
      snd (processing typeErrorMessage w) = []).
Proof.
  unfold processing.
  destruct (processDocument w) as [[]|m];
    [destruct (storeRegulation w) as [[[d|] [m|]]|m]|];
    cbn; split; try lia; congruence.
Qed.

(** X24: every chunk is accounted for.  When the page was scraped and
    stored, embedding is not switched off and [chunkText] returns, the
    pipeline returns; every chunk gave either a document identifier or one
    error, next to the one error processing may give at most; the rows sent
    to the [documents] table are at most one per chunk, each holds a chunk of
    the text, the identifier of the stored content, the source and the URL
    of the page, and all hold the regulation the result names: none when
    processing failed. *)
Theorem runPipeline_accounts (fuel : nat) (this this' : Scraper.EthicalScraper)
    (w : World) (options : PipelineOptions) (page : Scraper.ScrapeResult)
    (cid : string) (chunks : list JS.str) :
  Scraper.scrape parseURL extractMetadata this (scraping w) (url options)
  = (Scraper.Fulfilled page, this') ->
  storeScraped w = Returned {| data := Some cid; error := None |} ->
  autoEmbed options <> Some false ->
  Embeddings.chunkText fuel
    (Processor.cleanHtmlContent removeScripts removeStyles
       (JS.of_string (Scraper.r_content page))) 1000 200 = Some chunks ->
  exists run,
    runPipeline parseURL extractMetadata removeScripts removeStyles describe
      typeErrorMessage fuel this w options = Some run
    /\ let r := result run in
       let processingErrors :=
         if default true (autoProcess options)
         then snd (processing typeErrorMessage w) else [] in
       (length (documentIds r) + length (errors r)
        = length chunks + length processingErrors)%nat
       /\ (length processingErrors <= 1)%nat
       /\ (length (documentIds r) <= length (sent run) <= length chunks)%nat
       /\ Forall (fun row =>
                    In (content row) chunks
                    /\ scraped_content_id row = cid
                    /\ source_id row = sourceId options
                    /\ row_url row = Scraper.r_url page
                    /\ orUndefined (regulation_id row) = regulationId r)
                 (sent run).
Proof.
  intros Hscrape Hstore Hembed Hchunks. unfold runPipeline.
  rewrite Hscrape, Hstore. cbn [error data].
  assert (Hon : default true (autoEmbed options) = true).
  { destruct (autoEmbed options) as [[]|]; [reflexivity | congruence | reflexivity]. }
  rewrite Hon, Hchunks.
  pose proof (processing_once w) as [Hp _].
  destruct (if default true (autoProcess options) then _ else _) as [rid errs] eqn:Hproc.
  assert (Herrs : (if default true (autoProcess options)
                   then snd (processing typeErrorMessage w) else []) = errs).
  { destruct (default true (autoProcess options));
      [rewrite Hproc; reflexivity | injection Hproc as _ <-; reflexivity]. }
  eexists. split; [reflexivity|].
  cbn [result sent finish documentIds errors regulationId]. rewrite Herrs.
  match goal with
  | |- context [embedAll w ?row 0 chunks ?acc] =>
      destruct (embedAll_counts w row chunks 0 acc) as (Hc & _ & Hd & new & Hn & Hl & Hf);
      cbn zeta in Hc, Hd, Hn; set (e := embedAll w row 0 chunks acc) in *
  end.
  cbn [ids failures rows length app] in Hc, Hd, Hn.
  rewrite length_app. split; [lia|]. split.
  { rewrite <- Herrs. destruct (default true (autoProcess options)); [exact Hp | cbn; lia]. }
  rewrite Hn. split; [rewrite Hn in Hd; lia|].
  eapply Forall_impl; [exact Hf|].
  intros row (j & chunk & -> & Hin). cbn. auto.
Qed.

(** *** The job of a run *)

(** X25: what a run means for its job.  When the page was scraped and
    stored under an identifier that is not empty, the job that ran the
    pipeline ends [completed], with its retry count as it was, whatever
    processing and embedding did; when the scrape was rejected, the job's
    execution fails with the message of the scrape error. *)
Theorem run_settles_job (fuel : nat) (this : Scraper.EthicalScraper) (w : World)
    (options : PipelineOptions) (run : Run)
    (store : gmap string Jobs.Job) (clock : Jobs.World) (job row : Jobs.Job) :
  runPipeline parseURL extractMetadata removeScripts removeStyles describe
    typeErrorMessage fuel this w options = Some run ->
  Jobs.outcome clock = Jobs.Returned (forJob (result run)) ->
  store !! Jobs.id job = Some row ->
  (forall page cid,
     fst (Scraper.scrape parseURL extractMetadata this (scraping w) (url options))
     = Scraper.Fulfilled page ->
     storeScraped w = Returned {| data := Some cid; error := None |} ->
     cid <> ""%string ->
     exists row',
       snd (Jobs.executeJob store clock job) !! Jobs.id job = Some row'
       /\ Jobs.status row' = Jobs.completed
       /\ Jobs.retry_count row' = Jobs.retry_count row)
  /\ (forall e,
        fst (Scraper.scrape parseURL extractMetadata this (scraping w) (url options))
        = Scraper.Rejected e ->
        Jobs.failure (Jobs.outcome clock) = Some (describe e)).
Proof.
  intros Hrun Hout Hrow. split.
  - intros page cid Hscrape Hstore Hcid.
    assert (Hstatus : status (result run) <> Jobs.pipelineFailed).
    { revert Hrun. unfold runPipeline.
      destruct (Scraper.scrape _ _ _ _ _) as [outcome this']. cbn [fst] in Hscrape.
      subst outcome. rewrite Hstore. cbn [error data].
      assert (Ht : JS.truthy cid = true).
      { unfold JS.truthy. apply negb_true_iff, String.eqb_neq. exact Hcid. }
      destruct (if default true (autoProcess options) then _ else _) as [rid errs].
      destruct (default true (autoEmbed options)).
      - destruct (Embeddings.chunkText _ _ _ _) as [chunks|];
          [|destruct (overflow w) as [message|]; [|discriminate]];
          intros [= <-]; cbn [result finish status]; rewrite Ht;
          destruct (errs ++ _); discriminate.
      - intros [= <-]. cbn [result finish status]. rewrite Ht.
        destruct errs; discriminate. }
    unfold Jobs.executeJob. rewrite Hout.
    assert (Hfail : Jobs.failure (Jobs.Returned (forJob (result run))) = None).
    { unfold Jobs.failure, forJob. cbn [Jobs.p_status].
      destruct (status (result run)); congruence. }
    rewrite Hfail. cbn [snd]. eexists. split.
    + rewrite !JobsFacts.updateJobStatus_lookup, Hrow. reflexivity.
    + cbn. split; reflexivity.
  - intros e Hscrape. rewrite Hout. revert Hrun. unfold runPipeline.
    destruct (Scraper.scrape _ _ _ _ _) as [outcome this']. cbn [fst] in Hscrape.
    subst outcome. intros [= <-]. reflexivity.
Qed.

(** *** A page on which the loop of [chunkText] is stuck *)

(** X26: a page on which the loop of [chunkText] is stuck.  When the page
    was scraped and stored, embedding is not switched off, and the first
    slice [chunkText] cuts from the cleaned text sends the loop back to
    offset 0, as after a first sentence of 200 characters followed by more
    than 800 characters without a full stop, the loop never ends by itself,
    however many chunks the array can take; when the push that overflows
    the array throws a RangeError, [runPipeline] returns with the error
    ["Embedding failed: "] and the message of the RangeError after the
    errors of processing, with no document and no row sent to the
    [documents] table, and, the identifier of the stored content not being
    empty, with status [partial]. *)
Theorem runPipeline_stuck_loop (this this' : Scraper.EthicalScraper) (w : World)
    (options : PipelineOptions) (page : Scraper.ScrapeResult) (cid message : string) :
  Scraper.scrape parseURL extractMetadata this (scraping w) (url options)
  = (Scraper.Fulfilled page, this') ->
  storeScraped w = Returned {| data := Some cid; error := None |} ->
  autoEmbed options <> Some false ->
  overflow w = Some message ->
  let cleanContent :=
    Processor.cleanHtmlContent removeScripts removeStyles
      (JS.of_string (Scraper.r_content page)) in
  0 < JS.len cleanContent ->
  snd (Embeddings.cut cleanContent 1000 200 0) = 0 ->
  forall fuel,
    Embeddings.chunkText fuel cleanContent 1000 200 = None
    /\ exists run,
         runPipeline parseURL extractMetadata removeScripts removeStyles describe
           typeErrorMessage fuel this w options = Some run
         /\ documentIds (result run) = []
         /\ sent run = []
         /\ errors (result run)
            = (if default true (autoProcess options)
               then snd (processing typeErrorMessage w) else [])
              ++ ["Embedding failed: " ++ message]%string
         /\ (cid <> ""%string ->
             status (result run) = Jobs.partial /\ scrapedContentId (result run) = cid).
Proof.
  intros Hscrape Hstore Hembed Hoverflow cleanContent Hlen Hcut fuel.
  assert (Hstuck : Embeddings.chunkText fuel cleanContent 1000 200 = None).
  { unfold Embeddings.chunkText.
    rewrite (EmbeddingsFacts.while_stuck cleanContent 1000 200 0 Hlen Hcut). reflexivity. }
  split; [exact Hstuck|]. unfold runPipeline.
  rewrite Hscrape, Hstore. cbn [error data].
  assert (Hon : default true (autoEmbed options) = true).
  { destruct (autoEmbed options) as [[]|]; [reflexivity | congruence | reflexivity]. }
  rewrite Hon. fold cleanContent. rewrite Hstuck, Hoverflow.
  destruct (if default true (autoProcess options) then _ else _) as [rid errs] eqn:Hproc.
  assert (Herrs : (if default true (autoProcess options)
                   then snd (processing typeErrorMessage w) else []) = errs).
  { destruct (default true (autoProcess options));
      [rewrite Hproc; reflexivity | injection Hproc as _ <-; reflexivity]. }
  rewrite Herrs. eexists. split; [reflexivity|].
  cbn [result sent finish documentIds errors status scrapedContentId].
  repeat split.
  - assert (Ht : JS.truthy cid = true)
      by (unfold JS.truthy; apply negb_true_iff, String.eqb_neq; assumption).
    rewrite Ht. destruct (errs ++ _) eqn:E; [|reflexivity].
    apply app_eq_nil in E as [_ E]. discriminate E.
  - assert (Ht : JS.truthy cid = true)
      by (unfold JS.truthy; apply negb_true_iff, String.eqb_neq; assumption).
    rewrite Ht. reflexivity.
Qed.

End Runs.

(** A page of two short sentences, the model failing and the [documents]
    table refusing every row: the result is [partial], with two errors and
    no document. *)
Lemma runPipeline_status_witness :
  exists run,
    runPipeline URL.simple Scraper.noMetadata id id message "null"
      10 create (degraded "<p>One. Two.</p>") options = Some run
    /\ status (result run) = Jobs.partial
    /\ errors (result run) <> [] /\ scrapedContentId (result run) <> ""%string.
Proof.
  destruct (runPipeline URL.simple Scraper.noMetadata id id message "null"
              10 create (degraded "<p>One. Two.</p>") options) as [run|] eqn:Hrun;
    [|vm_compute in Hrun; discriminate Hrun].
  exists run. split; [reflexivity|].
  pose proof (runPipeline_status _ _ _ _ _ _ _ _ _ _ _ Hrun) as (_ & _ & Hpartial).
  vm_compute in Hrun. injection Hrun as <-.
  split; [reflexivity|]. apply Hpartial. reflexivity.
Defined.

(** The same run: one chunk, no document, and two errors, of which one
    is the processing error. *)
Lemma runPipeline_accounts_witness :
  exists run,
    runPipeline URL.simple Scraper.noMetadata id id message "null"
      10 create (degraded "<p>One. Two.</p>") options = Some run
    /\ (length (documentIds (result run)) + length (errors (result run)) = 1 + 1)%nat.
Proof.
  edestruct runPipeline_accounts
    with (parseURL := URL.simple) (extractMetadata := Scraper.noMetadata)
         (removeScripts := @id JS.str) (removeStyles := @id JS.str)
         (describe := message) (typeErrorMessage := "null"%string)
         (fuel := 10%nat) (this := create) (w := degraded "<p>One. Two.</p>")
         (options := options) (cid := "content-1"%string)
    as (run & Hrun & Hcount & _).
  - vm_compute. reflexivity.
  - reflexivity.
  - discriminate.
  - vm_compute. reflexivity.
  - exists run. split; [exact Hrun | exact Hcount].
Defined.

(** The same run again: the job that ran it is completed. *)
Lemma run_settles_job_witness :
  match runPipeline URL.simple Scraper.noMetadata id id message "null"
          10 create (degraded "<p>One. Two.</p>") options with
  | Some run =>
      exists row',
        snd (Jobs.executeJob {[ "job-1"%string := Jobs.example ]}
               {| Jobs.startedAt := 10;
                  Jobs.outcome := Jobs.Returned (forJob (result run));
                  Jobs.finishedAt := 20 |} Jobs.example) !! "job-1"%string = Some row'
        /\ Jobs.status row' = Jobs.completed
  | None => False
  end.
Proof.
  destruct (runPipeline URL.simple Scraper.noMetadata id id message "null"
              10 create (degraded "<p>One. Two.</p>") options) as [run|] eqn:Hrun;
    [|vm_compute in Hrun; discriminate Hrun].
  assert (Hrow : ({[ "job-1"%string := Jobs.example ]} : gmap string Jobs.Job)
                   !! Jobs.id Jobs.example = Some Jobs.example)
    by (vm_compute; reflexivity).
  destruct (run_settles_job _ _ _ _ _ _ _ _ _ _ _
              {[ "job-1"%string := Jobs.example ]}
              {| Jobs.startedAt := 10;
                 Jobs.outcome := Jobs.Returned (forJob (result run));
                 Jobs.finishedAt := 20 |} Jobs.example Jobs.example Hrun eq_refl Hrow)
    as [Hdone _].
  edestruct Hdone as (row' & Hrow' & Hstatus & _).
  - vm_compute. reflexivity.
  - reflexivity.
  - discriminate.
  - exists row'. split; [exact Hrow' | exact Hstatus].
Defined.

(** A page that is one sentence of 200 characters followed by 900
    characters without a full stop, with room for 1000 chunks *)
Lemma runPipeline_stuck_loop_witness :
  exists run,
    runPipeline URL.simple Scraper.noMetadata id id message "null" 1000 create
      (working (JS.to_string Embeddings.longSentence)) options = Some run
    /\ status (result run) = Jobs.partial
    /\ documentIds (result run) = []
    /\ errors (result run) = ["Embedding failed: Invalid array length"%string].
Proof.
  edestruct runPipeline_stuck_loop
    with (parseURL := URL.simple) (extractMetadata := Scraper.noMetadata)
         (removeScripts := @id JS.str) (removeStyles := @id JS.str)
         (describe := message) (typeErrorMessage := "null"%string)
         (this := create) (w := working (JS.to_string Embeddings.longSentence))
         (options := options) (cid := "content-1"%string)
         (message := "Invalid array length"%string) (fuel := 1000%nat)
    as (_ & run & Hrun & Hids & _ & Herrors & Hstatus).
  - vm_compute. reflexivity.
  - reflexivity.
  - discriminate.
  - reflexivity.
  - vm_compute. reflexivity.
  - vm_compute. reflexivity.
  - exists run. split; [exact Hrun|]. split; [apply Hstatus; discriminate|].
    split; [exact Hids | exact Herrors].
Defined.

End PipelineFacts.
